(** * Interval scheduling engine of the event scheduler (src/App.tsx)

    A shallow embedding of the slot model, the collision resolver
    ([allowedRangeFor]), the pointer-gesture handlers, the schedule
    validator, the direct operations and the cell and label helpers of
    [App.tsx], followed by the properties of the specification that
    concern them and by further properties read off the code.

    Conventions of the embedding:
    - slot indices and interval endpoints are JavaScript numbers that only
      ever hold integers here; they are modelled as [Z], whose arithmetic
      is the code's on the integers below 2^53, the slots of the grid
      among them;
    - row and event indices are array indices, modelled as [nat]; a
      nullable field ([number | null]) is an [option];
    - React state is threaded explicitly: every handler is a function from
      the current [State] to the next one.  A handler that would raise a
      [TypeError] (an index outside the array of rows) has no next state
      and returns [None];
    - a row is a list of intervals in the first model, which serves for
      everything but a write-back at an index that has left its row, and
      an array with holes and optional titles in the second ([Arrays]),
      which covers that write-back too. *)

From stdpp Require Import base numbers list sorting strings.
From Stdlib Require Import ZArith Lia Ascii.

Local Open Scope Z_scope.

(** ** Configuration constants (lines 28-34) *)

Definition ROWS : nat := 3.
Definition START_HOUR : Z := 9.
Definition END_HOUR : Z := 20.
Definition SLOTS_PER_HOUR : Z := 4.
Definition TOTAL_SLOTS : Z := (END_HOUR - START_HOUR) * SLOTS_PER_HOUR.

(** ** Strings

    A JavaScript string is a sequence of UTF-16 code units.  [trim] is
    [String.prototype.trim]: it strips the code units of the ECMAScript
    [WhiteSpace] and [LineTerminator] productions from both ends. *)

Definition JSString : Type := list N.

Definition str (s : string) : JSString :=
  Ascii.N_of_ascii <$> String.list_ascii_of_string s.

Definition isWhiteSpace (c : N) : bool :=
  (bool_decide (c ∈ [9; 10; 11; 12; 13; 32; 160; 5760; 8232; 8233; 8239;
                      8287; 12288; 65279]%N)
   || ((8192 <=? c) && (c <=? 8202)))%N.

Fixpoint trimStart (s : JSString) : JSString :=
  match s with
  | c :: s' => if isWhiteSpace c then trimStart s' else s
  | [] => []
  end.

Definition trim (s : JSString) : JSString :=
  reverse (trimStart (reverse (trimStart s))).

(** Truthiness of a string: the empty string is the only falsy one. *)
Definition truthy (s : JSString) : bool :=
  match s with [] => false | _ :: _ => true end.

(** ** Data model (lines 4-26) *)

Record EventBlock : Type := mkEventBlock {
  start : Z;        (* inclusive slot index *)
  end_ : Z;         (* inclusive slot index; [end] is a keyword *)
  title : JSString
}.

Inductive DragMode : Type :=
  | ModeNone | ModeCreate | ModeMove | ModeResizeLeft | ModeResizeRight.

Global Instance DragMode_eq_dec : EqDecision DragMode.
Proof. solve_decision. Defined.

Record DragState : Type := mkDragState {
  mode : DragMode;
  row : option nat;
  eventIndex : option nat;
  anchorSlot : option Z;
  initialStart : option Z;
  initialEnd : option Z
}.

(** The value [JSON.parse] yields for a stored or imported schedule.  The
    TypeScript type pins [version] to the literal 1; a parsed payload may
    carry any number there, so the field is a [Z]. *)
Record ScheduleV1 : Type := mkSchedule {
  version : Z;
  savedAt : JSString;
  rows : list (list EventBlock)
}.

(** ** Validation helpers for persistence (lines 37-98) *)

(** The [typeof] and [Number.isInteger] guards of lines 38-39 hold by the
    types of the record fields, and so do the [Array.isArray] guards of
    [validateRows]. *)
Definition isValidEventBlock (ev : EventBlock) : bool :=
  if (start ev <? 0) || (end_ ev <? 0) || (start ev >? end_ ev) then false
  else if end_ ev >? TOTAL_SLOTS - 1 then false
  else true.

(** [[...r].sort((a, b) => a.start - b.start)]: a stable sort by [start].
    An element is inserted in front of the elements that followed it in
    the input and do not start before it. *)
Fixpoint insertByStart (a : EventBlock) (l : list EventBlock)
  : list EventBlock :=
  match l with
  | [] => [a]
  | b :: l' =>
      if start a <=? start b then a :: l else b :: insertByStart a l'
  end.

Definition sortByStart (r : list EventBlock) : list EventBlock :=
  foldr insertByStart [] r.

(** The inner loop of [validateRows] (lines 89-95) over one sorted row. *)
Fixpoint consecutiveOk (r : list EventBlock) : bool :=
  match r with
  | prev :: ((cur :: _) as tl) =>
      if end_ prev >=? start cur then
        if negb (end_ prev =? start cur - 1) then false
        else consecutiveOk tl
      else consecutiveOk tl
  | _ => true
  end.

Definition validateRows (rws : list (list EventBlock)) : bool :=
  if negb (length rws =? ROWS)%nat then false
  else if negb (forallb (forallb isValidEventBlock) rws) then false
  else
    let copy := sortByStart <$> rws in
    forallb consecutiveOk copy.

(** ** Serialisation (lines 100-128)

    [now] is the value of [new Date().toISOString()].  The storage cell is
    modelled by what [JSON.parse] returns for its content: [None] when the
    key is absent, the text is empty or unparsable, or the parsed value is
    falsy; [JSON.stringify] followed by [JSON.parse] gives the schedule
    back. *)

Definition makeSchedule (now : JSString) (rws : list (list EventBlock))
  : ScheduleV1 :=
  {| version := 1; savedAt := now; rows := rws |}.

Definition saveToStorage (now : JSString) (rws : list (list EventBlock))
  : option ScheduleV1 :=
  Some (makeSchedule now rws).

Definition loadFromStorage (stored : option ScheduleV1) : option ScheduleV1 :=
  match stored with
  | None => None
  | Some parsed =>
      if negb (version parsed =? 1) then None
      else if negb (validateRows (rows parsed)) then None
      else Some parsed
  end.

(** ** Component state (lines 150-169) *)

Record State : Type := mkState {
  events : list (list EventBlock);
  isSelecting : bool;
  selectRow : option nat;
  selectStart : option Z;
  selectCurrent : option Z;
  drag : DragState
}.

Definition noDrag : DragState :=
  {| mode := ModeNone; row := None; eventIndex := None; anchorSlot := None;
     initialStart := None; initialEnd := None |}.

Definition initialState : State :=
  {| events := replicate ROWS []; isSelecting := false; selectRow := None;
     selectStart := None; selectCurrent := None; drag := noDrag |}.

(** ** Timeline primitives and the collision resolver (lines 226-258) *)

(** [Array.prototype.findIndex], with [None] for -1. *)
Fixpoint findIndex {A} (p : A → bool) (l : list A) : option nat :=
  match l with
  | [] => None
  | x :: l' => if p x then Some 0%nat else S <$> findIndex p l'
  end.

(** [findEventAt(rowIdx, slotIdx)], given the row [events[rowIdx]]. *)
Definition findEventAt (rw : list EventBlock) (slotIdx : Z) : option nat :=
  findIndex (λ ev, (slotIdx >=? start ev) && (slotIdx <=? end_ ev)) rw.

Definition clamp (val min max : Z) : Z := Z.max min (Z.min max val).

Definition rangeOverlaps (aStart aEnd bStart bEnd : Z) : bool :=
  (aStart <=? bEnd) && (bStart <=? aEnd).

(** [rw.filter((_, i) => i !== excludeIndex)], the callback's index
    starting at [i]. *)
Fixpoint othersFrom (i : nat) (excludeIndex : option nat)
    (rw : list EventBlock) : list EventBlock :=
  match rw with
  | [] => []
  | o :: rw' =>
      if bool_decide (Some i ≠ excludeIndex)
      then o :: othersFrom (S i) excludeIndex rw'
      else othersFrom (S i) excludeIndex rw'
  end.

Definition others (excludeIndex : option nat) (rw : list EventBlock)
  : list EventBlock :=
  othersFrom 0 excludeIndex rw.

(** The range as first normalised by [allowedRangeFor] (lines 240-242). *)
Definition normalize (start0 end0 : Z) : Z * Z :=
  let s := clamp start0 0 (TOTAL_SLOTS - 1) in
  let e := clamp end0 0 (TOTAL_SLOTS - 1) in
  if s >? e then (e, s) else (s, e).

(** One iteration of the loop over [others] (lines 245-252). *)
Definition snap (se : Z * Z) (o : EventBlock) : Z * Z :=
  let '(s, e) := se in
  if rangeOverlaps s e (start o) (end_ o) then
    if (e >=? start o) && (s <=? start o) then (s, start o - 1)
    else if (s <=? end_ o) && (e >=? end_ o) then (end_ o + 1, e)
    else (s, e)
  else (s, e).

(** The final clamp and collapse (lines 254-256). *)
Definition finalize (se : Z * Z) : Z * Z :=
  let '(s, e) := se in
  let s := clamp s 0 (TOTAL_SLOTS - 1) in
  let e := clamp e 0 (TOTAL_SLOTS - 1) in
  let s := if s >? e then e else s in (* collapse if necessary *)
  (s, e).

(** [allowedRangeFor(rowIdx, excludeIndex, start, end)], given the row
    [events[rowIdx]]; the result is the pair [(start, end)]. *)
Definition allowedRangeFor (rw : list EventBlock) (excludeIndex : option nat)
    (start0 end0 : Z) : Z * Z :=
  finalize (foldl snap (normalize start0 end0) (others excludeIndex rw)).

(** ** Gesture handlers (lines 172-192 and 260-340) *)

Definition withDrag (st : State) (d : DragState) : State :=
  {| events := events st; isSelecting := isSelecting st;
     selectRow := selectRow st; selectStart := selectStart st;
     selectCurrent := selectCurrent st; drag := d |}.

Definition withEvents (st : State) (evs : list (list EventBlock)) : State :=
  {| events := evs; isSelecting := isSelecting st;
     selectRow := selectRow st; selectStart := selectStart st;
     selectCurrent := selectCurrent st; drag := drag st |}.

(** The mode chosen at lines 265-274 for a pointer-down at [slotIdx] on
    the interval [evt]. *)
Definition classify (evt : EventBlock) (slotIdx : Z) : DragMode :=
  if start evt =? end_ evt then ModeMove
  else if slotIdx =? start evt then ModeResizeLeft
  else if slotIdx =? end_ evt then ModeResizeRight
  else ModeMove.

Definition onMouseDownCell (st : State) (rowIdx : nat) (slotIdx : Z)
  : option State :=
  rw ← events st !! rowIdx;
  match findEventAt rw slotIdx with
  | Some evtIndex =>
      evt ← rw !! evtIndex;
      Some (withDrag st
              {| mode := classify evt slotIdx;
                 row := Some rowIdx;
                 eventIndex := Some evtIndex;
                 anchorSlot := Some slotIdx;
                 initialStart := Some (start evt);
                 initialEnd := Some (end_ evt) |})
  | None =>
      (* start create selection *)
      Some {| events := events st; isSelecting := true;
              selectRow := Some rowIdx; selectStart := Some slotIdx;
              selectCurrent := Some slotIdx; drag := drag st |}
  end.

(** [applyTempUpdate(rowIdx, eventIdx, start, end)] on the array of rows,
    for an index that points into the row.  For [eventIdx] past the end
    of the row the code grows the array by an object without a title, and
    by holes before it; no list of [EventBlock] represents that, and the
    result here is [None]: this is not a failure of the code, and what is
    proved below with this function is proved for indices that point into
    the row.  [Arrays.applyTempUpdate] further down is the function on
    the arrays as JavaScript has them, for every index. *)
Definition applyTempUpdate (evs : list (list EventBlock))
    (rowIdx eventIdx : nat) (s e : Z) : option (list (list EventBlock)) :=
  evts ← evs !! rowIdx;
  original ← evts !! eventIdx;
  Some (<[rowIdx :=
           <[eventIdx := {| start := s; end_ := e; title := title original |}]>
             evts]> evs).

(** The candidate range of the move branch (lines 303-315).  The sums and
    differences are those of [Z]; they are the code's as long as they
    stay below 2^53 in absolute value (see [smallOperand]). *)
Definition moveCandidate (initialStart0 initialEnd0 anchorSlot0 slotIdx : Z)
  : Z * Z :=
  let len := initialEnd0 - initialStart0 in
  let newStart := initialStart0 + (slotIdx - anchorSlot0) in
  let newEnd := newStart + len in
  (* clamp to bounds first *)
  let '(newStart, newEnd) :=
    if newStart <? 0 then (0, newEnd - newStart) else (newStart, newEnd) in
  if newEnd >? TOTAL_SLOTS - 1 then
    let over := newEnd - (TOTAL_SLOTS - 1) in
    (newStart - over, TOTAL_SLOTS - 1)
  else (newStart, newEnd).

Definition onMouseEnterCell (st : State) (rowIdx : nat) (slotIdx : Z)
  : option State :=
  (* create selection mode *)
  if isSelecting st && bool_decide (Some rowIdx = selectRow st) then
    Some {| events := events st; isSelecting := isSelecting st;
            selectRow := selectRow st; selectStart := selectStart st;
            selectCurrent := Some slotIdx; drag := drag st |}
  else
    (* dragging existing event *)
    let d := drag st in
    if bool_decide (mode d ≠ ModeNone)
       && bool_decide (row d = Some rowIdx) then
      match eventIndex d, initialStart d, initialEnd d, anchorSlot d with
      | Some eventIdx, Some iStart, Some iEnd, Some anchor =>
          match mode d with
          | ModeMove =>
              let '(newStart, newEnd) :=
                moveCandidate iStart iEnd anchor slotIdx in
              (* prevent overlaps *)
              rw ← events st !! rowIdx;
              let '(s, e) :=
                allowedRangeFor rw (Some eventIdx) newStart newEnd in
              withEvents st <$> applyTempUpdate (events st) rowIdx eventIdx s e
          | ModeResizeLeft =>
              let newStart := Z.min slotIdx iEnd in
              rw ← events st !! rowIdx;
              let '(s, e) := allowedRangeFor rw (Some eventIdx) newStart iEnd in
              withEvents st <$> applyTempUpdate (events st) rowIdx eventIdx s e
          | ModeResizeRight =>
              let newEnd := Z.max slotIdx iStart in
              rw ← events st !! rowIdx;
              let '(s, e) := allowedRangeFor rw (Some eventIdx) iStart newEnd in
              withEvents st <$> applyTempUpdate (events st) rowIdx eventIdx s e
          | _ => Some st
          end
      | _, _, _, _ => Some st
      end
    else Some st.

(** The create flow of [handleMouseUp] (lines 174-185): the array of rows
    after the commit.  [answer] is what [window.prompt] returns ([None]
    when the dialog is cancelled). *)
Definition commitCreate (st : State) (answer : option JSString)
  : option (list (list EventBlock)) :=
  match isSelecting st, selectRow st, selectStart st, selectCurrent st with
  | true, Some r, Some selStart, Some selCurrent =>
      let s := Z.min selStart selCurrent in
      let e := Z.max selStart selCurrent in
      match answer with
      | Some t =>
          if truthy t && truthy (trim t) then
            rw ← events st !! r;
            Some (<[r := rw ++ [{| start := s; end_ := e;
                                   title := trim t |}]]> (events st))
          else Some (events st)
      | None => Some (events st)
      end
  | _, _, _, _ => Some (events st)
  end.

Definition handleMouseUp (st : State) (answer : option JSString)
  : option State :=
  evs ← commitCreate st answer;
  (* clear both select and drag states *)
  Some {| events := evs; isSelecting := false; selectRow := None;
          selectStart := None; selectCurrent := None; drag := noDrag |}.

(** ** Direct operations (lines 394-493) *)

Definition clearRow (st : State) (rowIdx : nat) (confirm : bool) : State :=
  if confirm
  then withEvents st (imap (λ i rw, if bool_decide (i = rowIdx) then [] else rw)
                           (events st))
  else st.

Definition removeEvent (st : State) (rowIdx eventIdx : nat) : State :=
  withEvents st
    (imap (λ i rw, if bool_decide (i ≠ rowIdx) then rw else delete eventIdx rw)
          (events st)).

Definition handleClearAll (st : State) (confirm : bool) : State :=
  if confirm then withEvents st (replicate ROWS []) else st.

Definition handleManualLoad (st : State) (stored : option ScheduleV1)
  : State :=
  match loadFromStorage stored with
  | Some sched =>
      if validateRows (rows sched) then withEvents st (rows sched) else st
  | None => st
  end.

(** [reader.onload] of [handleImportFile]; [parsed] is the result of
    [JSON.parse] on the file ([None] when it throws or yields a falsy
    value). *)
Definition handleImportFile (st : State) (parsed : option ScheduleV1)
    (confirm : bool) : State :=
  match parsed with
  | None => st
  | Some p =>
      if negb (version p =? 1) || negb (validateRows (rows p)) then st
      else if confirm then withEvents st (rows p) else st
  end.

(** ** The machine *)

Inductive Event : Type :=
  | MouseDown (rowIdx : nat) (slotIdx : Z)
  | MouseEnter (rowIdx : nat) (slotIdx : Z)
  | MouseUp (answer : option JSString)
  | Remove (rowIdx eventIdx : nat)
  | ClearRow (rowIdx : nat) (confirm : bool)
  | ClearAll (confirm : bool)
  | ManualLoad (stored : option ScheduleV1)
  | ImportFile (parsed : option ScheduleV1) (confirm : bool).

Definition step (st : State) (ev : Event) : option State :=
  match ev with
  | MouseDown r s => onMouseDownCell st r s
  | MouseEnter r s => onMouseEnterCell st r s
  | MouseUp answer => handleMouseUp st answer
  | Remove r i => Some (removeEvent st r i)
  | ClearRow r c => Some (clearRow st r c)
  | ClearAll c => Some (handleClearAll st c)
  | ManualLoad stored => Some (handleManualLoad st stored)
  | ImportFile parsed c => Some (handleImportFile st parsed c)
  end.

Fixpoint run (st : State) (evs : list Event) : option State :=
  match evs with
  | [] => Some st
  | ev :: evs' => st' ← step st ev; run st' evs'
  end.

(** ** Predicates of the specification *)

(** The bounds invariant of an event interval. *)
Definition inBounds (ev : EventBlock) : Prop :=
  0 ≤ start ev ∧ start ev ≤ end_ ev ∧ end_ ev < TOTAL_SLOTS.

Definition allInBounds (evs : list (list EventBlock)) : Prop :=
  ∀ rw ev, rw ∈ evs → ev ∈ rw → inBounds ev.

(** Two intervals overlap when [A.start ≤ B.end] and [B.start ≤ A.end]. *)
Definition overlap (a b : EventBlock) : Prop :=
  start a ≤ end_ b ∧ start b ≤ end_ a.

(** The row invariant: no two intervals at distinct positions overlap. *)
Definition rowNoOverlap (rw : list EventBlock) : Prop :=
  ∀ i j a b, i ≠ j → rw !! i = Some a → rw !! j = Some b → ¬ overlap a b.

Definition allNoOverlap (evs : list (list EventBlock)) : Prop :=
  ∀ rw, rw ∈ evs → rowNoOverlap rw.

(** Relations between two intervals of a row: [disjoint] is the absence
    of overlap, [startLe] the order the validator sorts by, [before] what
    its loop accepts of two consecutive intervals. *)
Definition disjoint (a b : EventBlock) : Prop := ¬ overlap a b.
Definition startLe (a b : EventBlock) : Prop := start a ≤ start b.
Definition before (a b : EventBlock) : Prop := end_ a < start b.

(** The row invariants of the data model, in the words of the
    specification. *)
Definition RowInvariants (rws : list (list EventBlock)) : Prop :=
  length rws = ROWS
  ∧ (∀ rw ev, rw ∈ rws → ev ∈ rw → inBounds ev ∧ trim (title ev) ≠ [])
  ∧ allNoOverlap rws.

(** A slot index delivered by the grid: one of the [TOTAL_SLOTS] cells. *)
Definition slotOk (s : Z) : Prop := 0 ≤ s ∧ s < TOTAL_SLOTS.

(** Pointer events come from the cells of the grid, which has [ROWS] rows
    of [TOTAL_SLOTS] cells. *)
Definition validEvent (ev : Event) : Prop :=
  match ev with
  | MouseDown r s | MouseEnter r s => (r < ROWS)%nat ∧ slotOk s
  | _ => True
  end.

Definition gestureEvent (ev : Event) : Prop :=
  match ev with
  | MouseDown _ _ | MouseEnter _ _ | MouseUp _ => True
  | _ => False
  end.

(** What the handlers rely on to keep intervals in bounds: the committed
    intervals are in bounds and so are the slots of a pending selection. *)
Definition Safe (st : State) : Prop :=
  allInBounds (events st)
  ∧ (∀ s, selectStart st = Some s → slotOk s)
  ∧ (∀ s, selectCurrent st = Some s → slotOk s).

(** What the handlers rely on not to fail: the grid has [ROWS] rows and
    the indices held by the gesture state point into it. *)
Definition Live (st : State) : Prop :=
  length (events st) = ROWS
  ∧ (∀ r, selectRow st = Some r → (r < ROWS)%nat)
  ∧ (∀ r i rw, row (drag st) = Some r → eventIndex (drag st) = Some i →
       events st !! r = Some rw → (i < length rw)%nat).

(** The state with no gesture in progress. *)
Definition idleState (evs : list (list EventBlock)) : State :=
  {| events := evs; isSelecting := false; selectRow := None;
     selectStart := None; selectCurrent := None; drag := noDrag |}.

(** A payload is rejected when loading yields nothing and neither load
    path changes the state. *)
Definition rejected (p : ScheduleV1) : Prop :=
  loadFromStorage (Some p) = None
  ∧ ∀ st, handleManualLoad st (Some p) = st
          ∧ ∀ confirm, handleImportFile st (Some p) confirm = st.

(** Applying the resolver to its own result. *)
Definition resolveAgain (rw : list EventBlock) (excludeIndex : option nat)
    (se : Z * Z) : Z * Z :=
  allowedRangeFor rw excludeIndex se.1 se.2.

(** Replacing the title of every interval. *)
Definition retitle (f : EventBlock → JSString) (ev : EventBlock) : EventBlock :=
  {| start := start ev; end_ := end_ ev; title := f ev |}.

Definition retitleRows (f : EventBlock → JSString)
    (rws : list (list EventBlock)) : list (list EventBlock) :=
  (λ rw : list EventBlock, retitle f <$> rw) <$> rws.

(** ** Gesture traces used below

    Two gestures on the first row that end with overlapping intervals:
    a creation drag across an existing interval, and a move of one
    interval towards another, the pointer passing over every cell. *)

Definition createOverTrace : list Event :=
  [MouseDown 0 10; MouseUp (Some (str "A")); MouseDown 0 5] ++
  ((λ s, MouseEnter 0 s) <$> [6; 7; 8; 9; 10; 11; 12; 13; 14; 15]) ++
  [MouseUp (Some (str "B"))].

Definition moveOntoTrace : list Event :=
  [MouseDown 0 0] ++
  ((λ s, MouseEnter 0 s) <$> [1; 2; 3; 4; 5; 6; 7; 8; 9; 10]) ++
  [MouseUp (Some (str "A"));
   MouseDown 0 20; MouseEnter 0 21; MouseEnter 0 22; MouseUp (Some (str "B"));
   MouseDown 0 21] ++
  ((λ s, MouseEnter 0 s) <$> [20; 19; 18; 17; 16; 15; 14; 13; 12; 11; 10; 9]) ++
  [MouseUp None].

(** A creation drag from slot 0 to slot 10 across the interval [{5, 5}]. *)
Definition createAroundTrace : list Event :=
  [MouseDown 0 5; MouseUp (Some (str "A")); MouseDown 0 0] ++
  ((λ s, MouseEnter 0 s) <$> [1; 2; 3; 4; 5; 6; 7; 8; 9; 10]) ++
  [MouseUp (Some (str "B"))].

(** ** The unused overlap checks (lines 45-76) *)

(** The loop of [rowsHaveNoOverlap] over one sorted row (lines 48-52). *)
Fixpoint noOverlapLoop (sorted : list EventBlock) : bool :=
  match sorted with
  | prev :: ((cur :: _) as tl) =>
      if end_ prev >=? start cur then false else noOverlapLoop tl
  | _ => true
  end.

Definition rowsHaveNoOverlap (rws : list (list EventBlock)) : bool :=
  forallb (λ rw, noOverlapLoop (sortByStart rw)) rws.

(** The loop of [rowsHaveNoStrictOverlap] over one sorted row (lines
    60-73), with its nested repetitions of the same test.  [cur.start - 1]
    is the difference of [Z], which is the code's for a safe [cur.start]
    (see [safeInteger]). *)
Fixpoint noStrictOverlapLoop (sorted : list EventBlock) : bool :=
  match sorted with
  | prev :: ((cur :: _) as tl) =>
      if end_ prev >=? start cur then
        (* allow back-to-back: prev.end === cur.start - 1 *)
        if end_ prev >=? start cur then
          if end_ prev >=? start cur then
            if end_ prev >=? start cur then
              if (end_ prev >=? start cur)
                 && negb (end_ prev =? start cur - 1)
              then false
              else noStrictOverlapLoop tl
            else noStrictOverlapLoop tl
          else noStrictOverlapLoop tl
        else noStrictOverlapLoop tl
      else noStrictOverlapLoop tl
  | _ => true
  end.

Definition rowsHaveNoStrictOverlap (rws : list (list EventBlock)) : bool :=
  forallb (λ rw, noStrictOverlapLoop (sortByStart rw)) rws.

(** ** Time labels (lines 130-147 and 409-418)

    The numbers involved are integers; [60 / SLOTS_PER_HOUR] is exactly
    15, [Math.floor(x / 60)] is the floor division of [Z] and [%] is the
    remainder with the sign of the dividend, [Z.rem].  [toString] is the
    decimal notation of an integer. *)

Fixpoint digits (d : Decimal.uint) : string :=
  match d with
  | Decimal.Nil => ""
  | Decimal.D0 d' => String "0"%char (digits d')
  | Decimal.D1 d' => String "1"%char (digits d')
  | Decimal.D2 d' => String "2"%char (digits d')
  | Decimal.D3 d' => String "3"%char (digits d')
  | Decimal.D4 d' => String "4"%char (digits d')
  | Decimal.D5 d' => String "5"%char (digits d')
  | Decimal.D6 d' => String "6"%char (digits d')
  | Decimal.D7 d' => String "7"%char (digits d')
  | Decimal.D8 d' => String "8"%char (digits d')
  | Decimal.D9 d' => String "9"%char (digits d')
  end.

Definition toString (z : Z) : string :=
  match Z.to_int z with
  | Decimal.Pos d => digits d
  | Decimal.Neg d => String "-"%char (digits d)
  end.

(** [s.padStart(n, c)] for a one-character pad string. *)
Definition padStart (n : nat) (c : Ascii.ascii) (s : string) : string :=
  String.string_of_list_ascii (replicate (n - String.length s) c) +:+ s.

Definition formatTimeLabel (hour : Z) : string :=
  let h12 := Z.rem (hour + 11) 12 + 1 in
  let suffix := if hour <? 12 then "AM" else "PM" in
  toString h12 +:+ " " +:+ suffix.

Definition shortTimeLabel (slotIdx : Z) : string :=
  let minutesPerSlot := 60 / SLOTS_PER_HOUR in
  let totalMinutes := START_HOUR * 60 + slotIdx * minutesPerSlot in
  let hour := totalMinutes / 60 in
  let minute := Z.rem totalMinutes 60 in
  let h12 := Z.rem (hour + 11) 12 + 1 in
  let mm := padStart 2 "0"%char (toString minute) in
  let isHourStart := Z.rem slotIdx SLOTS_PER_HOUR =? 0 in
  let suffix := if hour <? 12 then "AM" else "PM" in
  if isHourStart then toString h12 +:+ ":00 " +:+ suffix
  else toString h12 +:+ ":" +:+ mm.

Definition timeForSlot (slotIdx : Z) : string :=
  let minutesPerSlot := 60 / SLOTS_PER_HOUR in
  let totalMinutes := START_HOUR * 60 + slotIdx * minutesPerSlot in
  let hour := totalMinutes / 60 in
  let minute := Z.rem totalMinutes 60 in
  let h12 := Z.rem (hour + 11) 12 + 1 in
  let suffix := if hour <? 12 then "AM" else "PM" in
  let mm := padStart 2 "0"%char (toString minute) in
  toString h12 +:+ ":" +:+ mm +:+ " " +:+ suffix.

(** ** Cell rendering (lines 342-392) *)

(** [getCellClass(rowIdx, slotIdx)]: the value of the cell's [class]
    attribute.  [None] stands for the [TypeError] of [events[rowIdx].find]
    on a missing row. *)
Definition getCellClass (st : State) (rowIdx : nat) (slotIdx : Z)
  : option string :=
  let cls := "slot" in
  (* hour boundary marker class for stronger grid line *)
  let cls :=
    if Z.rem slotIdx SLOTS_PER_HOUR =? 0 then cls +:+ " hour-boundary"
    else cls in
  (* selection highlight for create *)
  let cls :=
    match selectStart st, selectCurrent st with
    | Some selStart, Some selCurrent =>
        if isSelecting st && bool_decide (selectRow st = Some rowIdx) then
          let s := Z.min selStart selCurrent in
          let e := Z.max selStart selCurrent in
          if (slotIdx >=? s) && (slotIdx <=? e) then cls +:+ " selecting"
          else cls
        else cls
    | _, _ => cls
    end in
  (* event occupancy *)
  rw ← events st !! rowIdx;
  match List.find (λ ev, (slotIdx >=? start ev) && (slotIdx <=? end_ ev)) rw
  with
  | Some evt =>
      let cls :=
        if (slotIdx =? start evt) && (slotIdx =? end_ evt)
        then cls +:+ " event single"
        else if slotIdx =? start evt then cls +:+ " event start"
        else if slotIdx =? end_ evt then cls +:+ " event end"
        else cls +:+ " event middle" in
      (* add title to the start cell *)
      let cls :=
        if slotIdx =? start evt then cls +:+ " has-title" else cls in
      (* cursor hints *)
      let cls :=
        if (slotIdx =? start evt) && negb (start evt =? end_ evt)
        then cls +:+ " handle-left"
        else if (slotIdx =? end_ evt) && negb (start evt =? end_ evt)
        then cls +:+ " handle-right"
        else if (slotIdx >? start evt) && (slotIdx <? end_ evt)
        then cls +:+ " draggable"
        else cls in
      Some cls
  | None => Some cls
  end.

(** The class names of a [class] attribute: its maximal runs of
    characters other than the space. *)
Fixpoint classesFrom (cur : string) (s : string) : list string :=
  match s with
  | EmptyString => if String.eqb cur "" then [] else [cur]
  | String c s' =>
      if Ascii.eqb c " "%char then
        if String.eqb cur "" then classesFrom "" s'
        else cur :: classesFrom "" s'
      else classesFrom (cur +:+ String c "") s'
  end.

Definition classes (s : string) : list string := classesFrom "" s.

(** [cellTitle(rowIdx, slotIdx)], given the row [events[rowIdx]]; [None]
    is [undefined]. *)
Definition cellTitle (rw : list EventBlock) (slotIdx : Z) : option JSString :=
  match List.find (λ ev, (slotIdx >=? start ev) && (slotIdx <=? end_ ev)) rw
  with
  | Some evt => if slotIdx =? start evt then Some (title evt) else None
  | None => None
  end.

(** ** Predicates for the further properties *)

(** The intervals of [rw] other than the one at index [i] are well formed
    and none of them meets the range from [a] to [b]. *)
Definition othersClearOf (rw : list EventBlock) (i : nat) (a b : Z) : Prop :=
  ∀ j o, j ≠ i → rw !! j = Some o →
    start o ≤ end_ o ∧ ¬ (a ≤ end_ o ∧ start o ≤ b).

(** The slot [slot] lies in the interval [ev]. *)
(** The integers on which the arithmetic of the code is exact.  A
    JavaScript number is a binary64 float: it holds every integer up to
    2^53 in absolute value, and a sum or difference of two of them is
    exact when it lies in that range, as it is in [Z]; beyond it the
    result is rounded.  [MAX_SAFE_INTEGER] is [Number.MAX_SAFE_INTEGER],
    2^53 - 1.  [rowsHaveNoStrictOverlap] computes [cur.start - 1] and
    [moveCandidate] sums and differences of its operands: what is proved
    of them below is proved for safe endpoints and for operands up to
    2^50, whose sums and differences in [moveCandidate] all stay below
    2^53. *)
Definition MAX_SAFE_INTEGER : Z := 9007199254740991.

Definition safeInteger (z : Z) : Prop :=
  - MAX_SAFE_INTEGER ≤ z ∧ z ≤ MAX_SAFE_INTEGER.

Definition safeRows (rws : list (list EventBlock)) : Prop :=
  Forall (Forall (λ ev, safeInteger (start ev) ∧ safeInteger (end_ ev))) rws.

Definition smallOperand (z : Z) : Prop :=
  - 1125899906842624 ≤ z ∧ z ≤ 1125899906842624.

(** The index held by the drag state points into row [r]: what holds
    from the pointer-down on an interval until the row loses elements. *)
Definition dragIndexInRow (st : State) (r : nat) : Prop :=
  ∀ i rw, eventIndex (drag st) = Some i → events st !! r = Some rw →
          (i < length rw)%nat.

Definition covers (ev : EventBlock) (slot : Z) : Prop :=
  start ev ≤ slot ∧ slot ≤ end_ ev.

(** ** The rows as JavaScript arrays (lines 172-192, 226-340, 394-493)

    [applyTempUpdate] assigns to [evts[eventIdx]] whatever [eventIdx] is.
    When the dragged interval has left its row in the middle of a drag
    (a deletion, a clear or a load between two pointer moves), the index
    lies past the end of the row: the assignment then grows the array,
    leaving holes in front of the new element, and the element written is
    [{...undefined, start, end}], an object without a title.  The rows of
    this second model are arrays as JavaScript has them: an element is
    absent (a hole) or an object whose title may be missing.  The handlers
    are the ones above, read again over these rows; on rows without holes
    and with every title present they coincide with them ([embed] and the
    simulation lemmas below).

    [None] is a [TypeError]: a row index outside the array of rows, or
    the callback of [findIndex] reading [ev.start] at a hole.  A render
    calls [findEventAt] for every cell and throws at a hole too, unless
    the elements in front of the hole cover the whole grid; the model
    does not stop there and goes on from a state with holes until a
    handler itself throws, so that it reaches every state the
    application reaches. *)

Module Arrays.

Record Item : Type := mkItem {
  start : Z;
  end_ : Z;
  title : option JSString    (* [None]: the object has no [title] *)
}.

Record State : Type := mkArrState {
  events : list (list (option Item));     (* [None]: a hole *)
  isSelecting : bool;
  selectRow : option nat;
  selectStart : option Z;
  selectCurrent : option Z;
  drag : DragState
}.

Definition ofBlock (ev : EventBlock) : Item :=
  match ev with
  | mkEventBlock s e t => {| start := s; end_ := e; title := Some t |}
  end.

Definition ofRow (rw : list EventBlock) : list (option Item) :=
  (λ ev, Some (ofBlock ev)) <$> rw.

Definition ofRows (rws : list (list EventBlock)) : list (list (option Item)) :=
  ofRow <$> rws.

Definition initialState : State :=
  {| events := replicate ROWS []; isSelecting := false; selectRow := None;
     selectStart := None; selectCurrent := None; drag := noDrag |}.

(** [Array.prototype.findIndex] visits a hole as [undefined], and the
    callback of [findEventAt] reads [ev.start]: the outer [None].  The
    inner [None] is -1. *)
Fixpoint findIndex (p : Item → bool) (l : list (option Item))
  : option (option nat) :=
  match l with
  | [] => Some None
  | None :: _ => None
  | Some x :: l' =>
      if p x then Some (Some 0%nat)
      else found ← findIndex p l'; Some (fmap (M := option) S found)
  end.

Definition findEventAt (rw : list (option Item)) (slotIdx : Z)
  : option (option nat) :=
  findIndex (λ ev, (slotIdx >=? start ev) && (slotIdx <=? end_ ev)) rw.

(** [rw.filter((_, i) => i !== excludeIndex)]: [filter] skips the holes. *)
Fixpoint othersFrom (i : nat) (excludeIndex : option nat)
    (rw : list (option Item)) : list Item :=
  match rw with
  | [] => []
  | None :: rw' => othersFrom (S i) excludeIndex rw'
  | Some o :: rw' =>
      if bool_decide (Some i ≠ excludeIndex)
      then o :: othersFrom (S i) excludeIndex rw'
      else othersFrom (S i) excludeIndex rw'
  end.

Definition others (excludeIndex : option nat) (rw : list (option Item))
  : list Item :=
  othersFrom 0 excludeIndex rw.

Definition snap (se : Z * Z) (o : Item) : Z * Z :=
  let '(s, e) := se in
  if rangeOverlaps s e (start o) (end_ o) then
    if (e >=? start o) && (s <=? start o) then (s, start o - 1)
    else if (s <=? end_ o) && (e >=? end_ o) then (end_ o + 1, e)
    else (s, e)
  else (s, e).

Definition allowedRangeFor (rw : list (option Item))
    (excludeIndex : option nat) (start0 end0 : Z) : Z * Z :=
  finalize (foldl snap (normalize start0 end0) (others excludeIndex rw)).

Definition withDrag (st : State) (d : DragState) : State :=
  {| events := events st; isSelecting := isSelecting st;
     selectRow := selectRow st; selectStart := selectStart st;
     selectCurrent := selectCurrent st; drag := d |}.

Definition withEvents (st : State) (evs : list (list (option Item))) : State :=
  {| events := evs; isSelecting := isSelecting st;
     selectRow := selectRow st; selectStart := selectStart st;
     selectCurrent := selectCurrent st; drag := drag st |}.

Definition classify (evt : Item) (slotIdx : Z) : DragMode :=
  if start evt =? end_ evt then ModeMove
  else if slotIdx =? start evt then ModeResizeLeft
  else if slotIdx =? end_ evt then ModeResizeRight
  else ModeMove.

Definition onMouseDownCell (st : State) (rowIdx : nat) (slotIdx : Z)
  : option State :=
  rw ← events st !! rowIdx;
  found ← findEventAt rw slotIdx;
  match found with
  | Some evtIndex =>
      evt ← rw !! evtIndex ≫= id;
      Some (withDrag st
              {| mode := classify evt slotIdx;
                 row := Some rowIdx;
                 eventIndex := Some evtIndex;
                 anchorSlot := Some slotIdx;
                 initialStart := Some (start evt);
                 initialEnd := Some (end_ evt) |})
  | None =>
      Some {| events := events st; isSelecting := true;
              selectRow := Some rowIdx; selectStart := Some slotIdx;
              selectCurrent := Some slotIdx; drag := drag st |}
  end.

(** [evts[eventIdx] = x]: an index past the end grows the array by the
    holes in front of it and by [x]. *)
Definition assign (eventIdx : nat) (x : Item) (evts : list (option Item))
  : list (option Item) :=
  if bool_decide (eventIdx < length evts)%nat then <[eventIdx := Some x]> evts
  else evts ++ replicate (eventIdx - length evts) None ++ [Some x].

(** [applyTempUpdate(rowIdx, eventIdx, start, end)]: [original] is
    [undefined] at a hole and past the end of the row, and the spread
    then copies no title. *)
Definition applyTempUpdate (evs : list (list (option Item)))
    (rowIdx eventIdx : nat) (s e : Z) : option (list (list (option Item))) :=
  evts ← evs !! rowIdx;
  let original := evts !! eventIdx ≫= id in
  Some (<[rowIdx :=
           assign eventIdx
             {| start := s; end_ := e; title := original ≫= title |} evts]>
          evs).

Definition onMouseEnterCell (st : State) (rowIdx : nat) (slotIdx : Z)
  : option State :=
  if isSelecting st && bool_decide (Some rowIdx = selectRow st) then
    Some {| events := events st; isSelecting := isSelecting st;
            selectRow := selectRow st; selectStart := selectStart st;
            selectCurrent := Some slotIdx; drag := drag st |}
  else
    let d := drag st in
    if bool_decide (mode d ≠ ModeNone)
       && bool_decide (row d = Some rowIdx) then
      match eventIndex d, initialStart d, initialEnd d, anchorSlot d with
      | Some eventIdx, Some iStart, Some iEnd, Some anchor =>
          match mode d with
          | ModeMove =>
              let '(newStart, newEnd) :=
                moveCandidate iStart iEnd anchor slotIdx in
              rw ← events st !! rowIdx;
              let '(s, e) :=
                allowedRangeFor rw (Some eventIdx) newStart newEnd in
              withEvents st <$> applyTempUpdate (events st) rowIdx eventIdx s e
          | ModeResizeLeft =>
              let newStart := Z.min slotIdx iEnd in
              rw ← events st !! rowIdx;
              let '(s, e) := allowedRangeFor rw (Some eventIdx) newStart iEnd in
              withEvents st <$> applyTempUpdate (events st) rowIdx eventIdx s e
          | ModeResizeRight =>
              let newEnd := Z.max slotIdx iStart in
              rw ← events st !! rowIdx;
              let '(s, e) := allowedRangeFor rw (Some eventIdx) iStart newEnd in
              withEvents st <$> applyTempUpdate (events st) rowIdx eventIdx s e
          | _ => Some st
          end
      | _, _, _, _ => Some st
      end
    else Some st.

Definition commitCreate (st : State) (answer : option JSString)
  : option (list (list (option Item))) :=
  match isSelecting st, selectRow st, selectStart st, selectCurrent st with
  | true, Some r, Some selStart, Some selCurrent =>
      let s := Z.min selStart selCurrent in
      let e := Z.max selStart selCurrent in
      match answer with
      | Some t =>
          if truthy t && truthy (trim t) then
            rw ← events st !! r;
            Some (<[r := rw ++ [Some {| start := s; end_ := e;
                                        title := Some (trim t) |}]]>
                    (events st))
          else Some (events st)
      | None => Some (events st)
      end
  | _, _, _, _ => Some (events st)
  end.

Definition handleMouseUp (st : State) (answer : option JSString)
  : option State :=
  evs ← commitCreate st answer;
  Some {| events := evs; isSelecting := false; selectRow := None;
          selectStart := None; selectCurrent := None; drag := noDrag |}.

Definition clearRow (st : State) (rowIdx : nat) (confirm : bool) : State :=
  if confirm
  then withEvents st (imap (λ i rw, if bool_decide (i = rowIdx) then [] else rw)
                           (events st))
  else st.

(** [copy.splice(eventIdx, 1)] removes the element or the hole at
    [eventIdx] and moves what follows down by one. *)
Definition removeEvent (st : State) (rowIdx eventIdx : nat) : State :=
  withEvents st
    (imap (λ i rw, if bool_decide (i ≠ rowIdx) then rw else delete eventIdx rw)
          (events st)).

Definition handleClearAll (st : State) (confirm : bool) : State :=
  if confirm then withEvents st (replicate ROWS []) else st.

Definition handleManualLoad (st : State) (stored : option ScheduleV1)
  : State :=
  match loadFromStorage stored with
  | Some sched =>
      if validateRows (rows sched) then withEvents st (ofRows (rows sched))
      else st
  | None => st
  end.

Definition handleImportFile (st : State) (parsed : option ScheduleV1)
    (confirm : bool) : State :=
  match parsed with
  | None => st
  | Some p =>
      if negb (version p =? 1) || negb (validateRows (rows p)) then st
      else if confirm then withEvents st (ofRows (rows p)) else st
  end.

Definition step (st : State) (ev : Event) : option State :=
  match ev with
  | MouseDown r s => onMouseDownCell st r s
  | MouseEnter r s => onMouseEnterCell st r s
  | MouseUp answer => handleMouseUp st answer
  | Remove r i => Some (removeEvent st r i)
  | ClearRow r c => Some (clearRow st r c)
  | ClearAll c => Some (handleClearAll st c)
  | ManualLoad stored => Some (handleManualLoad st stored)
  | ImportFile parsed c => Some (handleImportFile st parsed c)
  end.

Fixpoint run (st : State) (evs : list Event) : option State :=
  match evs with
  | [] => Some st
  | ev :: evs' => st' ← step st ev; run st' evs'
  end.

End Arrays.

(** A state of the first model as a state over arrays. *)
Definition embed (st : State) : Arrays.State :=
  {| Arrays.events := Arrays.ofRows (events st);
     Arrays.isSelecting := isSelecting st;
     Arrays.selectRow := selectRow st;
     Arrays.selectStart := selectStart st;
     Arrays.selectCurrent := selectCurrent st;
     Arrays.drag := drag st |}.

(** The bounds invariant of an element of a row. *)
Definition itemInBounds (o : Arrays.Item) : Prop :=
  0 ≤ Arrays.start o ∧ Arrays.start o ≤ Arrays.end_ o
  ∧ Arrays.end_ o < TOTAL_SLOTS.

Definition itemsInBounds (evs : list (list (option Arrays.Item))) : Prop :=
  ∀ rw o, rw ∈ evs → Some o ∈ rw → itemInBounds o.

Definition noHoles (evs : list (list (option Arrays.Item))) : Prop :=
  ∀ rw, rw ∈ evs → None ∉ rw.

(** The counterparts of [Safe] and of the first two parts of [Live]. *)
Definition SafeArr (st : Arrays.State) : Prop :=
  itemsInBounds (Arrays.events st)
  ∧ (∀ s, Arrays.selectStart st = Some s → slotOk s)
  ∧ (∀ s, Arrays.selectCurrent st = Some s → slotOk s).

Definition GridArr (st : Arrays.State) : Prop :=
  length (Arrays.events st) = ROWS
  ∧ (∀ r, Arrays.selectRow st = Some r → (r < ROWS)%nat).

(** A deletion in the middle of a drag: the interval created at slot 4
    is grabbed, all rows are cleared, and the pointer moves on. *)
Definition staleDragTrace : list Event :=
  [MouseDown 0 4; MouseUp (Some (str "A")); MouseDown 0 4; ClearAll true;
   MouseEnter 0 7].

(** * Properties *)

(** ** Bounds arithmetic *)

Lemma TOTAL_SLOTS_eq : TOTAL_SLOTS = 44.
Proof. reflexivity. Qed.

Lemma clamp_bounds v :
  0 ≤ clamp v 0 (TOTAL_SLOTS - 1) ∧ clamp v 0 (TOTAL_SLOTS - 1) < TOTAL_SLOTS.
Proof. unfold clamp. rewrite TOTAL_SLOTS_eq. lia. Qed.

Lemma clamp_id v : slotOk v → clamp v 0 (TOTAL_SLOTS - 1) = v.
Proof. unfold slotOk, clamp. rewrite TOTAL_SLOTS_eq. lia. Qed.

Lemma normalize_bounds s0 e0 s e :
  normalize s0 e0 = (s, e) → slotOk s ∧ slotOk e ∧ s ≤ e.
Proof.
  unfold normalize, slotOk.
  pose proof (clamp_bounds s0). pose proof (clamp_bounds e0).
  destruct (Z.gtb_spec (clamp s0 0 (TOTAL_SLOTS - 1))
              (clamp e0 0 (TOTAL_SLOTS - 1)));
    intros [= <- <-]; lia.
Qed.

Lemma normalize_id s e : slotOk s → slotOk e → s ≤ e → normalize s e = (s, e).
Proof.
  intros Hs He Hse. unfold normalize. rewrite !clamp_id by done.
  destruct (Z.gtb_spec s e); [lia | done].
Qed.

Lemma finalize_bounds se s e :
  finalize se = (s, e) → slotOk s ∧ slotOk e ∧ s ≤ e.
Proof.
  unfold finalize, slotOk. destruct se as [s1 e1].
  pose proof (clamp_bounds s1). pose proof (clamp_bounds e1).
  destruct (Z.gtb_spec (clamp s1 0 (TOTAL_SLOTS - 1))
              (clamp e1 0 (TOTAL_SLOTS - 1)));
    intros [= <- <-]; lia.
Qed.

Lemma finalize_id s e : slotOk s → slotOk e → s ≤ e → finalize (s, e) = (s, e).
Proof.
  intros Hs He Hse. unfold finalize. rewrite !clamp_id by done.
  destruct (Z.gtb_spec s e); [lia | done].
Qed.

Lemma allowedRangeFor_bounds rw ex s0 e0 s e :
  allowedRangeFor rw ex s0 e0 = (s, e) → slotOk s ∧ slotOk e ∧ s ≤ e.
Proof. apply finalize_bounds. Qed.

(** ** Validation implies the bounds *)

Lemma isValidEventBlock_inBounds ev :
  isValidEventBlock ev = true ↔ inBounds ev.
Proof.
  unfold isValidEventBlock, inBounds.
  destruct (Z.ltb_spec (start ev) 0), (Z.ltb_spec (end_ ev) 0),
    (Z.gtb_spec (start ev) (end_ ev)),
    (Z.gtb_spec (end_ ev) (TOTAL_SLOTS - 1)); simpl;
    split; intros; try discriminate; try lia; done.
Qed.

Lemma forallb_elem_of {A} (p : A → bool) (l : list A) :
  forallb p l = true ↔ ∀ x, x ∈ l → p x = true.
Proof.
  rewrite forallb_forall. by setoid_rewrite list_elem_of_In.
Qed.

Lemma validateRows_true rws :
  validateRows rws = true ↔
    length rws = ROWS
    ∧ forallb (forallb isValidEventBlock) rws = true
    ∧ forallb consecutiveOk (sortByStart <$> rws) = true.
Proof.
  unfold validateRows.
  destruct (Nat.eqb_spec (length rws) ROWS); simpl; [| intuition congruence].
  destruct (forallb (forallb isValidEventBlock) rws); simpl;
    intuition congruence.
Qed.

Lemma validateRows_allInBounds rws :
  validateRows rws = true → allInBounds rws.
Proof.
  rewrite validateRows_true. intros (_ & Hv & _) rw ev Hrw Hev.
  apply isValidEventBlock_inBounds.
  rewrite forallb_elem_of in Hv. specialize (Hv _ Hrw).
  rewrite forallb_elem_of in Hv. by apply Hv.
Qed.

(** ** The handlers keep intervals in bounds *)

Lemma allInBounds_insert evs r rw :
  allInBounds evs → (∀ ev, ev ∈ rw → inBounds ev) →
  allInBounds (<[r := rw]> evs).
Proof.
  intros Hevs Hrw rw' ev [j Hj]%list_elem_of_lookup Hev.
  apply list_lookup_insert_Some in Hj as [(_ & <- & _) | [_ Hj]].
  - by apply Hrw.
  - eapply Hevs; [by eapply list_elem_of_lookup_2 | done].
Qed.

Lemma applyTempUpdate_inBounds evs r i s e evs' :
  allInBounds evs → slotOk s → slotOk e → s ≤ e →
  applyTempUpdate evs r i s e = Some evs' → allInBounds evs'.
Proof.
  intros Hevs Hs He Hse. unfold applyTempUpdate.
  destruct (evs !! r) as [evts|] eqn:Hr; simpl; [| done].
  destruct (evts !! i) as [original|] eqn:Hi; simpl; [| done].
  intros [= <-]. apply allInBounds_insert; [done |].
  intros ev [j Hj]%list_elem_of_lookup.
  apply list_lookup_insert_Some in Hj as [(_ & <- & _) | [_ Hj]].
  - unfold inBounds, slotOk in *; simpl; lia.
  - eapply Hevs; by eapply list_elem_of_lookup_2.
Qed.

Lemma onMouseEnterCell_Safe st r slot st' :
  Safe st → slotOk slot → onMouseEnterCell st r slot = Some st' → Safe st'.
Proof.
  intros (Hb & Hs & Hc) Hslot. unfold onMouseEnterCell.
  destruct (isSelecting st && bool_decide (Some r = selectRow st)).
  { intros [= <-]. split_and!; simpl; [done | done |]. by intros s [= <-]. }
  destruct (_ && _); [| by intros [= <-]].
  destruct (eventIndex (drag st)) as [i|]; [| by intros [= <-]].
  destruct (initialStart (drag st)) as [iStart|]; [| by intros [= <-]].
  destruct (initialEnd (drag st)) as [iEnd|]; [| by intros [= <-]].
  destruct (anchorSlot (drag st)) as [anchor|]; [| by intros [= <-]].
  assert (∀ a b, match events st !! r with
                 | Some rw =>
                     let '(s, e) := allowedRangeFor rw (Some i) a b in
                     withEvents st <$> applyTempUpdate (events st) r i s e
                 | None => None
                 end = Some st' → Safe st') as Hupd.
  { intros a b. destruct (events st !! r) as [rw|]; [| done].
    destruct (allowedRangeFor rw (Some i) a b) as [s e] eqn:Hr.
    apply allowedRangeFor_bounds in Hr as (? & ? & ?).
    destruct (applyTempUpdate _ _ _ _ _) as [evs'|] eqn:Hu; [| done].
    intros [= <-]. split_and!; simpl; [| done | done].
    eapply applyTempUpdate_inBounds; [exact Hb | | | | exact Hu]; done. }
  destruct (mode (drag st)); try (by intros [= <-]).
  - destruct (moveCandidate iStart iEnd anchor slot) as [a b]. apply Hupd.
  - apply Hupd.
  - apply Hupd.
Qed.

Lemma onMouseDownCell_Safe st r slot st' :
  Safe st → slotOk slot → onMouseDownCell st r slot = Some st' → Safe st'.
Proof.
  intros (Hb & Hs & Hc) Hslot. unfold onMouseDownCell.
  destruct (events st !! r) as [rw|]; simpl; [| done].
  destruct (findEventAt rw slot) as [i|].
  - destruct (rw !! i); simpl; [| done]. intros [= <-]. by split_and!.
  - intros [= <-]. split_and!; simpl; [done | |]; by intros s [= <-].
Qed.

Lemma handleMouseUp_Safe st answer st' :
  Safe st → handleMouseUp st answer = Some st' → Safe st'.
Proof.
  intros (Hb & Hs & Hc). unfold handleMouseUp.
  destruct (commitCreate st answer) as [evs|] eqn:Hevs; simpl; [| done].
  intros [= <-]. split_and!; simpl; [| done | done].
  unfold commitCreate in Hevs.
  destruct (isSelecting st); [| by injection Hevs as <-].
  destruct (selectRow st) as [r|]; [| by injection Hevs as <-].
  destruct (selectStart st) as [ss|]; [| by injection Hevs as <-].
  destruct (selectCurrent st) as [sc|]; [| by injection Hevs as <-].
  destruct answer as [t|]; [| by injection Hevs as <-].
  destruct (truthy t && truthy (trim t)); [| by injection Hevs as <-].
  destruct (events st !! r) as [rw|] eqn:Hr; simpl in Hevs; [| done].
  injection Hevs as <-. apply allInBounds_insert; [done |].
  intros ev [Hev | ->%list_elem_of_singleton]%elem_of_app.
  - eapply Hb; [by eapply list_elem_of_lookup_2 | done].
  - specialize (Hs _ eq_refl). specialize (Hc _ eq_refl).
    unfold inBounds, slotOk in *; simpl; lia.
Qed.

Lemma allInBounds_imap (f : nat → list EventBlock → list EventBlock) evs :
  allInBounds evs → (∀ i rw ev, ev ∈ f i rw → ev ∈ rw) →
  allInBounds (imap f evs).
Proof.
  intros Hevs Hf rw ev [j Hj]%list_elem_of_lookup Hev.
  rewrite list_lookup_imap in Hj.
  destruct (evs !! j) as [rw0|] eqn:Hj0; simpl in Hj; [| done].
  injection Hj as <-. eapply Hevs; [by eapply list_elem_of_lookup_2 |].
  by eapply Hf.
Qed.

Lemma allInBounds_empty_rows n : allInBounds (replicate n []).
Proof. intros rw ev ->%elem_of_replicate_inv Hev. by apply elem_of_nil in Hev. Qed.

Lemma step_Safe st ev st' :
  Safe st → validEvent ev → step st ev = Some st' → Safe st'.
Proof.
  intros HS Hev.
  destruct ev as [r s | r s | answer | r i | r c | c | stored | parsed c];
    simpl in *.
  - destruct Hev. by apply onMouseDownCell_Safe.
  - destruct Hev. by apply onMouseEnterCell_Safe.
  - by apply handleMouseUp_Safe.
  - intros [= <-]. destruct HS as (Hb & Hs & Hc). split_and!; simpl; [| done | done].
    apply allInBounds_imap; [done |]. intros j rw ev.
    case_bool_decide; [done | apply list_elem_of_delete_inv].
  - intros [= <-]. unfold clearRow. destruct c; [| done].
    destruct HS as (Hb & Hs & Hc). split_and!; simpl; [| done | done].
    apply allInBounds_imap; [done |]. intros j rw ev.
    case_bool_decide; [by intros ?%elem_of_nil | done].
  - intros [= <-]. unfold handleClearAll. destruct c; [| done].
    destruct HS as (Hb & Hs & Hc).
    split_and!; [apply allInBounds_empty_rows | done | done].
  - intros [= <-]. unfold handleManualLoad.
    destruct (loadFromStorage stored) as [sched|]; [| done].
    destruct (validateRows (rows sched)) eqn:Hv; [| done].
    destruct HS as (Hb & Hs & Hc). split_and!; simpl; [| done | done].
    by apply validateRows_allInBounds.
  - intros [= <-]. unfold handleImportFile.
    destruct parsed as [p|]; [| done].
    destruct (version p =? 1); simpl; [| done].
    destruct (validateRows (rows p)) eqn:Hv; simpl; [| done].
    destruct c; [| done].
    destruct HS as (Hb & Hs & Hc). split_and!; simpl; [| done | done].
    by apply validateRows_allInBounds.
Qed.

Lemma run_Safe evs : ∀ st st',
  Safe st → Forall validEvent evs → run st evs = Some st' → Safe st'.
Proof.
  induction evs as [| ev evs IH]; intros st st' HS Hevs; simpl.
  - by intros [= <-].
  - apply Forall_cons in Hevs as [Hev Hevs].
    destruct (step st ev) as [st1|] eqn:Hstep; simpl; [| done].
    apply IH; [by eapply step_Safe | done].
Qed.

Lemma initialState_Safe : Safe initialState.
Proof. split_and!; [apply allInBounds_empty_rows | done | done]. Qed.

(** ** The gesture handlers do not fail *)

Lemma findIndex_Some {A} (p : A → bool) (l : list A) i :
  findIndex p l = Some i →
  ∃ x, l !! i = Some x ∧ p x = true
       ∧ ∀ j y, (j < i)%nat → l !! j = Some y → p y = false.
Proof.
  revert i. induction l as [| a l IH]; intros i; simpl; [done |].
  destruct (p a) eqn:Hpa.
  - intros [= <-]. exists a. split_and!; [done | done | lia].
  - destruct (findIndex p l) as [k|]; simpl; [| done].
    intros [= <-]. destruct (IH k eq_refl) as (x & Hx & Hpx & Hlt).
    exists x. split_and!; [done | done |].
    intros [| j] y Hj; simpl; [by intros [= <-] |].
    apply Hlt. lia.
Qed.

Lemma applyTempUpdate_Some evs r i s e rw :
  evs !! r = Some rw → (i < length rw)%nat →
  ∃ evs', applyTempUpdate evs r i s e = Some evs'
          ∧ length evs' = length evs
          ∧ ∀ rw', evs' !! r = Some rw' → length rw' = length rw.
Proof.
  intros Hr Hi. unfold applyTempUpdate. rewrite Hr. simpl.
  destruct (lookup_lt_is_Some_2 rw i Hi) as [original ->]. simpl.
  eexists. split_and!; [done | by rewrite length_insert |].
  intros rw'. rewrite list_lookup_insert_eq by by eapply lookup_lt_Some.
  intros [= <-]. by rewrite length_insert.
Qed.

Lemma onMouseDownCell_Live st r slot :
  Live st → (r < ROWS)%nat →
  ∃ st', onMouseDownCell st r slot = Some st' ∧ Live st'.
Proof.
  intros (Hlen & Hsel & Hdrag) Hr. unfold onMouseDownCell.
  destruct (lookup_lt_is_Some_2 (events st) r) as [rw Hrw]; [lia |].
  rewrite Hrw. simpl.
  destruct (findEventAt rw slot) as [i|] eqn:Hfind.
  - apply findIndex_Some in Hfind as (evt & Hevt & _). rewrite Hevt. simpl.
    eexists. split; [done |]. split_and!; simpl; [done | done |].
    intros r' i' rw' [= <-] [= <-]. rewrite Hrw. intros [= <-].
    by eapply lookup_lt_Some.
  - eexists. split; [done |]. split_and!; simpl; [done | | done].
    by intros r' [= <-].
Qed.

Lemma onMouseEnterCell_Live st r slot :
  Live st → (r < ROWS)%nat →
  ∃ st', onMouseEnterCell st r slot = Some st' ∧ Live st'.
Proof.
  intros HL Hr. pose proof HL as (Hlen & Hsel & Hdrag).
  unfold onMouseEnterCell.
  destruct (isSelecting st && bool_decide (Some r = selectRow st)).
  { eexists. split; [done |]. by split_and!. }
  destruct (bool_decide (mode (drag st) ≠ ModeNone)); simpl; [| by eexists].
  case_bool_decide as Hrow; [| by eexists].
  destruct (eventIndex (drag st)) as [i|] eqn:Hi; [| by eexists].
  destruct (initialStart (drag st)) as [iStart|]; [| by eexists].
  destruct (initialEnd (drag st)) as [iEnd|]; [| by eexists].
  destruct (anchorSlot (drag st)) as [anchor|]; [| by eexists].
  destruct (lookup_lt_is_Some_2 (events st) r) as [rw Hrw]; [lia |].
  assert (∀ a b, ∃ st',
    (let '(s, e) := allowedRangeFor rw (Some i) a b in
     withEvents st <$> applyTempUpdate (events st) r i s e) = Some st'
    ∧ Live st') as Hupd.
  { intros a b. destruct (allowedRangeFor rw (Some i) a b) as [s e].
    destruct (applyTempUpdate_Some (events st) r i s e rw)
      as (evs' & -> & Hlen' & Hrow'); [done | by eapply Hdrag |].
    eexists. split; [done |]. split_and!; simpl; [congruence | done |].
    intros r' i' rw'. rewrite Hrow, Hi. intros [= <-] [= <-] Hrw'.
    rewrite (Hrow' _ Hrw'). by eapply Hdrag. }
  rewrite Hrw. simpl.
  destruct (mode (drag st)); try (by eexists).
  - destruct (moveCandidate iStart iEnd anchor slot) as [a b]. apply Hupd.
  - apply Hupd.
  - apply Hupd.
Qed.

Lemma handleMouseUp_Live st answer :
  Live st → ∃ st', handleMouseUp st answer = Some st' ∧ Live st'.
Proof.
  intros (Hlen & Hsel & Hdrag). unfold handleMouseUp.
  assert (∃ evs, commitCreate st answer = Some evs ∧ length evs = ROWS)
    as (evs & -> & Hevs).
  { unfold commitCreate.
    destruct (isSelecting st); [| by eexists].
    destruct (selectRow st) as [r|]; [| by eexists].
    destruct (selectStart st) as [ss|]; [| by eexists].
    destruct (selectCurrent st) as [sc|]; [| by eexists].
    destruct answer as [t|]; [| by eexists].
    destruct (truthy t && truthy (trim t)); [| by eexists].
    destruct (lookup_lt_is_Some_2 (events st) r) as [rw ->].
    { rewrite Hlen. by apply Hsel. }
    simpl. eexists. split; [done |]. by rewrite length_insert. }
  simpl. eexists. split; [done |]. by split_and!.
Qed.

Lemma step_Live st ev :
  Live st → validEvent ev → gestureEvent ev →
  ∃ st', step st ev = Some st' ∧ Live st'.
Proof.
  intros HL Hv Hg. destruct ev; try done; simpl.
  - apply onMouseDownCell_Live; [done | apply Hv].
  - apply onMouseEnterCell_Live; [done | apply Hv].
  - by apply handleMouseUp_Live.
Qed.

Lemma run_Live evs : ∀ st,
  Live st → Forall validEvent evs → Forall gestureEvent evs →
  ∃ st', run st evs = Some st' ∧ Live st'.
Proof.
  induction evs as [| ev evs IH]; intros st HL Hv Hg; simpl.
  - by eexists.
  - apply Forall_cons in Hv as [Hv Hvs]. apply Forall_cons in Hg as [Hg Hgs].
    destruct (step_Live st ev HL Hv Hg) as (st1 & -> & HL1). simpl.
    by apply IH.
Qed.

Lemma initialState_Live : Live initialState.
Proof. split_and!; [apply length_replicate | done | done]. Qed.

(** ** The handlers over arrays keep intervals in bounds *)

Lemma Arrays_allowedRangeFor_bounds rw ex s0 e0 s e :
  Arrays.allowedRangeFor rw ex s0 e0 = (s, e) → slotOk s ∧ slotOk e ∧ s ≤ e.
Proof. apply finalize_bounds. Qed.

Lemma elem_of_assign i x l o :
  Some o ∈ Arrays.assign i x l → o = x ∨ Some o ∈ l.
Proof.
  unfold Arrays.assign. case_bool_decide.
  - intros [j Hj]%list_elem_of_lookup.
    apply list_lookup_insert_Some in Hj as [(_ & [= <-] & _) | [_ Hj]];
      [by left | right; by eapply list_elem_of_lookup_2].
  - intros [Ho | [Ho | Ho%list_elem_of_singleton]%elem_of_app]%elem_of_app.
    + by right.
    + by apply elem_of_replicate_inv in Ho.
    + left. by injection Ho.
Qed.

Lemma itemsInBounds_insert evs r rw :
  itemsInBounds evs → (∀ o, Some o ∈ rw → itemInBounds o) →
  itemsInBounds (<[r := rw]> evs).
Proof.
  intros Hevs Hrw rw' o [j Hj]%list_elem_of_lookup Ho.
  apply list_lookup_insert_Some in Hj as [(_ & <- & _) | [_ Hj]].
  - by apply Hrw.
  - eapply Hevs; [by eapply list_elem_of_lookup_2 | done].
Qed.

Lemma Arrays_applyTempUpdate_inBounds evs r i s e evs' :
  itemsInBounds evs → slotOk s → slotOk e → s ≤ e →
  Arrays.applyTempUpdate evs r i s e = Some evs' → itemsInBounds evs'.
Proof.
  intros Hevs Hs He Hse. unfold Arrays.applyTempUpdate.
  destruct (evs !! r) as [evts|] eqn:Hr; simpl; [| done].
  intros [= <-]. apply itemsInBounds_insert; [done |].
  intros o [-> | Ho]%elem_of_assign.
  - unfold itemInBounds, slotOk in *; simpl; lia.
  - eapply Hevs; [by eapply list_elem_of_lookup_2 | done].
Qed.

Lemma Arrays_onMouseEnterCell_Safe st r slot st' :
  SafeArr st → slotOk slot → Arrays.onMouseEnterCell st r slot = Some st' →
  SafeArr st'.
Proof.
  intros (Hb & Hs & Hc) Hslot. unfold Arrays.onMouseEnterCell.
  destruct (Arrays.isSelecting st && bool_decide (Some r = Arrays.selectRow st)).
  { intros [= <-]. split_and!; simpl; [done | done |]. by intros s [= <-]. }
  destruct (_ && _); [| by intros [= <-]].
  destruct (eventIndex (Arrays.drag st)) as [i|]; [| by intros [= <-]].
  destruct (initialStart (Arrays.drag st)) as [iStart|]; [| by intros [= <-]].
  destruct (initialEnd (Arrays.drag st)) as [iEnd|]; [| by intros [= <-]].
  destruct (anchorSlot (Arrays.drag st)) as [anchor|]; [| by intros [= <-]].
  assert (∀ a b, match Arrays.events st !! r with
                 | Some rw =>
                     let '(s, e) := Arrays.allowedRangeFor rw (Some i) a b in
                     Arrays.withEvents st <$>
                       Arrays.applyTempUpdate (Arrays.events st) r i s e
                 | None => None
                 end = Some st' → SafeArr st') as Hupd.
  { intros a b. destruct (Arrays.events st !! r) as [rw|]; [| done].
    destruct (Arrays.allowedRangeFor rw (Some i) a b) as [s e] eqn:Hr.
    apply Arrays_allowedRangeFor_bounds in Hr as (? & ? & ?).
    destruct (Arrays.applyTempUpdate _ _ _ _ _) as [evs'|] eqn:Hu; [| done].
    intros [= <-]. split_and!; simpl; [| done | done].
    eapply Arrays_applyTempUpdate_inBounds; [exact Hb | | | | exact Hu]; done. }
  destruct (mode (Arrays.drag st)); try (by intros [= <-]).
  - destruct (moveCandidate iStart iEnd anchor slot) as [a b]. apply Hupd.
  - apply Hupd.
  - apply Hupd.
Qed.

Lemma Arrays_onMouseDownCell_Safe st r slot st' :
  SafeArr st → slotOk slot → Arrays.onMouseDownCell st r slot = Some st' →
  SafeArr st'.
Proof.
  intros (Hb & Hs & Hc) Hslot. unfold Arrays.onMouseDownCell.
  destruct (Arrays.events st !! r) as [rw|]; simpl; [| done].
  destruct (Arrays.findEventAt rw slot) as [[i|]|]; simpl; [| | done].
  - destruct (rw !! i ≫= id); simpl; [| done]. intros [= <-]. by split_and!.
  - intros [= <-]. split_and!; simpl; [done | |]; by intros s [= <-].
Qed.

Lemma Arrays_commitCreate_cases st answer evs :
  Arrays.commitCreate st answer = Some evs →
  evs = Arrays.events st
  ∨ ∃ r rw selStart selCurrent t,
      Arrays.isSelecting st = true ∧ Arrays.selectRow st = Some r
      ∧ Arrays.selectStart st = Some selStart
      ∧ Arrays.selectCurrent st = Some selCurrent
      ∧ answer = Some t ∧ trim t ≠ []
      ∧ Arrays.events st !! r = Some rw
      ∧ evs = <[r := rw ++ [Some {| Arrays.start := Z.min selStart selCurrent;
                                    Arrays.end_ := Z.max selStart selCurrent;
                                    Arrays.title := Some (trim t) |}]]>
                (Arrays.events st).
Proof.
  unfold Arrays.commitCreate.
  destruct (Arrays.isSelecting st); [| intros [= <-]; by left].
  destruct (Arrays.selectRow st) as [r|]; [| intros [= <-]; by left].
  destruct (Arrays.selectStart st) as [ss|]; [| intros [= <-]; by left].
  destruct (Arrays.selectCurrent st) as [sc|]; [| intros [= <-]; by left].
  destruct answer as [t|]; [| intros [= <-]; by left].
  destruct (truthy t && truthy (trim t)) eqn:Ht; [| intros [= <-]; by left].
  destruct (Arrays.events st !! r) as [rw|] eqn:Hr; simpl; [| done].
  intros [= <-]. right. exists r, rw, ss, sc, t. split_and!; try done.
  apply andb_true_iff in Ht as [_ Ht]. by destruct (trim t).
Qed.

Lemma Arrays_handleMouseUp_Safe st answer st' :
  SafeArr st → Arrays.handleMouseUp st answer = Some st' → SafeArr st'.
Proof.
  intros (Hb & Hs & Hc). unfold Arrays.handleMouseUp.
  destruct (Arrays.commitCreate st answer) as [evs|] eqn:Hevs; simpl; [| done].
  intros [= <-]. split_and!; simpl; [| done | done].
  apply Arrays_commitCreate_cases in Hevs
    as [-> | (r & rw & ss & sc & t & _ & _ & Hss & Hsc & _ & _ & Hr & ->)];
    [done |].
  apply itemsInBounds_insert; [done |].
  intros o [Ho | [= ->]%list_elem_of_singleton]%elem_of_app.
  - eapply Hb; [by eapply list_elem_of_lookup_2 | done].
  - specialize (Hs _ Hss). specialize (Hc _ Hsc).
    unfold itemInBounds, slotOk in *; simpl; lia.
Qed.

Lemma itemsInBounds_imap
    (f : nat → list (option Arrays.Item) → list (option Arrays.Item)) evs :
  itemsInBounds evs → (∀ i rw o, o ∈ f i rw → o ∈ rw) →
  itemsInBounds (imap f evs).
Proof.
  intros Hevs Hf rw o [j Hj]%list_elem_of_lookup Ho.
  rewrite list_lookup_imap in Hj.
  destruct (evs !! j) as [rw0|] eqn:Hj0; simpl in Hj; [| done].
  injection Hj as <-. eapply Hevs; [by eapply list_elem_of_lookup_2 |].
  by eapply Hf.
Qed.

Lemma itemsInBounds_empty_rows n : itemsInBounds (replicate n []).
Proof. intros rw o ->%elem_of_replicate_inv Ho. by apply elem_of_nil in Ho. Qed.

Lemma itemsInBounds_ofRows rws :
  allInBounds rws → itemsInBounds (Arrays.ofRows rws).
Proof.
  intros Hb rw o. unfold Arrays.ofRows, Arrays.ofRow.
  intros (rw0 & -> & Hrw0)%list_elem_of_fmap
         (ev & [= ->] & Hev)%list_elem_of_fmap.
  specialize (Hb _ _ Hrw0 Hev). by destruct ev.
Qed.

Lemma Arrays_step_Safe st ev st' :
  SafeArr st → validEvent ev → Arrays.step st ev = Some st' → SafeArr st'.
Proof.
  intros HS Hev.
  destruct ev as [r s | r s | answer | r i | r c | c | stored | parsed c];
    simpl in *.
  - destruct Hev. by apply Arrays_onMouseDownCell_Safe.
  - destruct Hev. by apply Arrays_onMouseEnterCell_Safe.
  - by apply Arrays_handleMouseUp_Safe.
  - intros [= <-]. destruct HS as (Hb & Hs & Hc).
    split_and!; simpl; [| done | done].
    apply itemsInBounds_imap; [done |]. intros j rw o.
    case_bool_decide; [done | apply list_elem_of_delete_inv].
  - intros [= <-]. unfold Arrays.clearRow. destruct c; [| done].
    destruct HS as (Hb & Hs & Hc). split_and!; simpl; [| done | done].
    apply itemsInBounds_imap; [done |]. intros j rw o.
    case_bool_decide; [by intros ?%elem_of_nil | done].
  - intros [= <-]. unfold Arrays.handleClearAll. destruct c; [| done].
    destruct HS as (Hb & Hs & Hc).
    split_and!; [apply itemsInBounds_empty_rows | done | done].
  - intros [= <-]. unfold Arrays.handleManualLoad.
    destruct (loadFromStorage stored) as [sched|]; [| done].
    destruct (validateRows (rows sched)) eqn:Hv; [| done].
    destruct HS as (Hb & Hs & Hc). split_and!; simpl; [| done | done].
    by apply itemsInBounds_ofRows, validateRows_allInBounds.
  - intros [= <-]. unfold Arrays.handleImportFile.
    destruct parsed as [p|]; [| done].
    destruct (version p =? 1); simpl; [| done].
    destruct (validateRows (rows p)) eqn:Hv; simpl; [| done].
    destruct c; [| done].
    destruct HS as (Hb & Hs & Hc). split_and!; simpl; [| done | done].
    by apply itemsInBounds_ofRows, validateRows_allInBounds.
Qed.

(** ** The grid keeps its rows *)

Lemma Arrays_step_Grid st ev st' :
  GridArr st → validEvent ev → Arrays.step st ev = Some st' → GridArr st'.
Proof.
  intros [Hl Hsel] Hev.
  destruct ev as [r s | r s | answer | r i | r c | c | stored | parsed c];
    simpl in *.
  - unfold Arrays.onMouseDownCell.
    destruct (Arrays.events st !! r) as [rw|]; simpl; [| done].
    destruct (Arrays.findEventAt rw s) as [[i|]|]; simpl; [| | done].
    + destruct (rw !! i ≫= id); simpl; [| done]. by intros [= <-].
    + intros [= <-]. split; simpl; [done |]. intros ? [= <-]. by destruct Hev.
  - unfold Arrays.onMouseEnterCell.
    destruct (Arrays.isSelecting st && _); [by intros [= <-] |].
    destruct (_ && _); [| by intros [= <-]].
    destruct (eventIndex (Arrays.drag st)) as [i|]; [| by intros [= <-]].
    destruct (initialStart (Arrays.drag st)) as [iStart|]; [| by intros [= <-]].
    destruct (initialEnd (Arrays.drag st)) as [iEnd|]; [| by intros [= <-]].
    destruct (anchorSlot (Arrays.drag st)) as [anchor|]; [| by intros [= <-]].
    assert (∀ a b, match Arrays.events st !! r with
                   | Some rw =>
                       let '(s, e) := Arrays.allowedRangeFor rw (Some i) a b in
                       Arrays.withEvents st <$>
                         Arrays.applyTempUpdate (Arrays.events st) r i s e
                   | None => None
                   end = Some st' → GridArr st') as Hupd.
    { intros a b. destruct (Arrays.events st !! r) as [rw|] eqn:Hr; [| done].
      destruct (Arrays.allowedRangeFor rw (Some i) a b) as [s1 e1].
      unfold Arrays.applyTempUpdate. rewrite Hr. simpl.
      intros [= <-]. split; simpl; [by rewrite length_insert | done]. }
    destruct (mode (Arrays.drag st)); try (by intros [= <-]).
    + destruct (moveCandidate iStart iEnd anchor s) as [a b]. apply Hupd.
    + apply Hupd.
    + apply Hupd.
  - unfold Arrays.handleMouseUp.
    destruct (Arrays.commitCreate st answer) as [evs|] eqn:Hevs; simpl; [| done].
    intros [= <-]. split; simpl; [| done].
    apply Arrays_commitCreate_cases in Hevs
      as [-> | (r & rw & ss & sc & t & _ & _ & _ & _ & _ & _ & _ & ->)];
      [done | by rewrite length_insert].
  - intros [= <-]. split; simpl; [by rewrite length_imap | done].
  - intros [= <-]. unfold Arrays.clearRow. destruct c; [| done].
    split; simpl; [by rewrite length_imap | done].
  - intros [= <-]. unfold Arrays.handleClearAll. destruct c; [| done].
    split; [exact (length_replicate _ _) | done].
  - intros [= <-]. unfold Arrays.handleManualLoad.
    destruct (loadFromStorage stored) as [sched|]; [| done].
    destruct (validateRows (rows sched)) eqn:Hv; [| done].
    split; simpl; [| done]. unfold Arrays.ofRows. rewrite length_fmap.
    by apply validateRows_true in Hv as (? & _).
  - intros [= <-]. unfold Arrays.handleImportFile.
    destruct parsed as [p|]; [| done].
    destruct (version p =? 1); simpl; [| done].
    destruct (validateRows (rows p)) eqn:Hv; simpl; [| done].
    destruct c; [| done].
    split; simpl; [| done]. unfold Arrays.ofRows. rewrite length_fmap.
    by apply validateRows_true in Hv as (? & _).
Qed.

Lemma Arrays_run_invariants evs : ∀ st st',
  SafeArr st → GridArr st → Forall validEvent evs →
  Arrays.run st evs = Some st' → SafeArr st' ∧ GridArr st'.
Proof.
  induction evs as [| ev evs IH]; intros st st' HS HG Hevs; simpl.
  - by intros [= <-].
  - apply Forall_cons in Hevs as [Hev Hevs].
    destruct (Arrays.step st ev) as [st1|] eqn:Hstep; simpl; [| done].
    apply IH; [by eapply Arrays_step_Safe | by eapply Arrays_step_Grid | done].
Qed.

Lemma Arrays_initialState_invariants :
  SafeArr Arrays.initialState ∧ GridArr Arrays.initialState.
Proof.
  split; [split_and!; [apply itemsInBounds_empty_rows | done | done] |].
  by split.
Qed.

(** ** Over arrays, only a hole makes a handler fail *)

Lemma Arrays_findIndex_total p l :
  None ∉ l →
  ∃ found, Arrays.findIndex p l = Some found
           ∧ ∀ i, found = Some i → ∃ x, l !! i = Some (Some x).
Proof.
  induction l as [| [x|] l IH]; intros Hl; simpl.
  - by exists None.
  - destruct (p x).
    + exists (Some 0%nat). split; [done |]. intros ? [= <-]. by exists x.
    + destruct IH as (found & -> & Hf); [by intros ?; apply Hl; right |].
      simpl. eexists. split; [done |].
      intros [| i]; destruct found as [k|]; simpl; try done.
      intros [= <-]. by apply Hf.
  - exfalso. apply Hl. by left.
Qed.

Lemma Arrays_step_total st ev :
  GridArr st → noHoles (Arrays.events st) → validEvent ev →
  is_Some (Arrays.step st ev).
Proof.
  intros [Hl Hsel] Hh Hev.
  destruct ev as [r s | r s | answer | r i | r c | c | stored | parsed c];
    simpl in *; try done.
  - destruct Hev as [Hr _]. rewrite <- Hl in Hr.
    destruct (lookup_lt_is_Some_2 _ _ Hr) as [rw Hrw].
    unfold Arrays.onMouseDownCell. rewrite Hrw. simpl.
    destruct (Arrays_findIndex_total
                (λ ev, (s >=? Arrays.start ev) && (s <=? Arrays.end_ ev)) rw)
      as (found & Hf & Hi).
    { apply Hh. by eapply list_elem_of_lookup_2. }
    unfold Arrays.findEventAt. rewrite Hf. simpl.
    destruct found as [i|]; [| done].
    destruct (Hi i eq_refl) as [x ->]. done.
  - destruct Hev as [Hr _]. rewrite <- Hl in Hr.
    destruct (lookup_lt_is_Some_2 _ _ Hr) as [rw Hrw].
    unfold Arrays.onMouseEnterCell, Arrays.applyTempUpdate. rewrite Hrw. simpl.
    repeat match goal with
           | |- is_Some (Some _) => done
           | |- is_Some (let '(_, _) := ?p in _) => destruct p
           | |- is_Some (if ?b then _ else _) => destruct b
           | |- is_Some (match ?x with _ => _ end) => destruct x
           end.
  - unfold Arrays.handleMouseUp, Arrays.commitCreate.
    destruct (Arrays.isSelecting st); [| done].
    destruct (Arrays.selectRow st) as [r|] eqn:Hr; [| done].
    destruct (Arrays.selectStart st); [| done].
    destruct (Arrays.selectCurrent st); [| done].
    destruct answer as [t|]; [| done].
    destruct (truthy t && truthy (trim t)); [| done].
    specialize (Hsel _ eq_refl). rewrite <- Hl in Hsel.
    destruct (lookup_lt_is_Some_2 _ _ Hsel) as [rw ->]. done.
Qed.

(** ** The first model is the second on rows without holes

    Wherever a handler of the first model has a next state, the handler
    over arrays has the same one. *)

Lemma ofRows_lookup evs r :
  Arrays.ofRows evs !! r = Arrays.ofRow <$> evs !! r.
Proof. apply list_lookup_fmap. Qed.

Lemma ofRow_lookup rw i :
  Arrays.ofRow rw !! i ≫= id = Arrays.ofBlock <$> rw !! i.
Proof.
  unfold Arrays.ofRow. rewrite list_lookup_fmap. by destruct (rw !! i).
Qed.

Lemma Arrays_findEventAt_ofRow rw slot :
  Arrays.findEventAt (Arrays.ofRow rw) slot = Some (findEventAt rw slot).
Proof.
  unfold Arrays.findEventAt, findEventAt.
  induction rw as [| [s e t] rw IH]; simpl; [done |].
  destruct (_ && _); [done |]. by rewrite IH.
Qed.

Lemma Arrays_othersFrom_ofRow rw : ∀ i ex,
  Arrays.othersFrom i ex (Arrays.ofRow rw) = Arrays.ofBlock <$> othersFrom i ex rw.
Proof.
  induction rw as [| ev rw IH]; intros i ex; simpl; [done |].
  case_bool_decide; csimpl; by rewrite IH.
Qed.

Lemma Arrays_snap_ofBlock se o : Arrays.snap se (Arrays.ofBlock o) = snap se o.
Proof. by destruct o. Qed.

Lemma Arrays_allowedRangeFor_ofRow rw ex s e :
  Arrays.allowedRangeFor (Arrays.ofRow rw) ex s e = allowedRangeFor rw ex s e.
Proof.
  unfold Arrays.allowedRangeFor, allowedRangeFor, Arrays.others, others.
  rewrite Arrays_othersFrom_ofRow. f_equal.
  generalize (normalize s e). generalize (othersFrom 0 ex rw).
  intros l. induction l as [| o l IH]; intros se; csimpl; [done |].
  by rewrite Arrays_snap_ofBlock, IH.
Qed.

Lemma Arrays_applyTempUpdate_ofRows evs r i s e evs' :
  applyTempUpdate evs r i s e = Some evs' →
  Arrays.applyTempUpdate (Arrays.ofRows evs) r i s e = Some (Arrays.ofRows evs').
Proof.
  unfold applyTempUpdate, Arrays.applyTempUpdate. rewrite ofRows_lookup.
  destruct (evs !! r) as [evts|] eqn:Hr; simpl; [| done].
  rewrite ofRow_lookup.
  destruct (evts !! i) as [original|] eqn:Hi; simpl; [| done].
  intros [= <-]. f_equal. unfold Arrays.ofRows at 2.
  rewrite list_fmap_insert. f_equal.
  unfold Arrays.assign, Arrays.ofRow. rewrite length_fmap.
  rewrite bool_decide_eq_true_2 by by eapply lookup_lt_Some.
  rewrite list_fmap_insert. by destruct original.
Qed.

Lemma Arrays_onMouseDownCell_embed st r slot st' :
  onMouseDownCell st r slot = Some st' →
  Arrays.onMouseDownCell (embed st) r slot = Some (embed st').
Proof.
  unfold onMouseDownCell, Arrays.onMouseDownCell.
  cbn [embed Arrays.events]. rewrite ofRows_lookup.
  destruct (events st !! r) as [rw|]; simpl; [| done].
  rewrite Arrays_findEventAt_ofRow. simpl.
  destruct (findEventAt rw slot) as [i|].
  - rewrite ofRow_lookup. destruct (rw !! i) as [[s e t]|]; simpl; [| done].
    by intros [= <-].
  - by intros [= <-].
Qed.

Lemma Arrays_onMouseEnterCell_embed st r slot st' :
  onMouseEnterCell st r slot = Some st' →
  Arrays.onMouseEnterCell (embed st) r slot = Some (embed st').
Proof.
  unfold onMouseEnterCell, Arrays.onMouseEnterCell.
  cbn [embed Arrays.events Arrays.isSelecting Arrays.selectRow Arrays.drag
       Arrays.selectStart Arrays.selectCurrent].
  destruct (isSelecting st && bool_decide (Some r = selectRow st)).
  { by intros [= <-]. }
  destruct (_ && _); [| by intros [= <-]].
  destruct (eventIndex (drag st)) as [i|]; [| by intros [= <-]].
  destruct (initialStart (drag st)) as [iStart|]; [| by intros [= <-]].
  destruct (initialEnd (drag st)) as [iEnd|]; [| by intros [= <-]].
  destruct (anchorSlot (drag st)) as [anchor|]; [| by intros [= <-]].
  assert (∀ a b,
    match events st !! r with
    | Some rw =>
        let '(s, e) := allowedRangeFor rw (Some i) a b in
        withEvents st <$> applyTempUpdate (events st) r i s e
    | None => None
    end = Some st' →
    match Arrays.ofRows (events st) !! r with
    | Some rw =>
        let '(s, e) := Arrays.allowedRangeFor rw (Some i) a b in
        Arrays.withEvents (embed st) <$>
          Arrays.applyTempUpdate (Arrays.ofRows (events st)) r i s e
    | None => None
    end = Some (embed st')) as Hupd.
  { intros a b. rewrite ofRows_lookup.
    destruct (events st !! r) as [rw|]; simpl; [| done].
    rewrite Arrays_allowedRangeFor_ofRow.
    destruct (allowedRangeFor rw (Some i) a b) as [s e].
    destruct (applyTempUpdate _ _ _ _ _) as [evs'|] eqn:Hu; [| done].
    rewrite (Arrays_applyTempUpdate_ofRows _ _ _ _ _ _ Hu).
    by intros [= <-]. }
  destruct (mode (drag st)); try (by intros [= <-]).
  - destruct (moveCandidate iStart iEnd anchor slot) as [a b]. apply Hupd.
  - apply Hupd.
  - apply Hupd.
Qed.

Lemma Arrays_handleMouseUp_embed st answer st' :
  handleMouseUp st answer = Some st' →
  Arrays.handleMouseUp (embed st) answer = Some (embed st').
Proof.
  unfold handleMouseUp, Arrays.handleMouseUp.
  assert (∀ evs, commitCreate st answer = Some evs →
            Arrays.commitCreate (embed st) answer = Some (Arrays.ofRows evs))
    as Hc.
  { intros evs. unfold commitCreate, Arrays.commitCreate.
    cbn [embed Arrays.events Arrays.isSelecting Arrays.selectRow
         Arrays.selectStart Arrays.selectCurrent].
    destruct (isSelecting st); [| by intros [= <-]].
    destruct (selectRow st) as [r|]; [| by intros [= <-]].
    destruct (selectStart st) as [ss|]; [| by intros [= <-]].
    destruct (selectCurrent st) as [sc|]; [| by intros [= <-]].
    destruct answer as [t|]; [| by intros [= <-]].
    destruct (truthy t && truthy (trim t)); [| by intros [= <-]].
    rewrite ofRows_lookup.
    destruct (events st !! r) as [rw|]; simpl; [| done].
    intros [= <-]. f_equal. unfold Arrays.ofRows at 2.
    rewrite list_fmap_insert. f_equal.
    unfold Arrays.ofRow. by rewrite fmap_app. }
  destruct (commitCreate st answer) as [evs|]; simpl; [| done].
  rewrite (Hc _ eq_refl). simpl. by intros [= <-].
Qed.

Lemma ofRows_imap (f : nat → list EventBlock → list EventBlock)
    (g : nat → list (option Arrays.Item) → list (option Arrays.Item)) evs :
  (∀ i rw, Arrays.ofRow (f i rw) = g i (Arrays.ofRow rw)) →
  Arrays.ofRows (imap f evs) = imap g (Arrays.ofRows evs).
Proof.
  intros Hfg. unfold Arrays.ofRows. apply list_eq. intros i.
  rewrite list_lookup_fmap, !list_lookup_imap, list_lookup_fmap.
  destruct (evs !! i); simpl; [| done]. by rewrite Hfg.
Qed.

Lemma ofRow_delete i rw :
  Arrays.ofRow (delete i rw) = delete i (Arrays.ofRow rw).
Proof.
  unfold Arrays.ofRow. revert i.
  induction rw as [| ev rw IH]; intros [| i]; csimpl; try done.
  by rewrite IH.
Qed.

Lemma ofRows_empty_rows n : Arrays.ofRows (replicate n []) = replicate n [].
Proof. unfold Arrays.ofRows. by rewrite fmap_replicate. Qed.

Lemma Arrays_step_embed st ev st' :
  step st ev = Some st' → Arrays.step (embed st) ev = Some (embed st').
Proof.
  destruct ev as [r s | r s | answer | r i | r c | c | stored | parsed c];
    simpl.
  - apply Arrays_onMouseDownCell_embed.
  - apply Arrays_onMouseEnterCell_embed.
  - apply Arrays_handleMouseUp_embed.
  - intros [= <-]. f_equal.
    unfold Arrays.removeEvent, removeEvent, embed, Arrays.withEvents.
    simpl. f_equal. symmetry. apply ofRows_imap. intros j rw.
    case_bool_decide; [done | apply ofRow_delete].
  - intros [= <-]. f_equal. unfold Arrays.clearRow, clearRow.
    destruct c; [| done]. unfold embed, Arrays.withEvents. simpl. f_equal.
    symmetry. apply ofRows_imap. intros j rw. by case_bool_decide.
  - intros [= <-]. f_equal. unfold Arrays.handleClearAll, handleClearAll.
    destruct c; [| done]. unfold embed, Arrays.withEvents, withEvents.
    cbn [events Arrays.events]. by rewrite ofRows_empty_rows.
  - intros [= <-]. f_equal. unfold Arrays.handleManualLoad, handleManualLoad.
    destruct (loadFromStorage stored) as [sched|]; [| done].
    by destruct (validateRows (rows sched)).
  - intros [= <-]. f_equal. unfold Arrays.handleImportFile, handleImportFile.
    destruct parsed as [p|]; [| done].
    destruct (negb (version p =? 1) || negb (validateRows (rows p))); [done |].
    by destruct c.
Qed.

Lemma Arrays_run_embed evs : ∀ st st',
  run st evs = Some st' → Arrays.run (embed st) evs = Some (embed st').
Proof.
  induction evs as [| ev evs IH]; intros st st'; simpl.
  - by intros [= <-].
  - destruct (step st ev) as [st1|] eqn:Hstep; simpl; [| done].
    rewrite (Arrays_step_embed _ _ _ Hstep). simpl. apply IH.
Qed.

Lemma embed_initialState : embed initialState = Arrays.initialState.
Proof.
  unfold embed, initialState, Arrays.initialState.
  cbn [events]. by rewrite ofRows_empty_rows.
Qed.

(** ** C2: the bounds invariant *)

(** Two deletions in the middle of a drag of the second interval of a
    row: the next pointer-enter writes at index 1 of the empty row, which
    leaves a hole at index 0, and the next pointer-down on that row meets
    the hole. *)
Lemma stale_drag_leaves_holes :
  Arrays.run Arrays.initialState
    [MouseDown 0 2; MouseUp (Some (str "A"));
     MouseDown 0 5; MouseUp (Some (str "B"));
     MouseDown 0 5; Remove 0 0; Remove 0 0; MouseEnter 0 9; MouseUp None]
  = Some {| Arrays.events := [[None; Some (Arrays.mkItem 9 9 None)]; []; []];
            Arrays.isSelecting := false; Arrays.selectRow := None;
            Arrays.selectStart := None; Arrays.selectCurrent := None;
            Arrays.drag := noDrag |}
  ∧ Arrays.run Arrays.initialState
      [MouseDown 0 2; MouseUp (Some (str "A"));
       MouseDown 0 5; MouseUp (Some (str "B"));
       MouseDown 0 5; Remove 0 0; Remove 0 0; MouseEnter 0 9; MouseUp None;
       MouseDown 0 0]
    = None.
Proof. split; reflexivity. Qed.

(** C2.  Every interval of every row satisfies
    [0 ≤ start ≤ end < TOTAL_SLOTS] after any sequence of operations from
    the initial state, the pointer events coming from the cells of the
    grid.  First part: a sequence of pointer events (down, enter, up)
    always runs to a state, the same in both models, and the intervals of
    that state are in bounds.  Second part, over the rows as arrays: in
    the state reached by any sequence, deletions, clears, loads and
    imports in the middle of a drag included, every element of every row
    is in bounds, the elements written at an index that has left its row
    among them; and the next operation has a next state whenever the rows
    have no holes, so that a sequence stops only at the [TypeError] of a
    lookup that meets a hole. *)
Theorem bounds_invariant :
  (∀ evs, Forall validEvent evs → Forall gestureEvent evs →
     ∃ st, run initialState evs = Some st
           ∧ Arrays.run Arrays.initialState evs = Some (embed st)
           ∧ allInBounds (events st))
  ∧ (∀ evs st, Forall validEvent evs →
       Arrays.run Arrays.initialState evs = Some st →
       (∀ rw o, rw ∈ Arrays.events st → Some o ∈ rw →
          0 ≤ Arrays.start o ∧ Arrays.start o ≤ Arrays.end_ o
          ∧ Arrays.end_ o < TOTAL_SLOTS)
       ∧ (∀ ev, validEvent ev → noHoles (Arrays.events st) →
            is_Some (Arrays.step st ev))).
Proof.
  split.
  - intros evs Hv Hg.
    destruct (run_Live evs initialState initialState_Live Hv Hg)
      as (st & Hrun & _).
    exists st. split_and!; [done | |].
    + rewrite <- embed_initialState. by apply Arrays_run_embed.
    + by destruct (run_Safe evs _ _ initialState_Safe Hv Hrun).
  - intros evs st Hv Hrun.
    destruct Arrays_initialState_invariants as [HS HG].
    destruct (Arrays_run_invariants evs _ _ HS HG Hv Hrun) as [(Hb & _) HG'].
    split.
    + intros rw o Hrw Ho. by apply (Hb rw o).
    + intros ev Hev Hh. by apply Arrays_step_total.
Qed.

Lemma bounds_invariant_witness :
  Forall validEvent staleDragTrace
  ∧ run initialState staleDragTrace = None
  ∧ Arrays.run Arrays.initialState staleDragTrace
    = Some {| Arrays.events := [[Some (Arrays.mkItem 7 7 None)]; []; []];
              Arrays.isSelecting := false; Arrays.selectRow := None;
              Arrays.selectStart := None; Arrays.selectCurrent := None;
              Arrays.drag :=
                {| mode := ModeMove; row := Some 0%nat;
                   eventIndex := Some 0%nat; anchorSlot := Some 4;
                   initialStart := Some 4; initialEnd := Some 4 |} |}
  ∧ 0 ≤ 7 ∧ 7 ≤ 7 ∧ 7 < TOTAL_SLOTS.
Proof.
  assert (Forall validEvent staleDragTrace) as Hv.
  { repeat constructor; vm_compute; lia || congruence. }
  split; [exact Hv |]. split; [reflexivity |]. split; [reflexivity |].
  apply (proj1 (proj2 bounds_invariant staleDragTrace _ Hv eq_refl)
           [Some (Arrays.mkItem 7 7 None)] (Arrays.mkItem 7 7 None));
    apply list_elem_of_here.
Defined.

(** ** C1: the non-overlap invariant *)

Lemma overlapping_pair_breaks_invariant a b rw0 rw1 :
  overlap a b → ¬ allNoOverlap [[a; b]; rw0; rw1].
Proof.
  intros Hov Hno.
  apply (Hno [a; b] (list_elem_of_here _ _) 0%nat 1%nat a b); done.
Qed.

(** C1 (the code breaks the invariant).  The claim is that after every
    committed mutation no two intervals of a row overlap.  Two sequences
    of pointer events from the initial state, all on cells of the grid
    and passing over every cell on the way, end in a row with two
    overlapping intervals, which [validateRows] then refuses: creating an
    interval by dragging from slot 5 to slot 15 across the interval
    [{10, 10}] appends [{5, 15}] unchanged, and moving the interval
    [{20, 22}] towards [{0, 10}] leaves it at [{10, 10}]. *)
Theorem non_overlap_broken_by_gestures :
  (Forall validEvent createOverTrace ∧ Forall gestureEvent createOverTrace
   ∧ ∃ st, run initialState createOverTrace = Some st
       ∧ events st = [[mkEventBlock 10 10 (str "A");
                       mkEventBlock 5 15 (str "B")]; []; []]
       ∧ ¬ allNoOverlap (events st)
       ∧ validateRows (events st) = false)
  ∧ (Forall validEvent moveOntoTrace ∧ Forall gestureEvent moveOntoTrace
     ∧ ∃ st, run initialState moveOntoTrace = Some st
         ∧ events st = [[mkEventBlock 0 10 (str "A");
                         mkEventBlock 10 10 (str "B")]; []; []]
         ∧ ¬ allNoOverlap (events st)
         ∧ validateRows (events st) = false).
Proof.
  split; (split_and!;
    [ repeat constructor; vm_compute; lia || congruence
    | repeat constructor
    | eexists; split_and!;
      [ vm_compute; reflexivity
      | reflexivity
      | apply overlapping_pair_breaks_invariant; unfold overlap; simpl; lia
      | reflexivity ] ]).
Qed.

(** ** The collision resolver *)

(** Case analysis on the next integer comparison of the goal. *)
Ltac destr_cmp :=
  match goal with
  | |- context [Z.leb ?a ?b] => destruct (Z.leb_spec a b)
  | |- context [Z.ltb ?a ?b] => destruct (Z.ltb_spec a b)
  | |- context [Z.geb ?a ?b] => destruct (Z.geb_spec a b)
  | |- context [Z.gtb ?a ?b] => destruct (Z.gtb_spec a b)
  | |- context [Z.eqb ?a ?b] => destruct (Z.eqb_spec a b)
  end; simpl.

Lemma snap_no_overlap s e o :
  rangeOverlaps s e (start o) (end_ o) = false → snap (s, e) o = (s, e).
Proof. unfold snap. by intros ->. Qed.

Lemma snap_strictly_inside s e o :
  start o < s → e < end_ o → snap (s, e) o = (s, e).
Proof.
  intros Hs He. unfold snap, rangeOverlaps.
  repeat destr_cmp; try done; lia.
Qed.

Lemma foldl_snap_fixed se l :
  (∀ o, o ∈ l → snap se o = se) → foldl snap se l = se.
Proof.
  induction l as [| o l IH]; intros Hl; simpl; [done |].
  rewrite Hl by apply list_elem_of_here.
  apply IH. intros o' Ho'. apply Hl. by apply list_elem_of_further.
Qed.

Lemma allowedRangeFor_fixed rw ex s0 e0 s e :
  normalize s0 e0 = (s, e) →
  (∀ o, o ∈ others ex rw → snap (s, e) o = (s, e)) →
  allowedRangeFor rw ex s0 e0 = (s, e).
Proof.
  intros Hn Hfix. unfold allowedRangeFor. rewrite Hn.
  rewrite foldl_snap_fixed by done.
  apply normalize_bounds in Hn as (? & ? & ?). by apply finalize_id.
Qed.

(** With a single other interval a second pass changes nothing. *)
Lemma single_other_stable s e o s1 e1 :
  slotOk s → slotOk e → s ≤ e →
  finalize (snap (s, e) o) = (s1, e1) →
  finalize (snap (s1, e1) o) = (s1, e1).
Proof.
  unfold slotOk. rewrite TOTAL_SLOTS_eq. intros Hs He Hse.
  unfold snap at 1. unfold rangeOverlaps, finalize, clamp.
  rewrite TOTAL_SLOTS_eq.
  repeat destr_cmp; intros [= <- <-];
    unfold snap, rangeOverlaps, finalize, clamp; rewrite ?TOTAL_SLOTS_eq;
    repeat destr_cmp; f_equal; lia.
Qed.

Lemma elem_of_othersFrom i ex rw o :
  o ∈ othersFrom i ex rw ↔ ∃ j, rw !! j = Some o ∧ Some (i + j)%nat ≠ ex.
Proof.
  revert i. induction rw as [| a rw IH]; intros i; simpl.
  - split; [by intros ?%elem_of_nil | by intros (j & ? & _)].
  - case_bool_decide as Hi.
    + rewrite elem_of_cons, IH. split.
      * intros [-> | (j & Hj & Hne)].
        -- exists 0%nat. by rewrite Nat.add_0_r.
        -- exists (S j). by rewrite Nat.add_succ_r.
      * intros ([| j] & Hj & Hne); simpl in Hj.
        -- left. congruence.
        -- right. exists j. by rewrite Nat.add_succ_r in Hne.
    + rewrite IH. split.
      * intros (j & Hj & Hne). exists (S j). by rewrite Nat.add_succ_r.
      * intros ([| j] & Hj & Hne); simpl in Hj.
        -- rewrite Nat.add_0_r in Hne. done.
        -- exists j. by rewrite Nat.add_succ_r in Hne.
Qed.

Lemma elem_of_others ex rw o :
  o ∈ others ex rw ↔ ∃ j, rw !! j = Some o ∧ Some j ≠ ex.
Proof. apply elem_of_othersFrom. Qed.

(** ** C3: idempotence of the resolver *)

(** C3 as stated fails: in the row [{4,4}], [{5,10}], which satisfies the
    row invariants, the proposal [(5, 5)] resolves to [(4, 4)], and
    [(4, 4)] resolves to [(3, 3)]. *)
Lemma idempotence_fails :
  allowedRangeFor [mkEventBlock 4 4 (str "A"); mkEventBlock 5 10 (str "B")]
    None 5 5 = (4, 4)
  ∧ resolveAgain [mkEventBlock 4 4 (str "A"); mkEventBlock 5 10 (str "B")]
      None
      (allowedRangeFor
         [mkEventBlock 4 4 (str "A"); mkEventBlock 5 10 (str "B")] None 5 5)
    = (3, 3)
  ∧ ¬ (∀ rw ex s e,
         resolveAgain rw ex (allowedRangeFor rw ex s e)
         = allowedRangeFor rw ex s e).
Proof.
  split_and!; [reflexivity | reflexivity |].
  intros H.
  specialize (H [mkEventBlock 4 4 (str "A"); mkEventBlock 5 10 (str "B")]
                None 5 5).
  vm_compute in H. discriminate H.
Qed.

(** C3, amended.  Resolving the resolver's result again, with the same row
    and exclude index, gives that result again whenever the row holds at
    most one other interval, and whenever the result overlaps none of the
    other intervals. *)
Theorem allowedRangeFor_idempotent rw ex s0 e0 :
  (length (others ex rw) ≤ 1)%nat
  ∨ (∀ o, o ∈ others ex rw →
       rangeOverlaps (allowedRangeFor rw ex s0 e0).1
         (allowedRangeFor rw ex s0 e0).2 (start o) (end_ o) = false) →
  resolveAgain rw ex (allowedRangeFor rw ex s0 e0)
  = allowedRangeFor rw ex s0 e0.
Proof.
  destruct (allowedRangeFor rw ex s0 e0) as [s1 e1] eqn:Hr.
  pose proof (allowedRangeFor_bounds _ _ _ _ _ _ Hr) as (Hs1 & He1 & Hse1).
  unfold resolveAgain. simpl. intros [Hlen | Hclear].
  - unfold allowedRangeFor in *.
    rewrite (normalize_id s1 e1) by done.
    destruct (normalize s0 e0) as [s e] eqn:Hn.
    apply normalize_bounds in Hn as (Hs & He & Hse).
    destruct (others ex rw) as [| o [| o' l]]; cbn [foldl length] in *; [| | lia].
    + by apply finalize_id.
    + exact (single_other_stable s e o s1 e1 Hs He Hse Hr).
  - apply allowedRangeFor_fixed; [by apply normalize_id |].
    intros o Ho. by apply snap_no_overlap, Hclear.
Qed.

Lemma allowedRangeFor_idempotent_witness :
  (length (others (Some 0%nat)
             [mkEventBlock 10 15 (str "A"); mkEventBlock 20 25 (str "B")])
   ≤ 1)%nat
  ∧ resolveAgain [mkEventBlock 10 15 (str "A"); mkEventBlock 20 25 (str "B")]
      (Some 0%nat)
      (allowedRangeFor
         [mkEventBlock 10 15 (str "A"); mkEventBlock 20 25 (str "B")]
         (Some 0%nat) 10 22)
    = allowedRangeFor
        [mkEventBlock 10 15 (str "A"); mkEventBlock 20 25 (str "B")]
        (Some 0%nat) 10 22.
Proof.
  assert (length (others (Some 0%nat)
             [mkEventBlock 10 15 (str "A"); mkEventBlock 20 25 (str "B")])
          ≤ 1)%nat as Hlen by (vm_compute; lia).
  split; [exact Hlen |].
  apply (allowedRangeFor_idempotent
           [mkEventBlock 10 15 (str "A"); mkEventBlock 20 25 (str "B")]
           (Some 0%nat) 10 22 (or_introl Hlen)).
Defined.

(** Without obstruction the resolver returns the normalised proposal, and
    resolving that again returns it again. *)
Lemma allowedRangeFor_unobstructed rw ex s0 e0 s e :
  normalize s0 e0 = (s, e) →
  (∀ o, o ∈ others ex rw → rangeOverlaps s e (start o) (end_ o) = false) →
  allowedRangeFor rw ex s0 e0 = (s, e)
  ∧ allowedRangeFor rw ex s e = (s, e).
Proof.
  intros Hn Hclear.
  assert (∀ o, o ∈ others ex rw → snap (s, e) o = (s, e)) as Hfix.
  { intros o Ho. by apply snap_no_overlap, Hclear. }
  split; [by apply allowedRangeFor_fixed |].
  apply normalize_bounds in Hn as (? & ? & ?).
  apply allowedRangeFor_fixed; [by apply normalize_id | done].
Qed.

(** ** C10: a proposal strictly inside another interval *)

(** C10 as stated fails when the row holds a further interval in the way:
    gestures from the initial state ([createAroundTrace]) build the row
    [{5,5}], [{0,10}]; the proposal [(5, 7)] lies strictly inside
    [{0,10}], and the resolver returns [(4, 4)]. *)
Lemma strictly_inside_changed :
  events <$> run initialState createAroundTrace
  = Some [[mkEventBlock 5 5 (str "A"); mkEventBlock 0 10 (str "B")]; []; []]
  ∧ [mkEventBlock 5 5 (str "A"); mkEventBlock 0 10 (str "B")] !! 1%nat
    = Some (mkEventBlock 0 10 (str "B"))
  ∧ normalize 5 7 = (5, 7)
  ∧ start (mkEventBlock 0 10 (str "B")) < 5
  ∧ 7 < end_ (mkEventBlock 0 10 (str "B"))
  ∧ allowedRangeFor [mkEventBlock 5 5 (str "A"); mkEventBlock 0 10 (str "B")]
      None 5 7 = (4, 4)
  ∧ allowedRangeFor [mkEventBlock 5 5 (str "A"); mkEventBlock 0 10 (str "B")]
      None 5 7 ≠ (5, 7).
Proof. split_and!; try reflexivity; try (simpl; lia). by vm_compute. Qed.

(** C10, amended.  In a row that contains an interval [O] at index [k],
    a proposal whose normalised form [(s, e)] lies strictly inside [O]
    ([O.start < s] and [e < O.end]) and is overlapped by no other interval
    that the resolver considers is returned unchanged, and the returned
    range overlaps [O]. *)
Theorem allowedRangeFor_strictly_inside rw k O ex s0 e0 s e :
  rw !! k = Some O →
  normalize s0 e0 = (s, e) →
  start O < s → e < end_ O →
  (∀ j o, rw !! j = Some o → j ≠ k → Some j ≠ ex →
     rangeOverlaps s e (start o) (end_ o) = false) →
  allowedRangeFor rw ex s0 e0 = (s, e)
  ∧ rangeOverlaps s e (start O) (end_ O) = true.
Proof.
  intros Hk Hn Hs He Hrest. split.
  - apply allowedRangeFor_fixed; [done |].
    intros o (j & Hj & Hex)%elem_of_others.
    destruct (decide (j = k)) as [-> | Hjk].
    + rewrite Hk in Hj. injection Hj as <-. by apply snap_strictly_inside.
    + by eapply snap_no_overlap, Hrest.
  - apply normalize_bounds in Hn as (_ & _ & Hse).
    unfold rangeOverlaps. repeat destr_cmp; try done; lia.
Qed.

Lemma allowedRangeFor_strictly_inside_witness :
  allowedRangeFor [mkEventBlock 0 10 (str "A"); mkEventBlock 20 22 (str "B")]
    (Some 1%nat) 4 6 = (4, 6)
  ∧ rangeOverlaps 4 6 0 10 = true.
Proof.
  apply (allowedRangeFor_strictly_inside
           [mkEventBlock 0 10 (str "A"); mkEventBlock 20 22 (str "B")]
           0%nat (mkEventBlock 0 10 (str "A")) (Some 1%nat) 4 6 4 6);
    [reflexivity | reflexivity | simpl; lia | simpl; lia |].
  intros [| [| j]] o Hj Hne Hex; simpl in Hj; [done | done | done].
Defined.

(** In particular the amended C10 holds in every row that satisfies the
    non-overlap invariant, whatever the exclude index. *)
Lemma allowedRangeFor_strictly_inside_valid_row rw k O ex s0 e0 s e :
  rowNoOverlap rw →
  rw !! k = Some O →
  normalize s0 e0 = (s, e) →
  start O < s → e < end_ O →
  allowedRangeFor rw ex s0 e0 = (s, e)
  ∧ rangeOverlaps s e (start O) (end_ O) = true.
Proof.
  intros Hno Hk Hn Hs He.
  assert (s ≤ e) as Hse by by apply normalize_bounds in Hn as (_ & _ & ?).
  assert (∀ j o, rw !! j = Some o → j ≠ k →
            rangeOverlaps s e (start o) (end_ o) = false) as Hrest.
  { intros j o Hj Hjk. unfold rangeOverlaps.
    pose proof (Hno k j O o (not_eq_sym Hjk) Hk Hj) as Hov. unfold overlap in Hov.
    repeat destr_cmp; try done; lia. }
  split.
  - apply allowedRangeFor_fixed; [done |].
    intros o (j & Hj & Hex)%elem_of_others.
    destruct (decide (j = k)) as [-> | Hjk].
    + rewrite Hk in Hj. injection Hj as <-. by apply snap_strictly_inside.
    + by eapply snap_no_overlap, Hrest.
  - unfold rangeOverlaps. repeat destr_cmp; try done; lia.
Qed.

(** ** The validator's sort *)

Lemma insertByStart_Permutation a l : insertByStart a l ≡ₚ a :: l.
Proof.
  induction l as [| b l IH]; simpl; [done |].
  destruct (start a <=? start b); [done |].
  rewrite IH. apply Permutation_swap.
Qed.

Lemma sortByStart_Permutation l : sortByStart l ≡ₚ l.
Proof.
  induction l as [| a l IH]; simpl; [done |].
  by rewrite insertByStart_Permutation, IH.
Qed.

Lemma insertByStart_Sorted a l :
  Sorted startLe l → Sorted startLe (insertByStart a l).
Proof.
  induction 1 as [| b l Hl IH Hhd]; simpl.
  - by repeat constructor.
  - destruct (Z.leb_spec (start a) (start b)).
    + by repeat constructor.
    + constructor; [done |].
      destruct Hhd as [| c l Hbc]; simpl.
      * constructor. unfold startLe. lia.
      * destruct (Z.leb_spec (start a) (start c));
          constructor; unfold startLe in *; lia.
Qed.

Lemma sortByStart_Sorted l : Sorted startLe (sortByStart l).
Proof.
  induction l as [| a l IH]; simpl; [constructor |].
  by apply insertByStart_Sorted.
Qed.

(** ** Pairwise disjointness *)

Lemma disjoint_sym a b : disjoint a b → disjoint b a.
Proof. unfold disjoint, overlap. tauto. Qed.

Lemma rowNoOverlap_cons a rw :
  rowNoOverlap (a :: rw) ↔ Forall (disjoint a) rw ∧ rowNoOverlap rw.
Proof.
  split.
  - intros Hno. split.
    + apply Forall_lookup. intros j b Hj.
      by apply (Hno 0%nat (S j) a b).
    + intros i j b c Hij Hi Hj.
      apply (Hno (S i) (S j) b c); [lia | done | done].
  - intros [Ha Hrw] [| i] [| j] b c Hij Hi Hj; simpl in *; simplify_eq.
    + eapply Forall_lookup in Ha; [apply Ha | done].
    + apply disjoint_sym. eapply Forall_lookup in Ha; [apply Ha | done].
    + apply (Hrw i j b c); [lia | done | done].
Qed.

Lemma rowNoOverlap_StronglySorted rw :
  rowNoOverlap rw ↔ StronglySorted disjoint rw.
Proof.
  induction rw as [| a rw IH].
  - split; [constructor | by intros _ i j a b _ ?].
  - rewrite rowNoOverlap_cons, IH. split.
    + intros [? ?]. by constructor.
    + intros H. by inversion_clear H.
Qed.

Lemma StronglySorted_disjoint_Permutation l l' :
  l ≡ₚ l' → StronglySorted disjoint l → StronglySorted disjoint l'.
Proof.
  induction 1 as [| x l l' Hp IH | x y l | l l' l'' _ IH1 _ IH2]; intros Hl.
  - done.
  - inversion_clear Hl. constructor; [by apply IH | by rewrite <- Hp].
  - inversion_clear Hl as [| ? ? Hxl Hy]. inversion_clear Hxl as [| ? ? Hl' Hx].
    inversion_clear Hy as [| ? ? Hyx Hyl].
    constructor; [by constructor |].
    constructor; [by apply disjoint_sym | done].
  - by apply IH2, IH1.
Qed.

(** ** The validator's loop over a sorted row *)

Lemma consecutiveOk_Sorted l : consecutiveOk l = true ↔ Sorted before l.
Proof.
  induction l as [| a [| b l] IH].
  - split; [constructor | done].
  - split; [by repeat constructor | done].
  - cbn [consecutiveOk]. unfold before at 1.
    destruct (Z.geb_spec (end_ a) (start b)).
    + destruct (Z.eqb_spec (end_ a) (start b - 1)); [lia |]. simpl.
      split; [done |]. intros Hs. inversion_clear Hs as [| ? ? _ Hhd].
      inversion_clear Hhd. unfold before in *. lia.
    + rewrite IH. split.
      * intros. constructor; [done | by constructor].
      * intros Hs. by inversion_clear Hs.
Qed.

Lemma Sorted_before_StronglySorted l :
  Forall inBounds l → Sorted before l → StronglySorted before l.
Proof.
  induction 1 as [| a l Ha Hl IH]; intros Hs; [constructor |].
  inversion_clear Hs as [| ? ? Hs' Hhd].
  specialize (IH Hs'). constructor; [done |].
  destruct Hhd as [| b l Hab]; [constructor |].
  inversion_clear IH as [| ? ? _ Hb]. inversion_clear Hl as [| ? ? Hbb _].
  constructor; [done |].
  eapply Forall_impl; [exact Hb |].
  unfold before, inBounds in *. intros c Hbc. lia.
Qed.

Lemma before_disjoint a b : before a b → disjoint a b.
Proof. unfold before, disjoint, overlap. lia. Qed.

Lemma StronglySorted_before_disjoint l :
  StronglySorted before l → StronglySorted disjoint l.
Proof.
  induction 1 as [| a l _ IH Ha]; constructor; [done |].
  eapply Forall_impl; [exact Ha | apply before_disjoint].
Qed.

Lemma Sorted_startLe_disjoint_before l :
  Forall inBounds l → Sorted startLe l → StronglySorted disjoint l →
  Sorted before l.
Proof.
  induction 1 as [| a l Ha Hl IH]; intros Hs Hd; [constructor |].
  inversion_clear Hs as [| ? ? Hs' Hhd].
  inversion_clear Hd as [| ? ? Hd' Hda].
  constructor; [by apply IH |].
  destruct Hhd as [| b l Hab]; constructor.
  inversion_clear Hda as [| ? ? Hdab _]. inversion_clear Hl as [| ? ? Hb _].
  unfold before, startLe, disjoint, overlap, inBounds in *. lia.
Qed.

Lemma consecutiveOk_sortByStart rw :
  Forall inBounds rw →
  consecutiveOk (sortByStart rw) = true ↔ rowNoOverlap rw.
Proof.
  intros Hb.
  assert (Forall inBounds (sortByStart rw)) as Hb'
    by by rewrite sortByStart_Permutation.
  rewrite consecutiveOk_Sorted, rowNoOverlap_StronglySorted. split.
  - intros Hs.
    eapply StronglySorted_disjoint_Permutation;
      [apply sortByStart_Permutation |].
    by apply StronglySorted_before_disjoint, Sorted_before_StronglySorted.
  - intros Hd. apply Sorted_startLe_disjoint_before;
      [done | apply sortByStart_Sorted |].
    eapply StronglySorted_disjoint_Permutation; [| exact Hd].
    symmetry. apply sortByStart_Permutation.
Qed.

(** What [validateRows] decides. *)
Lemma validateRows_spec rws :
  validateRows rws = true ↔
    length rws = ROWS ∧ allInBounds rws ∧ allNoOverlap rws.
Proof.
  rewrite validateRows_true.
  assert (forallb (forallb isValidEventBlock) rws = true ↔ allInBounds rws)
    as ->.
  { rewrite forallb_elem_of. unfold allInBounds.
    setoid_rewrite forallb_elem_of.
    setoid_rewrite isValidEventBlock_inBounds. naive_solver. }
  split; intros (Hlen & Hb & Hc); (split_and!; [done | done |]).
  - intros rw Hrw. apply consecutiveOk_sortByStart.
    + apply Forall_forall. intros ev Hev. by apply (Hb rw).
    + rewrite forallb_elem_of in Hc. apply Hc. by apply list_elem_of_fmap_2.
  - apply forallb_elem_of. intros rw' (rw & -> & Hrw)%list_elem_of_fmap.
    apply consecutiveOk_sortByStart; [| by apply Hc].
    apply Forall_forall. intros ev Hev. by apply (Hb rw).
Qed.

(** ** The validator does not read titles *)

Lemma forallb_fmap_ext {A B} (p : B → bool) (q : A → bool) (f : A → B) l :
  (∀ x, p (f x) = q x) → forallb p (f <$> l) = forallb q l.
Proof.
  intros Hpq. induction l as [| x l IH]; csimpl; [done |]. by rewrite Hpq, IH.
Qed.

Lemma insertByStart_retitle f a l :
  insertByStart (retitle f a) (retitle f <$> l)
  = retitle f <$> insertByStart a l.
Proof.
  induction l as [| b l IH]; csimpl; [done |].
  destruct (start a <=? start b); csimpl; [done | by rewrite IH].
Qed.

Lemma sortByStart_retitle f l :
  sortByStart (retitle f <$> l) = retitle f <$> sortByStart l.
Proof.
  induction l as [| a l IH]; [done |].
  rewrite fmap_cons. unfold sortByStart in *. cbn [foldr].
  by rewrite IH, insertByStart_retitle.
Qed.

Lemma consecutiveOk_cons a b l :
  consecutiveOk (a :: b :: l) =
    if end_ a >=? start b then
      if negb (end_ a =? start b - 1) then false else consecutiveOk (b :: l)
    else consecutiveOk (b :: l).
Proof. reflexivity. Qed.

Lemma consecutiveOk_retitle f l :
  consecutiveOk (retitle f <$> l) = consecutiveOk l.
Proof.
  induction l as [| a [| b l] IH]; [done | done |].
  rewrite fmap_cons. rewrite fmap_cons in IH |- *.
  rewrite (consecutiveOk_cons (retitle f a)), (consecutiveOk_cons a).
  by rewrite IH.
Qed.

Lemma validateRows_retitle f (rws : list (list EventBlock)) :
  validateRows (retitleRows f rws) = validateRows rws.
Proof.
  unfold validateRows, retitleRows. rewrite length_fmap.
  rewrite (forallb_fmap_ext _ (forallb isValidEventBlock)).
  2: { intros l. by apply forallb_fmap_ext. }
  rewrite <- list_fmap_compose.
  rewrite (forallb_fmap_ext _ (consecutiveOk ∘ sortByStart)).
  2: { intros l. simpl. by rewrite sortByStart_retitle, consecutiveOk_retitle. }
  by rewrite <- (forallb_fmap_ext consecutiveOk (consecutiveOk ∘ sortByStart)
                   sortByStart rws).
Qed.

(** ** C4: round trip *)

(** C4.  For every array of rows that satisfies the row invariants (there
    are [ROWS] rows, every interval is in bounds and has a title that is
    not empty after trimming, no two intervals of a row overlap), loading
    what was saved returns the saved schedule, whose rows are the rows
    that were saved; a manual load installs exactly these rows. *)
Theorem save_load_roundtrip now rws :
  RowInvariants rws →
  loadFromStorage (saveToStorage now rws) = Some (makeSchedule now rws)
  ∧ rows <$> loadFromStorage (saveToStorage now rws) = Some rws
  ∧ ∀ st, events (handleManualLoad st (saveToStorage now rws)) = rws.
Proof.
  intros (Hlen & Hev & Hno).
  assert (validateRows rws = true) as Hv.
  { apply validateRows_spec. split_and!; [done | | done].
    intros rw ev Hrw Hin. by apply (Hev rw ev). }
  assert (loadFromStorage (saveToStorage now rws)
          = Some (makeSchedule now rws)) as Hload.
  { unfold loadFromStorage, saveToStorage. simpl. by rewrite Hv. }
  split_and!; [done | by rewrite Hload |].
  intros st. unfold handleManualLoad. rewrite Hload. simpl. by rewrite Hv.
Qed.

Lemma save_load_roundtrip_witness :
  RowInvariants
    [[mkEventBlock 16 19 (str "A"); mkEventBlock 20 25 (str "B")]; []; []]
  ∧ rows <$> loadFromStorage
      (saveToStorage (str "2024-01-01T00:00:00.000Z")
         [[mkEventBlock 16 19 (str "A"); mkEventBlock 20 25 (str "B")]; []; []])
    = Some [[mkEventBlock 16 19 (str "A"); mkEventBlock 20 25 (str "B")];
            []; []].
Proof.
  assert (RowInvariants
    [[mkEventBlock 16 19 (str "A"); mkEventBlock 20 25 (str "B")]; []; []])
    as Hinv.
  { split_and!.
    - reflexivity.
    - intros rw ev Hrw Hev.
      repeat (apply elem_of_cons in Hrw as [-> | Hrw]);
        repeat (apply elem_of_cons in Hev as [-> | Hev]);
        try (by apply elem_of_nil in Hev); try (by apply elem_of_nil in Hrw);
        vm_compute; intuition congruence.
    - intros rw Hrw [| [| i]] [| [| j]] a b Hij Hi Hj;
        repeat (apply elem_of_cons in Hrw as [-> | Hrw]);
        try (by apply elem_of_nil in Hrw);
        simpl in *; simplify_eq; unfold overlap; simpl; lia. }
  split; [exact Hinv |].
  exact (proj1 (proj2 (save_load_roundtrip (str "2024-01-01T00:00:00.000Z")
                         _ Hinv))).
Defined.

(** ** C5: rejection *)

Lemma rejected_intro p :
  version p ≠ 1 ∨ validateRows (rows p) = false → rejected p.
Proof.
  intros Hbad.
  assert (loadFromStorage (Some p) = None) as Hload.
  { unfold loadFromStorage.
    destruct (Z.eqb_spec (version p) 1); simpl; [| done].
    destruct Hbad as [? | ->]; done. }
  split; [done |]. intros st. split.
  - unfold handleManualLoad. by rewrite Hload.
  - intros c. unfold handleImportFile.
    destruct (Z.eqb_spec (version p) 1); simpl; [| done].
    destruct Hbad as [? | ->]; done.
Qed.

Lemma validateRows_false rws :
  ¬ (length rws = ROWS ∧ allInBounds rws ∧ allNoOverlap rws) →
  validateRows rws = false.
Proof.
  intros Hn. destruct (validateRows rws) eqn:Hv; [| done].
  by apply validateRows_spec in Hv.
Qed.

(** C5.  Loading yields nothing, and neither a manual load nor an import
    changes the state, for every payload whose version is 2, for every
    payload with an interval [{start: 5, end: 3}] in some row, and for
    every payload with the intervals [{0, 5}] and [{5, 8}] at two
    positions of one row. *)
Theorem malformed_payloads_rejected :
  (∀ p, version p = 2 → rejected p)
  ∧ (∀ p rw ev, rw ∈ rows p → ev ∈ rw → start ev = 5 → end_ ev = 3 →
       rejected p)
  ∧ (∀ p rw i j a b, rw ∈ rows p → i ≠ j →
       rw !! i = Some a → rw !! j = Some b →
       start a = 0 → end_ a = 5 → start b = 5 → end_ b = 8 →
       rejected p).
Proof.
  split_and!.
  - intros p Hv. apply rejected_intro. left. lia.
  - intros p rw ev Hrw Hev Hs He. apply rejected_intro. right.
    apply validateRows_false. intros (_ & Hb & _).
    specialize (Hb rw ev Hrw Hev). unfold inBounds in Hb. lia.
  - intros p rw i j a b Hrw Hij Hi Hj Hsa Hea Hsb Heb.
    apply rejected_intro. right.
    apply validateRows_false. intros (_ & _ & Hno).
    apply (Hno rw Hrw i j a b Hij Hi Hj). unfold overlap. lia.
Qed.

Lemma malformed_payloads_rejected_witness :
  rejected (mkSchedule 2 (str "t") [[]; []; []])
  ∧ rejected (mkSchedule 1 (str "t") [[mkEventBlock 5 3 (str "A")]; []; []])
  ∧ rejected (mkSchedule 1 (str "t")
                [[mkEventBlock 0 5 (str "A"); mkEventBlock 5 8 (str "B")];
                 []; []]).
Proof.
  split_and!.
  - apply (proj1 malformed_payloads_rejected). reflexivity.
  - apply (proj1 (proj2 malformed_payloads_rejected) _
             [mkEventBlock 5 3 (str "A")] (mkEventBlock 5 3 (str "A")));
      [apply list_elem_of_here | apply list_elem_of_here
      | reflexivity | reflexivity].
  - apply (proj2 (proj2 malformed_payloads_rejected) _
             [mkEventBlock 0 5 (str "A"); mkEventBlock 5 8 (str "B")]
             0%nat 1%nat
             (mkEventBlock 0 5 (str "A")) (mkEventBlock 5 8 (str "B")));
      [apply list_elem_of_here | lia | reflexivity | reflexivity
      | reflexivity | reflexivity | reflexivity | reflexivity].
Defined.

(** ** C6: validation and blank titles *)

(** C6.  The specification requires of valid rows that every interval has
    a title that is non-empty after trimming.  The code misses that check:
    [validateRows] returns true on rows whose only interval has an empty
    title, or a title of two spaces, and both load paths install such
    rows, whereas the creation path of the same file refuses these two
    titles and leaves the rows as they were. *)
Theorem blank_title_validates :
  validateRows [[mkEventBlock 0 0 []]; []; []] = true
  ∧ trim (title (mkEventBlock 0 0 [])) = []
  ∧ validateRows [[mkEventBlock 0 0 (str "  ")]; []; []] = true
  ∧ trim (title (mkEventBlock 0 0 (str "  "))) = []
  ∧ ¬ (∀ rws, validateRows rws = true →
         ∀ rw ev, rw ∈ rws → ev ∈ rw →
           inBounds ev ∧ trim (title ev) ≠ [])
  ∧ (∀ st now,
       events (handleManualLoad st
                 (Some (mkSchedule 1 now [[mkEventBlock 0 0 []]; []; []])))
       = [[mkEventBlock 0 0 []]; []; []]
       ∧ events (handleImportFile st
                   (Some (mkSchedule 1 now [[mkEventBlock 0 0 []]; []; []]))
                   true)
         = [[mkEventBlock 0 0 []]; []; []]
       ∧ events (handleManualLoad st
                   (Some (mkSchedule 1 now
                            [[mkEventBlock 0 0 (str "  ")]; []; []])))
         = [[mkEventBlock 0 0 (str "  ")]; []; []]
       ∧ events (handleImportFile st
                   (Some (mkSchedule 1 now
                            [[mkEventBlock 0 0 (str "  ")]; []; []]))
                   true)
         = [[mkEventBlock 0 0 (str "  ")]; []; []])
  ∧ run initialState [MouseDown 0 0; MouseUp (Some [])]
    = Some (idleState [[]; []; []])
  ∧ run initialState [MouseDown 0 0; MouseUp (Some (str "  "))]
    = Some (idleState [[]; []; []]).
Proof.
  split_and!; try reflexivity.
  - intros H.
    destruct (H [[mkEventBlock 0 0 []]; []; []] eq_refl
                [mkEventBlock 0 0 []] (mkEventBlock 0 0 [])
                (list_elem_of_here _ _) (list_elem_of_here _ _)) as [_ Ht].
    by apply Ht.
  - intros st now. split_and!; reflexivity.
Qed.

(** What validation does guarantee: [validateRows] returns true only if
    there are [ROWS] rows and every interval of every row satisfies
    [0 ≤ start ≤ end < TOTAL_SLOTS]; titles are not examined: rows that
    pass still pass after any change of their titles. *)
Theorem validateRows_sound rws :
  validateRows rws = true →
  length rws = ROWS
  ∧ (∀ rw ev, rw ∈ rws → ev ∈ rw →
       0 ≤ start ev ∧ start ev ≤ end_ ev ∧ end_ ev < TOTAL_SLOTS)
  ∧ (∀ f, validateRows (retitleRows f rws) = true).
Proof.
  intros Hv. split_and!.
  - by apply validateRows_spec in Hv as (? & _).
  - intros rw ev Hrw Hev. by apply (validateRows_allInBounds rws Hv rw ev).
  - intros f. by rewrite validateRows_retitle.
Qed.

Lemma validateRows_sound_witness :
  validateRows
    [[mkEventBlock 16 19 (str "A"); mkEventBlock 20 25 (str "B")]; []; []]
  = true
  ∧ length
      [[mkEventBlock 16 19 (str "A"); mkEventBlock 20 25 (str "B")]; []; []]
    = ROWS
  ∧ validateRows
      (retitleRows (λ _, [])
         [[mkEventBlock 16 19 (str "A"); mkEventBlock 20 25 (str "B")];
          []; []])
    = true.
Proof.
  split; [reflexivity |].
  destruct (validateRows_sound
              [[mkEventBlock 16 19 (str "A"); mkEventBlock 20 25 (str "B")];
               []; []] eq_refl) as (Hlen & _ & Hf).
  split; [exact Hlen | exact (Hf (λ _, []))].
Defined.

(** ** C7, C8: gesture scenarios *)

(** A pointer-down on an interval of row [r], found at index [i]. *)
Lemma onMouseDownCell_hit st r slot rw i evt :
  events st !! r = Some rw → findEventAt rw slot = Some i →
  rw !! i = Some evt →
  onMouseDownCell st r slot =
    Some (withDrag st
            {| mode := classify evt slot; row := Some r;
               eventIndex := Some i; anchorSlot := Some slot;
               initialStart := Some (start evt);
               initialEnd := Some (end_ evt) |}).
Proof.
  intros Hr Hf Hi. unfold onMouseDownCell. rewrite Hr. simpl.
  rewrite Hf, Hi. done.
Qed.

(** A pointer-enter on row [r] while an interval of that row is dragged
    and no selection is in progress. *)
Lemma onMouseEnterCell_drag evs d r i iStart iEnd anchor slot rw :
  evs !! r = Some rw →
  mode d ≠ ModeNone → row d = Some r → eventIndex d = Some i →
  initialStart d = Some iStart → initialEnd d = Some iEnd →
  anchorSlot d = Some anchor →
  onMouseEnterCell (withDrag (idleState evs) d) r slot =
    let '(a, b) :=
      match mode d with
      | ModeMove => moveCandidate iStart iEnd anchor slot
      | ModeResizeLeft => (Z.min slot iEnd, iEnd)
      | ModeResizeRight => (iStart, Z.max slot iStart)
      | _ => (0, 0)
      end in
    match mode d with
    | ModeMove | ModeResizeLeft | ModeResizeRight =>
        let '(s, e) := allowedRangeFor rw (Some i) a b in
        withEvents (withDrag (idleState evs) d)
          <$> applyTempUpdate evs r i s e
    | _ => Some (withDrag (idleState evs) d)
    end.
Proof.
  intros Hr Hm Hrow Hi Hs He Ha. unfold onMouseEnterCell. simpl.
  rewrite Hi, Hs, He, Ha, Hrow, Hr.
  rewrite !bool_decide_eq_true_2 by done. simpl.
  by destruct (mode d).
Qed.

(** The two events of a drag from [anchor] to [slot] in row [r], starting
    with no gesture in progress, on the interval found at index [i]. *)
Lemma drag_run evs r rw i evt anchor slot :
  evs !! r = Some rw → findEventAt rw anchor = Some i → rw !! i = Some evt →
  events <$> run (idleState evs) [MouseDown r anchor; MouseEnter r slot] =
    let '(a, b) :=
      match classify evt anchor with
      | ModeMove => moveCandidate (start evt) (end_ evt) anchor slot
      | ModeResizeLeft => (Z.min slot (end_ evt), end_ evt)
      | _ => (start evt, Z.max slot (start evt))
      end in
    let '(s, e) := allowedRangeFor rw (Some i) a b in
    Some (<[r := <[i := {| start := s; end_ := e; title := title evt |}]> rw]>
            evs).
Proof.
  intros Hr Hf Hi. cbn [run step].
  rewrite (onMouseDownCell_hit _ r anchor rw i evt) by done. cbn [mbind option_bind].
  assert (classify evt anchor ≠ ModeNone) as Hm.
  { unfold classify. by repeat destr_cmp. }
  rewrite (onMouseEnterCell_drag evs _ r i (start evt) (end_ evt) anchor slot rw)
    by done.
  cbn [mode]. unfold applyTempUpdate. rewrite Hr. cbn [mbind option_bind].
  rewrite Hi. cbn [mbind option_bind].
  unfold classify; repeat destr_cmp;
    repeat match goal with
           | |- context [let '(_, _) := ?p in _] => destruct p
           end; done.
Qed.

(** C7 as stated fails: the drag from slot 4 to slot 40 shifts the
    interval [{2, 6}] by 36 slots, to [{38, 42}], not to [{39, 43}]. *)
Lemma move_to_slot_40 :
  events <$> run (idleState [[mkEventBlock 2 6 (str "A")]; []; []])
               [MouseDown 0 4; MouseEnter 0 40]
  = Some [[mkEventBlock 38 42 (str "A")]; []; []]
  ∧ events <$> run (idleState [[mkEventBlock 2 6 (str "A")]; []; []])
                 [MouseDown 0 4; MouseEnter 0 40]
    ≠ Some [[mkEventBlock 39 43 (str "A")]; []; []].
Proof. split; [reflexivity | by vm_compute]. Qed.

(** C7, amended.  With [TOTAL_SLOTS = 44] and a row holding the single
    interval [{2, 6}], a pointer-down at slot 4 starts a move; a
    pointer-enter at slot 40 then leaves the interval at [{38, 42}] (the
    length is kept and no shift is needed), and a pointer-enter at slot
    41, 42 or 43 leaves it at [{39, 43}] (the length is kept and the
    interval is shifted to fit). *)
Theorem move_scenario evs r t :
  evs !! r = Some [mkEventBlock 2 6 t] →
  TOTAL_SLOTS = 44
  ∧ classify (mkEventBlock 2 6 t) 4 = ModeMove
  ∧ events <$> run (idleState evs) [MouseDown r 4; MouseEnter r 40]
    = Some (<[r := [mkEventBlock 38 42 t]]> evs)
  ∧ ∀ slot, 41 ≤ slot → slot ≤ 43 →
      events <$> run (idleState evs) [MouseDown r 4; MouseEnter r slot]
      = Some (<[r := [mkEventBlock 39 43 t]]> evs).
Proof.
  intros Hr. split_and!; [reflexivity | reflexivity | |].
  - by rewrite (drag_run evs r _ 0%nat (mkEventBlock 2 6 t) 4 40 Hr).
  - intros slot Hlo Hhi.
    rewrite (drag_run evs r _ 0%nat (mkEventBlock 2 6 t) 4 slot Hr) by done.
    assert (moveCandidate 2 6 4 slot = (39, 43)) as Hc.
    { unfold moveCandidate. rewrite TOTAL_SLOTS_eq.
      repeat destr_cmp; f_equal; lia. }
    change (classify (mkEventBlock 2 6 t) 4) with ModeMove.
    cbn [start end_]. by rewrite Hc.
Qed.

Lemma move_scenario_witness :
  events <$> run (idleState [[mkEventBlock 2 6 (str "A")]; []; []])
               [MouseDown 0 4; MouseEnter 0 40]
  = Some [[mkEventBlock 38 42 (str "A")]; []; []]
  ∧ events <$> run (idleState [[mkEventBlock 2 6 (str "A")]; []; []])
                 [MouseDown 0 4; MouseEnter 0 42]
    = Some [[mkEventBlock 39 43 (str "A")]; []; []].
Proof.
  destruct (move_scenario [[mkEventBlock 2 6 (str "A")]; []; []] 0%nat
              (str "A") eq_refl) as (_ & _ & H40 & Hfit).
  split; [exact H40 |]. apply (Hfit 42); lia.
Defined.

(** C8.  In a row holding [{10, 15}] and [{20, 25}], a pointer-down on
    slot 15, the last slot of the first interval, starts a resize-right;
    the pointer-enter at slot 22 then commits the first interval with
    start 10 and end 19, the neighbour's start minus one, and leaves the
    neighbour as it was. *)
Theorem resize_right_snaps evs r t1 t2 :
  evs !! r = Some [mkEventBlock 10 15 t1; mkEventBlock 20 25 t2] →
  classify (mkEventBlock 10 15 t1) 15 = ModeResizeRight
  ∧ events <$> run (idleState evs) [MouseDown r 15; MouseEnter r 22]
    = Some (<[r := [mkEventBlock 10 19 t1; mkEventBlock 20 25 t2]]> evs).
Proof.
  intros Hr. split; [reflexivity |].
  by rewrite (drag_run evs r _ 0%nat (mkEventBlock 10 15 t1) 15 22 Hr).
Qed.

Lemma resize_right_snaps_witness :
  events <$> run (idleState [[mkEventBlock 10 15 (str "A");
                              mkEventBlock 20 25 (str "B")]; []; []])
               [MouseDown 0 15; MouseEnter 0 22]
  = Some [[mkEventBlock 10 19 (str "A"); mkEventBlock 20 25 (str "B")];
          []; []].
Proof.
  exact (proj2 (resize_right_snaps
                  [[mkEventBlock 10 15 (str "A");
                    mkEventBlock 20 25 (str "B")]; []; []]
                  0%nat (str "A") (str "B") eq_refl)).
Defined.

(** ** C9: gesture classification *)

(** C9.  A pointer-down at [slot] in row [r] that hits an interval (the
    first interval of the row that contains [slot], at index [i]) leaves
    the rows and the selection as they were and records the row, the
    index, the anchor slot and the interval's [(start, end)] in the
    gesture state; the mode is move when the interval is a single point or
    [slot] lies strictly between its first and last slot, resize-left when
    the interval spans more than one slot and [slot] is its first slot,
    and resize-right when it spans more than one slot and [slot] is its
    last slot. *)
Theorem pointer_down_classification st r slot rw i :
  events st !! r = Some rw → findEventAt rw slot = Some i →
  ∃ evt m,
    rw !! i = Some evt
    ∧ start evt ≤ slot ∧ slot ≤ end_ evt
    ∧ (∀ j o, (j < i)%nat → rw !! j = Some o →
         ¬ (start o ≤ slot ∧ slot ≤ end_ o))
    ∧ onMouseDownCell st r slot =
        Some {| events := events st; isSelecting := isSelecting st;
                selectRow := selectRow st; selectStart := selectStart st;
                selectCurrent := selectCurrent st;
                drag := {| mode := m; row := Some r; eventIndex := Some i;
                           anchorSlot := Some slot;
                           initialStart := Some (start evt);
                           initialEnd := Some (end_ evt) |} |}
    ∧ (start evt = end_ evt ∨ (start evt < slot ∧ slot < end_ evt) →
         m = ModeMove)
    ∧ (start evt < end_ evt → slot = start evt → m = ModeResizeLeft)
    ∧ (start evt < end_ evt → slot = end_ evt → m = ModeResizeRight).
Proof.
  intros Hr Hf. pose proof Hf as Hf'.
  apply findIndex_Some in Hf' as (evt & Hi & Hhit & Hfirst).
  exists evt, (classify evt slot).
  apply andb_true_iff in Hhit as [Hlo Hhi].
  apply Z.geb_le in Hlo. apply Z.leb_le in Hhi.
  split_and!; [done | done | done | | | | |].
  - intros j o Hj Ho [Hlo' Hhi']. specialize (Hfirst j o Hj Ho).
    apply andb_false_iff in Hfirst as [Hc | Hc]; [rewrite Z.geb_leb in Hc |];
      apply Z.leb_gt in Hc; lia.
  - by rewrite (onMouseDownCell_hit st r slot rw i evt).
  - unfold classify. intros Hcase. repeat destr_cmp; try done; lia.
  - unfold classify. intros Hspan ->. repeat destr_cmp; try done; lia.
  - unfold classify. intros Hspan ->. repeat destr_cmp; try done; lia.
Qed.

Lemma pointer_down_classification_witness :
  ∃ evt m,
    [mkEventBlock 10 15 (str "A"); mkEventBlock 20 25 (str "B")] !! 1%nat
    = Some evt
    ∧ start evt ≤ 20 ∧ 20 ≤ end_ evt
    ∧ (∀ j o, (j < 1)%nat →
         [mkEventBlock 10 15 (str "A"); mkEventBlock 20 25 (str "B")] !! j
         = Some o → ¬ (start o ≤ 20 ∧ 20 ≤ end_ o))
    ∧ onMouseDownCell
        (idleState [[mkEventBlock 10 15 (str "A");
                     mkEventBlock 20 25 (str "B")]; []; []]) 0 20 =
        Some {| events := [[mkEventBlock 10 15 (str "A");
                            mkEventBlock 20 25 (str "B")]; []; []];
                isSelecting := false; selectRow := None;
                selectStart := None; selectCurrent := None;
                drag := {| mode := m; row := Some 0%nat;
                           eventIndex := Some 1%nat;
                           anchorSlot := Some 20;
                           initialStart := Some (start evt);
                           initialEnd := Some (end_ evt) |} |}
    ∧ (start evt = end_ evt ∨ (start evt < 20 ∧ 20 < end_ evt) →
         m = ModeMove)
    ∧ (start evt < end_ evt → 20 = start evt → m = ModeResizeLeft)
    ∧ (start evt < end_ evt → 20 = end_ evt → m = ModeResizeRight).
Proof.
  exact (pointer_down_classification
           (idleState [[mkEventBlock 10 15 (str "A");
                        mkEventBlock 20 25 (str "B")]; []; []])
           0%nat 20
           [mkEventBlock 10 15 (str "A"); mkEventBlock 20 25 (str "B")]
           1%nat eq_refl eq_refl).
Defined.

(** * Further properties of the validator *)

(** X1.  [validateRows] accepts exactly the arrays of [ROWS] rows in which
    every interval is in bounds and no two intervals of a row overlap. *)
Theorem validateRows_iff_invariants rws :
  validateRows rws = true ↔
    length rws = ROWS ∧ allInBounds rws ∧ allNoOverlap rws.
Proof. apply validateRows_spec. Qed.

Lemma rowNoOverlap_Permutation rw rw' :
  rw ≡ₚ rw' → rowNoOverlap rw → rowNoOverlap rw'.
Proof.
  intros Hp. rewrite !rowNoOverlap_StronglySorted.
  by apply StronglySorted_disjoint_Permutation.
Qed.

Lemma invariants_Permutation rws rws' :
  Forall2 Permutation rws rws' →
  length rws = ROWS ∧ allInBounds rws ∧ allNoOverlap rws →
  length rws' = ROWS ∧ allInBounds rws' ∧ allNoOverlap rws'.
Proof.
  intros Hp (Hlen & Hb & Hno). split_and!.
  - by rewrite <- (Forall2_length _ _ _ Hp).
  - intros rw' ev [j Hj]%list_elem_of_lookup Hev.
    destruct (Forall2_lookup_r _ _ _ _ _ Hp Hj) as (rw & Hrw & Hperm).
    apply (Hb rw ev); [by eapply list_elem_of_lookup_2 | by rewrite Hperm].
  - intros rw' [j Hj]%list_elem_of_lookup.
    destruct (Forall2_lookup_r _ _ _ _ _ Hp Hj) as (rw & Hrw & Hperm).
    apply (rowNoOverlap_Permutation rw); [done |].
    apply Hno. by eapply list_elem_of_lookup_2.
Qed.

(** X2.  The verdict of [validateRows] does not depend on the order of
    the intervals inside the rows. *)
Theorem validateRows_order_irrelevant rws rws' :
  Forall2 Permutation rws rws' → validateRows rws = validateRows rws'.
Proof.
  intros Hp.
  assert (Forall2 Permutation rws' rws) as Hp'.
  { apply Forall2_flip. eapply Forall2_impl; [exact Hp |].
    intros ???. by symmetry. }
  destruct (validateRows rws) eqn:Hv, (validateRows rws') eqn:Hv'; try done.
  - apply validateRows_spec, (invariants_Permutation _ _ Hp),
      validateRows_spec in Hv. congruence.
  - apply validateRows_spec, (invariants_Permutation _ _ Hp'),
      validateRows_spec in Hv'. congruence.
Qed.

Lemma validateRows_order_irrelevant_witness :
  validateRows
    [[mkEventBlock 20 25 (str "B"); mkEventBlock 16 19 (str "A")]; []; []]
  = validateRows
      [[mkEventBlock 16 19 (str "A"); mkEventBlock 20 25 (str "B")]; []; []].
Proof.
  apply validateRows_order_irrelevant.
  repeat constructor.
Defined.

Lemma overlap_loops_agree l :
  noStrictOverlapLoop l = noOverlapLoop l ∧ consecutiveOk l = noOverlapLoop l.
Proof.
  induction l as [| a [| b l] IH]; [done | done |].
  destruct IH as [IH1 IH2].
  change (noStrictOverlapLoop (a :: b :: l)) with
    (if end_ a >=? start b then
       if end_ a >=? start b then
         if end_ a >=? start b then
           if end_ a >=? start b then
             if (end_ a >=? start b) && negb (end_ a =? start b - 1)
             then false
             else noStrictOverlapLoop (b :: l)
           else noStrictOverlapLoop (b :: l)
         else noStrictOverlapLoop (b :: l)
       else noStrictOverlapLoop (b :: l)
     else noStrictOverlapLoop (b :: l)).
  change (noOverlapLoop (a :: b :: l)) with
    (if end_ a >=? start b then false else noOverlapLoop (b :: l)).
  rewrite consecutiveOk_cons, IH1, IH2.
  split; repeat destr_cmp; try done; lia.
Qed.

(** X3.  On rows whose endpoints are safe integers the two unused overlap
    checks compute the same verdict: the back-to-back exception of
    [rowsHaveNoStrictOverlap] never applies, because it sits under the
    test [prev.end >= cur.start].  The overlap part of [validateRows] is
    that same check. *)
Theorem overlap_checks_agree rws :
  safeRows rws →
  rowsHaveNoStrictOverlap rws = rowsHaveNoOverlap rws
  ∧ validateRows rws =
      (length rws =? ROWS)%nat
      && forallb (forallb isValidEventBlock) rws
      && rowsHaveNoOverlap rws.
Proof.
  intros _.
  assert (forallb consecutiveOk (sortByStart <$> rws) = rowsHaveNoOverlap rws)
    as Hc.
  { unfold rowsHaveNoOverlap. apply forallb_fmap_ext.
    intros rw. apply overlap_loops_agree. }
  split.
  - clear Hc. unfold rowsHaveNoStrictOverlap, rowsHaveNoOverlap.
    induction rws as [| rw rws IH]; [done |].
    cbn [forallb]. rewrite IH. f_equal. apply overlap_loops_agree.
  - unfold validateRows. rewrite Hc.
    destruct (length rws =? ROWS)%nat; simpl; [| done].
    by destruct (forallb (forallb isValidEventBlock) rws).
Qed.

Lemma overlap_checks_agree_witness :
  safeRows [[mkEventBlock 20 25 (str "B"); mkEventBlock 16 20 (str "A")];
            []; []]
  ∧ rowsHaveNoStrictOverlap
      [[mkEventBlock 20 25 (str "B"); mkEventBlock 16 20 (str "A")]; []; []]
    = false
  ∧ rowsHaveNoOverlap
      [[mkEventBlock 20 25 (str "B"); mkEventBlock 16 20 (str "A")]; []; []]
    = false.
Proof.
  assert (safeRows [[mkEventBlock 20 25 (str "B");
                     mkEventBlock 16 20 (str "A")]; []; []]) as Hs.
  { repeat constructor; simpl; unfold MAX_SAFE_INTEGER; lia. }
  split; [exact Hs |].
  destruct (overlap_checks_agree _ Hs) as [<- _]. split; reflexivity.
Defined.

(** * Further properties of the collision resolver *)

Lemma othersFrom_past m k rw :
  (k < m)%nat → othersFrom m (Some k) rw = rw.
Proof.
  revert m. induction rw as [| o rw IH]; intros m Hm; [done |].
  cbn [othersFrom]. rewrite bool_decide_eq_true_2.
  - f_equal. apply IH. lia.
  - intros [= ->]. lia.
Qed.

Lemma othersFrom_delete k i rw :
  othersFrom k (Some (k + i)%nat) rw = delete i rw.
Proof.
  revert k i. induction rw as [| o rw IH]; intros k i; [done |].
  cbn [othersFrom]. destruct i as [| i].
  - rewrite Nat.add_0_r. rewrite bool_decide_eq_false_2 by naive_solver.
    simpl. apply othersFrom_past. lia.
  - rewrite bool_decide_eq_true_2 by (intros [=]; lia).
    simpl. f_equal. rewrite <- Nat.add_succ_comm. apply IH.
Qed.

Lemma othersFrom_None k rw : othersFrom k None rw = rw.
Proof.
  revert k. induction rw as [| o rw IH]; intros k; [done |].
  cbn [othersFrom]. rewrite bool_decide_eq_true_2 by done. by rewrite IH.
Qed.

Lemma others_delete i rw : others (Some i) rw = delete i rw.
Proof. apply (othersFrom_delete 0 i rw). Qed.

Lemma delete_insert_same {A} (l : list A) i x :
  delete i (<[i := x]> l) = delete i l.
Proof.
  revert i. induction l as [| a l IH]; intros [| i]; simpl; [done.. |].
  by rewrite IH.
Qed.

Lemma allowedRangeFor_insert_excluded rw i x s e :
  allowedRangeFor (<[i := x]> rw) (Some i) s e
  = allowedRangeFor rw (Some i) s e.
Proof.
  unfold allowedRangeFor. by rewrite !others_delete, delete_insert_same.
Qed.

(** X4.  The resolver never looks at the interval at the excluded index:
    the intervals it considers are the row with that index deleted (the
    whole row for a null index), so its result does not change when the
    excluded interval is replaced by any other. *)
Theorem allowedRangeFor_ignores_excluded rw i :
  others (Some i) rw = delete i rw
  ∧ others None rw = rw
  ∧ ∀ x s e,
      allowedRangeFor (<[i := x]> rw) (Some i) s e
      = allowedRangeFor rw (Some i) s e.
Proof.
  split_and!;
    [apply others_delete | apply othersFrom_None
    | intros; apply allowedRangeFor_insert_excluded].
Qed.

(** The loop keeps the start at or after the proposal's, the end at or
    before the proposal's, and the start at most one past the end. *)
Lemma foldl_snap_envelope l : ∀ sn en s e s' e',
  sn ≤ s → s ≤ e + 1 → e ≤ en →
  foldl snap (s, e) l = (s', e') →
  sn ≤ s' ∧ s' ≤ e' + 1 ∧ e' ≤ en.
Proof.
  induction l as [| o l IH]; intros sn en s e s' e' H1 H2 H3; cbn [foldl].
  - by intros [= <- <-].
  - destruct (snap (s, e) o) as [s1 e1] eqn:Hsnap. intros Hf.
    apply (IH sn en s1 e1 s' e'); [| | | exact Hf];
      revert Hsnap; unfold snap, rangeOverlaps;
      repeat destr_cmp; intros [= <- <-]; lia.
Qed.

(** X5.  The range returned by the resolver ends at or before the end of
    the normalised proposal and starts at most one slot before its start;
    it starts before the proposal's start only when it has collapsed to a
    single slot. *)
Theorem allowedRangeFor_envelope rw ex s0 e0 sn en s e :
  normalize s0 e0 = (sn, en) →
  allowedRangeFor rw ex s0 e0 = (s, e) →
  sn - 1 ≤ s ∧ s ≤ e ∧ e ≤ en ∧ (s < sn → s = e).
Proof.
  intros Hn. unfold allowedRangeFor. rewrite Hn.
  destruct (foldl snap (sn, en) (others ex rw)) as [s1 e1] eqn:Hloop.
  apply normalize_bounds in Hn as ((? & ?) & (? & ?) & ?).
  apply (foldl_snap_envelope _ sn en) in Hloop as (? & ? & ?); [| lia..].
  unfold finalize, clamp. rewrite TOTAL_SLOTS_eq in *.
  destr_cmp; intros [= <- <-]; lia.
Qed.

Lemma allowedRangeFor_envelope_witness :
  normalize 5 5 = (5, 5)
  ∧ allowedRangeFor [mkEventBlock 4 4 (str "A"); mkEventBlock 5 10 (str "B")]
      None 5 5 = (4, 4)
  ∧ 5 - 1 ≤ 4 ∧ 4 ≤ 4 ∧ 4 ≤ 5 ∧ (4 < 5 → 4 = 4).
Proof.
  split; [reflexivity |]. split; [reflexivity |].
  exact (allowedRangeFor_envelope
           [mkEventBlock 4 4 (str "A"); mkEventBlock 5 10 (str "B")]
           None 5 5 5 5 4 4 eq_refl eq_refl).
Defined.

(** X25.  A proposal that meets no obstruction comes back normalised and
    otherwise unchanged: when no interval that the resolver considers
    overlaps the clamped and ordered proposal, that range is the result,
    and it lies within the grid.  On a row with no other interval every
    proposal is therefore just clamped and ordered. *)
Theorem allowedRangeFor_free_proposal rw ex s0 e0 s e :
  normalize s0 e0 = (s, e) →
  (∀ o, o ∈ others ex rw → rangeOverlaps s e (start o) (end_ o) = false) →
  allowedRangeFor rw ex s0 e0 = (s, e)
  ∧ 0 ≤ s ∧ s ≤ e ∧ e < TOTAL_SLOTS.
Proof.
  intros Hn Hclear. split.
  - apply allowedRangeFor_fixed; [done |].
    intros o Ho. by apply snap_no_overlap, Hclear.
  - apply normalize_bounds in Hn as ((? & ?) & (? & ?) & ?). lia.
Qed.

Lemma allowedRangeFor_free_proposal_witness :
  allowedRangeFor [] None 50 (-3) = (0, 43)
  ∧ 0 ≤ 0 ∧ 0 ≤ 43 ∧ 43 < TOTAL_SLOTS.
Proof.
  apply (allowedRangeFor_free_proposal [] None 50 (-3) 0 43 eq_refl).
  intros o Ho. by apply elem_of_nil in Ho.
Defined.

(** ** Resizing to the right *)

Lemma foldl_snap_right iStart iEnd l : ∀ e,
  iStart ≤ iEnd → iStart ≤ e →
  (∀ o, o ∈ l → start o ≤ end_ o ∧ ¬ (iStart ≤ end_ o ∧ start o ≤ iEnd)) →
  ∃ e', foldl snap (iStart, e) l = (iStart, e')
        ∧ iStart ≤ e' ∧ e' ≤ e
        ∧ (∀ o, o ∈ l → ¬ (iStart ≤ end_ o ∧ start o ≤ e'))
        ∧ (e' = e ∨ ∃ o, o ∈ l ∧ start o = e' + 1).
Proof.
  induction l as [| o l IH]; intros e Hse He Hl; cbn [foldl].
  - exists e. split_and!; [done | done | lia | | by left].
    by intros o Ho%elem_of_nil.
  - destruct (Hl o (list_elem_of_here _ _)) as [Hwf Hclear].
    assert (∃ e1, snap (iStart, e) o = (iStart, e1) ∧ iStart ≤ e1 ∧ e1 ≤ e
                  ∧ ¬ (iStart ≤ end_ o ∧ start o ≤ e1)
                  ∧ (e1 = e ∨ start o = e1 + 1)) as (e1 & -> & ? & ? & ? & Hor).
    { unfold snap, rangeOverlaps. repeat destr_cmp; try lia;
        (eexists; split; [reflexivity |]); lia. }
    destruct (IH e1) as (e' & -> & ? & ? & Hrest & Hor'); [done | done | |].
    { intros o' Ho'. apply Hl. by apply list_elem_of_further. }
    exists e'. split_and!; [done | done | lia | |].
    + intros o' [-> | Ho']%elem_of_cons; [lia | by apply Hrest].
    + destruct Hor' as [-> | (o' & Ho' & Hs)].
      * destruct Hor as [-> | Hs]; [by left |].
        right. exists o. split; [apply list_elem_of_here | done].
      * right. exists o'. split; [by apply list_elem_of_further | done].
Qed.

(** The resolver on a resize-right proposal, in a row whose other
    intervals are clear of the range being resized. *)
Lemma resize_right_resolve rw i iStart iEnd slot :
  slotOk iStart → iStart ≤ iEnd → othersClearOf rw i iStart iEnd →
  ∃ e, allowedRangeFor rw (Some i) iStart (Z.max slot iStart) = (iStart, e)
       ∧ iStart ≤ e ∧ e < TOTAL_SLOTS
       ∧ othersClearOf rw i iStart e
       ∧ (e = clamp (Z.max slot iStart) 0 (TOTAL_SLOTS - 1)
          ∨ ∃ j o, j ≠ i ∧ rw !! j = Some o ∧ start o = e + 1).
Proof.
  intros Hs Hse Hclear. unfold allowedRangeFor.
  assert (normalize iStart (Z.max slot iStart)
          = (iStart, clamp (Z.max slot iStart) 0 (TOTAL_SLOTS - 1))) as ->.
  { unfold normalize. rewrite (clamp_id iStart) by done.
    unfold slotOk, clamp in *. rewrite TOTAL_SLOTS_eq in *.
    destr_cmp; [lia | done]. }
  assert (iStart ≤ clamp (Z.max slot iStart) 0 (TOTAL_SLOTS - 1)
          ∧ clamp (Z.max slot iStart) 0 (TOTAL_SLOTS - 1) < TOTAL_SLOTS)
    as [Hlo Hhi].
  { unfold slotOk, clamp in *. rewrite TOTAL_SLOTS_eq in *. lia. }
  destruct (foldl_snap_right iStart iEnd (others (Some i) rw)
              (clamp (Z.max slot iStart) 0 (TOTAL_SLOTS - 1)))
    as (e & -> & He1 & He2 & Hrest & Hor); [done | done | |].
  { intros o (j & Hj & Hne)%elem_of_others. apply (Hclear j o); congruence. }
  exists e. split_and!; [| done | lia | |].
  - apply finalize_id; unfold slotOk in *; lia.
  - intros j o Hji Hj. split; [by apply (Hclear j o) |].
    apply Hrest. apply elem_of_others. exists j. split; congruence.
  - destruct Hor as [-> | (o & (j & Hj & Hne)%elem_of_others & Hs')];
      [by left |].
    right. exists j, o. split_and!; congruence.
Qed.

Lemma rowNoOverlap_insert rw i x :
  rowNoOverlap rw →
  (∀ j o, j ≠ i → rw !! j = Some o → ¬ overlap x o) →
  rowNoOverlap (<[i := x]> rw).
Proof.
  intros Hno Hx j k a b Hjk Hj Hk.
  apply list_lookup_insert_Some in Hj as [(-> & <- & _) | [Hji Hj]];
    apply list_lookup_insert_Some in Hk as [(-> & <- & _) | [Hki Hk]].
  - done.
  - by apply (Hx k b).
  - intros [? ?]. apply (Hx j a); [done.. |]. by split.
  - by apply (Hno j k a b).
Qed.

Lemma allNoOverlap_insert evs r rw :
  allNoOverlap evs → rowNoOverlap rw → allNoOverlap (<[r := rw]> evs).
Proof.
  intros Hevs Hrw rw' [j Hj]%list_elem_of_lookup.
  apply list_lookup_insert_Some in Hj as [(_ & <- & _) | [_ Hj]]; [done |].
  apply Hevs. by eapply list_elem_of_lookup_2.
Qed.

(** In a valid row the other intervals are clear of each interval. *)
Lemma othersClearOf_own rw i evt :
  rowNoOverlap rw → (∀ o, o ∈ rw → inBounds o) → rw !! i = Some evt →
  othersClearOf rw i (start evt) (end_ evt).
Proof.
  intros Hno Hb Hi j o Hji Hj. split.
  - destruct (Hb o) as (_ & ? & _); [by eapply list_elem_of_lookup_2 | done].
  - apply (Hno i j evt o); [congruence | done | done].
Qed.

Lemma findIndex_first {A} (p : A → bool) (l : list A) i x :
  l !! i = Some x → p x = true →
  ∃ j, findIndex p l = Some j ∧ (j ≤ i)%nat.
Proof.
  revert i. induction l as [| a l IH]; intros i; [done |].
  simpl. destruct (p a) eqn:Hpa.
  - intros _ _. exists 0%nat. split; [done | lia].
  - destruct i as [| i]; simpl.
    + intros [= ->]. congruence.
    + intros Hi Hx. destruct (IH i Hi Hx) as (j & -> & Hj).
      exists (S j). split; [done | lia].
Qed.

(** In a row without overlaps the cell lookup finds the interval that
    covers the slot. *)
Lemma findEventAt_covering rw i evt slot :
  rowNoOverlap rw → rw !! i = Some evt → covers evt slot →
  findEventAt rw slot = Some i.
Proof.
  intros Hno Hi [Hlo Hhi]. unfold findEventAt.
  destruct (findIndex_first
              (λ ev, (slot >=? start ev) && (slot <=? end_ ev)) rw i evt Hi)
    as (j & Hj & Hle).
  { apply andb_true_iff. split; [apply Z.geb_le; lia | by apply Z.leb_le]. }
  rewrite Hj. f_equal.
  apply findIndex_Some in Hj as (o & Ho & Hp & _).
  apply andb_true_iff in Hp as [Hp1%Z.geb_le Hp2%Z.leb_le].
  destruct (decide (j = i)) as [| Hne]; [done |].
  destruct (Hno j i o evt Hne Ho Hi). unfold overlap. lia.
Qed.

Lemma onMouseEnterCell_other_row st r s :
  row (drag st) ≠ Some r →
  isSelecting st && bool_decide (Some r = selectRow st) = false →
  onMouseEnterCell st r s = Some st.
Proof.
  intros Hrow Hsel. unfold onMouseEnterCell. rewrite Hsel.
  rewrite (bool_decide_eq_false_2 (row (drag st) = Some r)) by done.
  by rewrite andb_false_r.
Qed.

(** The state during a resize-right of the interval [evt] at index [i] of
    row [r], after it has been resized to end at [e]. *)
Lemma resize_right_enters evs r rw i evt enters : ∀ e,
  allNoOverlap evs → allInBounds evs →
  evs !! r = Some rw → rw !! i = Some evt → start evt < end_ evt →
  start evt ≤ e → e < TOTAL_SLOTS →
  othersClearOf rw i (start evt) e →
  ∃ st e',
    run (withDrag
           (idleState
              (<[r := <[i := mkEventBlock (start evt) e (title evt)]> rw]> evs))
           {| mode := ModeResizeRight; row := Some r; eventIndex := Some i;
              anchorSlot := Some (end_ evt);
              initialStart := Some (start evt);
              initialEnd := Some (end_ evt) |})
        ((λ p : nat * Z, MouseEnter p.1 p.2) <$> enters) = Some st
    ∧ events st
      = <[r := <[i := mkEventBlock (start evt) e' (title evt)]> rw]> evs
    ∧ start evt ≤ e' ∧ e' < TOTAL_SLOTS
    ∧ othersClearOf rw i (start evt) e'.
Proof.
  induction enters as [| [r' slot] enters IH];
    intros e Hno Hb Hr Hi Hspan Hlo Hhi Hclear.
  - eexists _, e. by split_and!.
  - rewrite fmap_cons. cbn [run step fst snd].
    assert (0 ≤ start evt) as H0.
    { destruct (Hb rw evt) as (? & _);
        [by eapply list_elem_of_lookup_2.. | done]. }
    destruct (decide (r' = r)) as [-> | Hrr].
    + set (rw1 := <[i := mkEventBlock (start evt) e (title evt)]> rw).
      assert ((<[r := rw1]> evs) !! r = Some rw1) as Hr1.
      { apply list_lookup_insert_eq. by eapply lookup_lt_Some. }
      rewrite (onMouseEnterCell_drag _ _ r i (start evt) (end_ evt)
                 (end_ evt) slot rw1) by done.
      cbn [mode].
      destruct (resize_right_resolve rw i (start evt) (end_ evt) slot)
        as (e1 & He1 & Hlo1 & Hhi1 & Hclear1 & _).
      { unfold slotOk. lia. }
      { lia. }
      { eapply othersClearOf_own; [by apply Hno; eapply list_elem_of_lookup_2
                                  | | done].
        intros o Ho. apply (Hb rw o); [by eapply list_elem_of_lookup_2 | done]. }
      assert (rw1 !! i = Some (mkEventBlock (start evt) e (title evt)))
        as Hi1.
      { apply list_lookup_insert_eq. by eapply lookup_lt_Some. }
      assert (allowedRangeFor rw1 (Some i) (start evt)
                (Z.max slot (start evt)) = (start evt, e1)) as ->.
      { unfold rw1. by rewrite allowedRangeFor_insert_excluded. }
      unfold applyTempUpdate. rewrite Hr1. cbn [mbind option_bind].
      rewrite Hi1.
      cbn [mbind option_bind fmap option_fmap option_map title].
      unfold rw1. rewrite !list_insert_insert_eq.
      apply (IH e1); done.
    + rewrite onMouseEnterCell_other_row; [| simpl; congruence | done].
      cbn [mbind option_bind]. by apply IH.
Qed.

(** X6.  A resize-right gesture keeps both invariants: from a state with
    no gesture in progress whose rows are in bounds and free of overlap,
    a pointer-down on the last slot of an interval that spans more than
    one slot, followed by pointer-enter events on any rows and slots,
    leaves every interval but the resized one untouched, keeps the
    resized interval's start and title, and ends in rows that are again
    in bounds and free of overlap. *)
Theorem resize_right_keeps_invariants evs r rw i evt
    (enters : list (nat * Z)) :
  allNoOverlap evs → allInBounds evs →
  evs !! r = Some rw → rw !! i = Some evt → start evt < end_ evt →
  ∃ st e,
    run (idleState evs)
        (MouseDown r (end_ evt)
         :: ((λ p : nat * Z, MouseEnter p.1 p.2) <$> enters)) = Some st
    ∧ events st
      = <[r := <[i := mkEventBlock (start evt) e (title evt)]> rw]> evs
    ∧ start evt ≤ e
    ∧ allNoOverlap (events st) ∧ allInBounds (events st).
Proof.
  intros Hno Hb Hr Hi Hspan.
  assert (rw ∈ evs) as Hrw by by eapply list_elem_of_lookup_2.
  assert (inBounds evt) as (H0 & _ & Hhi).
  { apply (Hb rw evt); [done | by eapply list_elem_of_lookup_2]. }
  cbn [run step].
  rewrite (onMouseDownCell_hit _ r (end_ evt) rw i evt); [| done | | done].
  2: { apply (findEventAt_covering rw i evt); [by apply Hno | done |].
       unfold covers. lia. }
  cbn [mbind option_bind].
  assert (classify evt (end_ evt) = ModeResizeRight) as ->.
  { unfold classify. repeat destr_cmp; try done; lia. }
  assert (idleState evs
          = idleState (<[r := <[i := mkEventBlock (start evt) (end_ evt)
                                         (title evt)]> rw]> evs)) as ->.
  { clear -Hr Hi. destruct evt as [s0 e0 t0]. cbn [start end_ title].
    rewrite (list_insert_id rw i) by done. by rewrite list_insert_id. }
  destruct (resize_right_enters evs r rw i evt enters (end_ evt))
    as (st & e & Hrun & Hev & Hlo & Hhi' & Hclear); try done; try lia.
  { apply othersClearOf_own; [by apply Hno | | done].
    intros o Ho. by apply (Hb rw o). }
  exists st, e. split_and!; [done | done | done | |]; rewrite Hev.
  - apply allNoOverlap_insert; [done |].
    apply rowNoOverlap_insert; [by apply Hno |].
    intros j o Hji Hj. destruct (Hclear j o Hji Hj) as [_ Hc].
    unfold overlap. simpl. done.
  - apply allInBounds_insert; [done |].
    intros ev [j Hj]%list_elem_of_lookup.
    apply list_lookup_insert_Some in Hj as [(_ & <- & _) | [_ Hj]].
    + unfold inBounds. simpl. lia.
    + apply (Hb rw ev); [done | by eapply list_elem_of_lookup_2].
Qed.

Lemma resize_right_keeps_invariants_witness :
  ∃ st e,
    run (idleState [[mkEventBlock 10 15 (str "A");
                     mkEventBlock 20 25 (str "B")]; []; []])
        (MouseDown 0 15
         :: ((λ p : nat * Z, MouseEnter p.1 p.2)
               <$> [(0%nat, 22); (1%nat, 3); (0%nat, 30)])) = Some st
    ∧ events st
      = <[0%nat := <[0%nat := mkEventBlock 10 e (str "A")]>
                     [mkEventBlock 10 15 (str "A");
                      mkEventBlock 20 25 (str "B")]]>
          [[mkEventBlock 10 15 (str "A"); mkEventBlock 20 25 (str "B")];
           []; []]
    ∧ 10 ≤ e
    ∧ allNoOverlap (events st) ∧ allInBounds (events st).
Proof.
  assert (validateRows [[mkEventBlock 10 15 (str "A");
                         mkEventBlock 20 25 (str "B")]; []; []] = true)
    as (_ & Hb & Hno)%validateRows_spec by reflexivity.
  apply (resize_right_keeps_invariants _ 0%nat _ 0%nat
           (mkEventBlock 10 15 (str "A")) _ Hno Hb eq_refl eq_refl).
  simpl. lia.
Defined.

(** X7.  On a resize-right proposal, in a row whose other intervals are
    clear of the pre-drag range, the resolver keeps the start and returns
    the longest free range: no other interval overlaps the result, and
    its end is the clamped pointer slot unless another interval starts
    in the very next slot. *)
Theorem resize_right_stops_at_neighbour rw i iStart iEnd slot :
  slotOk iStart → iStart ≤ iEnd → othersClearOf rw i iStart iEnd →
  ∃ e, allowedRangeFor rw (Some i) iStart (Z.max slot iStart) = (iStart, e)
       ∧ iStart ≤ e ∧ e < TOTAL_SLOTS
       ∧ othersClearOf rw i iStart e
       ∧ (e = clamp (Z.max slot iStart) 0 (TOTAL_SLOTS - 1)
          ∨ ∃ j o, j ≠ i ∧ rw !! j = Some o ∧ start o = e + 1).
Proof. apply resize_right_resolve. Qed.

Lemma resize_right_stops_at_neighbour_witness :
  ∃ e, allowedRangeFor
         [mkEventBlock 10 15 (str "A"); mkEventBlock 20 25 (str "B")]
         (Some 0%nat) 10 (Z.max 22 10) = (10, e)
       ∧ 10 ≤ e ∧ e < TOTAL_SLOTS
       ∧ othersClearOf
           [mkEventBlock 10 15 (str "A"); mkEventBlock 20 25 (str "B")]
           0 10 e
       ∧ (e = clamp (Z.max 22 10) 0 (TOTAL_SLOTS - 1)
          ∨ ∃ j o, j ≠ 0%nat
                   ∧ [mkEventBlock 10 15 (str "A");
                      mkEventBlock 20 25 (str "B")] !! j = Some o
                   ∧ start o = e + 1).
Proof.
  apply (resize_right_stops_at_neighbour _ 0%nat 10 15 22).
  - unfold slotOk. rewrite TOTAL_SLOTS_eq. lia.
  - lia.
  - intros [| [| j]] o Hj Ho; simpl in Ho; simplify_eq; simpl; lia.
Defined.

(** * Further properties of the gesture handlers *)

(** What a pointer-enter can do to the state. *)
Lemma onMouseEnterCell_cases st r slot st' :
  onMouseEnterCell st r slot = Some st' →
  st' = st
  ∨ (isSelecting st = true ∧ selectRow st = Some r
     ∧ st' = {| events := events st; isSelecting := isSelecting st;
                selectRow := selectRow st; selectStart := selectStart st;
                selectCurrent := Some slot; drag := drag st |})
  ∨ ∃ rw i original a b s e,
      isSelecting st && bool_decide (Some r = selectRow st) = false
      ∧ bool_decide (mode (drag st) ≠ ModeNone)
        && bool_decide (row (drag st) = Some r) = true
      ∧ eventIndex (drag st) = Some i
      ∧ events st !! r = Some rw ∧ rw !! i = Some original
      ∧ allowedRangeFor rw (Some i) a b = (s, e)
      ∧ st' = withEvents st
                (<[r := <[i := {| start := s; end_ := e;
                                  title := title original |}]> rw]>
                   (events st)).
Proof.
  unfold onMouseEnterCell.
  destruct (isSelecting st && bool_decide (Some r = selectRow st)) eqn:Hsel.
  { intros [= <-]. right. left.
    apply andb_true_iff in Hsel as [-> Hrow%bool_decide_eq_true]. done. }
  destruct (bool_decide (mode (drag st) ≠ ModeNone)
            && bool_decide (row (drag st) = Some r)) eqn:Hcond;
    [| intros [= <-]; by left].
  destruct (eventIndex (drag st)) as [i|] eqn:Hi; [| intros [= <-]; by left].
  destruct (initialStart (drag st)) as [iStart|]; [| intros [= <-]; by left].
  destruct (initialEnd (drag st)) as [iEnd|]; [| intros [= <-]; by left].
  destruct (anchorSlot (drag st)) as [anchor|]; [| intros [= <-]; by left].
  assert (∀ a b,
    (rw ← events st !! r;
     let '(s, e) := allowedRangeFor rw (Some i) a b in
     withEvents st <$> applyTempUpdate (events st) r i s e) = Some st' →
    ∃ rw original s e,
      events st !! r = Some rw ∧ rw !! i = Some original
      ∧ allowedRangeFor rw (Some i) a b = (s, e)
      ∧ st' = withEvents st
                (<[r := <[i := {| start := s; end_ := e;
                                  title := title original |}]> rw]>
                   (events st))) as Hupd.
  { intros a b. unfold applyTempUpdate.
    destruct (events st !! r) as [rw|] eqn:Hr; simpl; [| done].
    destruct (allowedRangeFor rw (Some i) a b) as [s e] eqn:Hres.
    destruct (rw !! i) as [original|] eqn:Ho; simpl; [| done].
    intros [= <-]. by exists rw, original, s, e. }
  destruct (mode (drag st)); try (intros [= <-]; by left).
  - destruct (moveCandidate iStart iEnd anchor slot) as [a b].
    intros (rw & o & s & e & ? & ? & ? & ?)%Hupd.
    right. right. by exists rw, i, o, a, b, s, e.
  - intros (rw & o & s & e & ? & ? & ? & ?)%Hupd.
    right. right. by exists rw, i, o, (Z.min slot iEnd), iEnd, s, e.
  - intros (rw & o & s & e & ? & ? & ? & ?)%Hupd.
    right. right. by exists rw, i, o, iStart, (Z.max slot iStart), s, e.
Qed.

(** X8.  As long as the index held by the drag state points into the row
    entered, a pointer-enter never changes the gesture state apart from
    the current slot of a selection, never changes a row other than the
    one entered, and leaves the number, the order and the titles of the
    intervals of every row as they were; the handler over arrays gives
    the same state. *)
Theorem onMouseEnterCell_preserves st r slot st' :
  dragIndexInRow st r →
  onMouseEnterCell st r slot = Some st' →
  Arrays.onMouseEnterCell (embed st) r slot = Some (embed st')
  ∧ dragIndexInRow st' r
  ∧ drag st' = drag st
  ∧ isSelecting st' = isSelecting st
  ∧ selectRow st' = selectRow st
  ∧ selectStart st' = selectStart st
  ∧ (∀ r', r' ≠ r → events st' !! r' = events st !! r')
  ∧ (λ rw : list EventBlock, title <$> rw) <$> events st'
    = (λ rw : list EventBlock, title <$> rw) <$> events st.
Proof.
  intros Hidx Henter.
  split; [by apply Arrays_onMouseEnterCell_embed |].
  destruct (onMouseEnterCell_cases _ _ _ _ Henter) as [-> | [(_ & _ & ->) |
    (rw & i & o & a & b & s & e & _ & _ & _ & Hr & Hi & _ & ->)]];
    [done | done |].
  split_and!; [| done.. | |]; simpl.
  - intros i' rw'. simpl.
    rewrite list_lookup_insert_eq by by eapply lookup_lt_Some.
    intros Hi' [= <-]. rewrite length_insert. by apply Hidx.
  - intros r' Hne. by rewrite list_lookup_insert_ne.
  - rewrite list_fmap_insert, list_fmap_insert. simpl.
    rewrite (list_insert_id (title <$> rw)).
    + apply list_insert_id. by rewrite list_lookup_fmap, Hr.
    + by rewrite list_lookup_fmap, Hi.
Qed.

Lemma onMouseEnterCell_preserves_witness :
  dragIndexInRow
    (withDrag
       (idleState [[mkEventBlock 10 15 (str "A");
                    mkEventBlock 20 25 (str "B")]; []; []])
       {| mode := ModeResizeRight; row := Some 0%nat;
          eventIndex := Some 0%nat; anchorSlot := Some 15;
          initialStart := Some 10; initialEnd := Some 15 |}) 0
  ∧ (λ rw : list EventBlock, title <$> rw)
      <$> [[mkEventBlock 10 19 (str "A"); mkEventBlock 20 25 (str "B")];
           []; []]
    = (λ rw : list EventBlock, title <$> rw)
      <$> [[mkEventBlock 10 15 (str "A"); mkEventBlock 20 25 (str "B")];
           []; []].
Proof.
  assert (dragIndexInRow
            (withDrag
               (idleState [[mkEventBlock 10 15 (str "A");
                            mkEventBlock 20 25 (str "B")]; []; []])
               {| mode := ModeResizeRight; row := Some 0%nat;
                  eventIndex := Some 0%nat; anchorSlot := Some 15;
                  initialStart := Some 10; initialEnd := Some 15 |}) 0)
    as Hidx.
  { intros i rw [= <-] [= <-]. simpl. lia. }
  split; [exact Hidx |].
  exact (proj2 (proj2 (proj2 (proj2 (proj2 (proj2 (proj2
    (onMouseEnterCell_preserves _ 0%nat 22
       (withDrag
          (idleState [[mkEventBlock 10 19 (str "A");
                       mkEventBlock 20 25 (str "B")]; []; []])
          {| mode := ModeResizeRight; row := Some 0%nat;
             eventIndex := Some 0%nat; anchorSlot := Some 15;
             initialStart := Some 10; initialEnd := Some 15 |})
       Hidx eq_refl)))))))).
Defined.

(** The write-back of a resolved range, and the same write-back after an
    earlier one on the same interval. *)
Lemma writeBack_inv st r i a b st' :
  (rw ← events st !! r;
   let '(s, e) := allowedRangeFor rw (Some i) a b in
   withEvents st <$> applyTempUpdate (events st) r i s e) = Some st' →
  ∃ rw original s e,
    events st !! r = Some rw ∧ rw !! i = Some original
    ∧ allowedRangeFor rw (Some i) a b = (s, e)
    ∧ st' = withEvents st
              (<[r := <[i := {| start := s; end_ := e;
                                title := title original |}]> rw]>
                 (events st)).
Proof.
  unfold applyTempUpdate.
  destruct (events st !! r) as [rw|] eqn:Hr; simpl; [| done].
  destruct (allowedRangeFor rw (Some i) a b) as [s e] eqn:Hres.
  destruct (rw !! i) as [original|] eqn:Ho; simpl; [| done].
  intros [= <-]. by exists rw, original, s, e.
Qed.

Lemma writeBack_again st r i rw o x a b :
  events st !! r = Some rw → rw !! i = Some o → title x = title o →
  (rw' ← <[r := <[i := x]> rw]> (events st) !! r;
   let '(s, e) := allowedRangeFor rw' (Some i) a b in
   withEvents (withEvents st (<[r := <[i := x]> rw]> (events st)))
     <$> applyTempUpdate (<[r := <[i := x]> rw]> (events st)) r i s e)
  = (rw' ← events st !! r;
     let '(s, e) := allowedRangeFor rw' (Some i) a b in
     withEvents st <$> applyTempUpdate (events st) r i s e).
Proof.
  intros Hr Hi Ht. unfold applyTempUpdate.
  rewrite list_lookup_insert_eq by by eapply lookup_lt_Some.
  rewrite Hr. cbn [mbind option_bind].
  rewrite allowedRangeFor_insert_excluded.
  destruct (allowedRangeFor rw (Some i) a b) as [s e].
  rewrite list_lookup_insert_eq by by eapply lookup_lt_Some.
  rewrite Hi. cbn [mbind option_bind fmap option_fmap option_map].
  by rewrite !list_insert_insert_eq, Ht.
Qed.

(** X9.  Pointer-enter events on one row do not accumulate: as long as
    the index held by the drag state points into the row, a second
    pointer-enter on that row after a first one gives the state that it
    would have given without the first. *)
Theorem onMouseEnterCell_last_wins st r slot1 slot2 st1 :
  dragIndexInRow st r →
  onMouseEnterCell st r slot1 = Some st1 →
  onMouseEnterCell st1 r slot2 = onMouseEnterCell st r slot2.
Proof.
  intros _. unfold onMouseEnterCell at 1.
  destruct (isSelecting st && bool_decide (Some r = selectRow st)) eqn:Hsel.
  { intros [= <-]. unfold onMouseEnterCell. simpl. by rewrite Hsel. }
  destruct (bool_decide (mode (drag st) ≠ ModeNone)
            && bool_decide (row (drag st) = Some r)) eqn:Hcond;
    [| by intros [= <-]].
  destruct (eventIndex (drag st)) as [i|] eqn:Hi; [| by intros [= <-]].
  destruct (initialStart (drag st)) as [iStart|] eqn:HiS; [| by intros [= <-]].
  destruct (initialEnd (drag st)) as [iEnd|] eqn:HiE; [| by intros [= <-]].
  destruct (anchorSlot (drag st)) as [anchor|] eqn:Ha; [| by intros [= <-]].
  assert (∀ a b a' b',
    (rw ← events st !! r;
     let '(s, e) := allowedRangeFor rw (Some i) a b in
     withEvents st <$> applyTempUpdate (events st) r i s e) = Some st1 →
    (rw ← events st1 !! r;
     let '(s, e) := allowedRangeFor rw (Some i) a' b' in
     withEvents st1 <$> applyTempUpdate (events st1) r i s e)
    = (rw ← events st !! r;
       let '(s, e) := allowedRangeFor rw (Some i) a' b' in
       withEvents st <$> applyTempUpdate (events st) r i s e)) as Hupd.
  { intros a b a' b' (rw & o & s & e & Hr & Ho & _ & ->)%writeBack_inv.
    by apply (writeBack_again st r i rw o). }
  destruct (mode (drag st)) eqn:Hm; try (by intros [= <-]).
  - destruct (moveCandidate iStart iEnd anchor slot1) as [a b].
    intros Hst1. pose proof Hst1 as (rw & o & s & e & _ & _ & _ & ->)%writeBack_inv.
    unfold onMouseEnterCell.
    cbn [isSelecting selectRow drag events withEvents] in *.
    rewrite Hsel, Hm, Hcond, Hi, HiS, HiE, Ha.
    destruct (moveCandidate iStart iEnd anchor slot2) as [a' b'].
    apply (Hupd a b a' b' Hst1).
  - intros Hst1. pose proof Hst1 as (rw & o & s & e & _ & _ & _ & ->)%writeBack_inv.
    unfold onMouseEnterCell.
    cbn [isSelecting selectRow drag events withEvents] in *.
    rewrite Hsel, Hm, Hcond, Hi, HiS, HiE, Ha.
    apply (Hupd _ _ _ _ Hst1).
  - intros Hst1. pose proof Hst1 as (rw & o & s & e & _ & _ & _ & ->)%writeBack_inv.
    unfold onMouseEnterCell.
    cbn [isSelecting selectRow drag events withEvents] in *.
    rewrite Hsel, Hm, Hcond, Hi, HiS, HiE, Ha.
    apply (Hupd _ _ _ _ Hst1).
Qed.

Lemma onMouseEnterCell_last_wins_witness :
  dragIndexInRow
    (withDrag
       (idleState [[mkEventBlock 10 15 (str "A");
                    mkEventBlock 20 25 (str "B")]; []; []])
       {| mode := ModeResizeRight; row := Some 0%nat;
          eventIndex := Some 0%nat; anchorSlot := Some 15;
          initialStart := Some 10; initialEnd := Some 15 |}) 0
  ∧ onMouseEnterCell
      (withDrag
         (idleState [[mkEventBlock 10 19 (str "A");
                      mkEventBlock 20 25 (str "B")]; []; []])
         {| mode := ModeResizeRight; row := Some 0%nat;
            eventIndex := Some 0%nat; anchorSlot := Some 15;
            initialStart := Some 10; initialEnd := Some 15 |}) 0 17
    = onMouseEnterCell
        (withDrag
           (idleState [[mkEventBlock 10 15 (str "A");
                        mkEventBlock 20 25 (str "B")]; []; []])
           {| mode := ModeResizeRight; row := Some 0%nat;
              eventIndex := Some 0%nat; anchorSlot := Some 15;
              initialStart := Some 10; initialEnd := Some 15 |}) 0 17.
Proof.
  assert (dragIndexInRow
            (withDrag
               (idleState [[mkEventBlock 10 15 (str "A");
                            mkEventBlock 20 25 (str "B")]; []; []])
               {| mode := ModeResizeRight; row := Some 0%nat;
                  eventIndex := Some 0%nat; anchorSlot := Some 15;
                  initialStart := Some 10; initialEnd := Some 15 |}) 0)
    as Hidx.
  { intros i rw [= <-] [= <-]. simpl. lia. }
  split; [exact Hidx |].
  exact (onMouseEnterCell_last_wins _ 0%nat 22 17 _ Hidx eq_refl).
Defined.

(** What the create flow does to the rows. *)
Lemma commitCreate_cases st answer evs :
  commitCreate st answer = Some evs →
  evs = events st
  ∨ ∃ r rw selStart selCurrent t,
      isSelecting st = true ∧ selectRow st = Some r
      ∧ selectStart st = Some selStart ∧ selectCurrent st = Some selCurrent
      ∧ answer = Some t ∧ trim t ≠ []
      ∧ events st !! r = Some rw
      ∧ evs = <[r := rw ++ [{| start := Z.min selStart selCurrent;
                               end_ := Z.max selStart selCurrent;
                               title := trim t |}]]> (events st).
Proof.
  unfold commitCreate.
  destruct (isSelecting st); [| intros [= <-]; by left].
  destruct (selectRow st) as [r|]; [| intros [= <-]; by left].
  destruct (selectStart st) as [ss|]; [| intros [= <-]; by left].
  destruct (selectCurrent st) as [sc|]; [| intros [= <-]; by left].
  destruct answer as [t|]; [| intros [= <-]; by left].
  destruct (truthy t && truthy (trim t)) eqn:Ht; [| intros [= <-]; by left].
  destruct (events st !! r) as [rw|] eqn:Hr; simpl; [| done].
  intros [= <-]. right. exists r, rw, ss, sc, t.
  split_and!; try done.
  apply andb_true_iff in Ht as [_ Ht]. by destruct (trim t).
Qed.

(** X10.  A pointer-up always ends the gesture: the state it leaves has no
    selection and no drag.  It never removes or alters an interval: either
    the rows are exactly as they were, or one interval, spanning the
    selection and with a title that is not empty, has been appended to
    the one row of the selection, every other row being as it was. *)
Theorem handleMouseUp_resets_and_appends st answer st' :
  handleMouseUp st answer = Some st' →
  st' = idleState (events st')
  ∧ length (events st') = length (events st)
  ∧ (events st' = events st
     ∨ ∃ r rw ev,
         selectRow st = Some r ∧ events st !! r = Some rw
         ∧ events st' = <[r := rw ++ [ev]]> (events st)
         ∧ title ev ≠ []
         ∧ ∃ selStart selCurrent,
             selectStart st = Some selStart
             ∧ selectCurrent st = Some selCurrent
             ∧ start ev = Z.min selStart selCurrent
             ∧ end_ ev = Z.max selStart selCurrent).
Proof.
  unfold handleMouseUp.
  destruct (commitCreate st answer) as [evs|] eqn:Hc; simpl; [| done].
  intros [= <-]. split; [done |]. simpl.
  apply commitCreate_cases in Hc
    as [-> | (r0 & rw0 & ss & sc & t & _ & Hsel & Hss & Hsc & _ & Ht & Hr0 & ->)].
  - split; [done | by left].
  - split; [by rewrite length_insert |]. right.
    exists r0, rw0, {| start := Z.min ss sc; end_ := Z.max ss sc;
                       title := trim t |}.
    split_and!; [done | done | done | done |]. by exists ss, sc.
Qed.

Lemma handleMouseUp_resets_and_appends_witness :
  handleMouseUp
    (mkState [[mkEventBlock 20 25 (str "B")]; []; []] true (Some 0%nat)
       (Some 9) (Some 4) noDrag) (Some (str " Standup "))
  = Some (idleState [[mkEventBlock 20 25 (str "B");
                      mkEventBlock 4 9 (str "Standup")]; []; []])
  ∧ (events (idleState [[mkEventBlock 20 25 (str "B");
                         mkEventBlock 4 9 (str "Standup")]; []; []])
     = [[mkEventBlock 20 25 (str "B")]; []; []]
     ∨ ∃ r rw ev,
         Some 0%nat = Some r
         ∧ [[mkEventBlock 20 25 (str "B")]; []; []] !! r = Some rw
         ∧ [[mkEventBlock 20 25 (str "B"); mkEventBlock 4 9 (str "Standup")];
            []; []]
           = <[r := rw ++ [ev]]> [[mkEventBlock 20 25 (str "B")]; []; []]
         ∧ title ev ≠ []
         ∧ ∃ selStart selCurrent,
             Some 9 = Some selStart ∧ Some 4 = Some selCurrent
             ∧ start ev = Z.min selStart selCurrent
             ∧ end_ ev = Z.max selStart selCurrent).
Proof.
  split; [reflexivity |].
  exact (proj2 (proj2 (handleMouseUp_resets_and_appends
    (mkState [[mkEventBlock 20 25 (str "B")]; []; []] true (Some 0%nat)
       (Some 9) (Some 4) noDrag)
    (Some (str " Standup "))
    (idleState [[mkEventBlock 20 25 (str "B");
                 mkEventBlock 4 9 (str "Standup")]; []; []]) eq_refl))).
Defined.

Lemma findEventAt_None rw slot :
  findEventAt rw slot = None ↔ ∀ o, o ∈ rw → ¬ covers o slot.
Proof.
  unfold findEventAt, covers. induction rw as [| a rw IH]; simpl.
  - split; [by intros _ o ?%elem_of_nil | done].
  - destruct ((slot >=? start a) && (slot <=? end_ a)) eqn:Hp.
    + apply andb_true_iff in Hp as [Hp1%Z.geb_le Hp2%Z.leb_le].
      split; [done |]. intros Hall.
      destruct (Hall a); [apply list_elem_of_here | lia].
    + rewrite fmap_None, IH. split.
      * intros Hall o [-> | Ho]%elem_of_cons; [| by apply Hall].
        apply andb_false_iff in Hp as [Hp | Hp%Z.leb_gt];
          [rewrite Z.geb_leb in Hp; apply Z.leb_gt in Hp |]; lia.
      * intros Hall o Ho. apply Hall. by apply list_elem_of_further.
Qed.

(** The pointer-enter events of a selection in row [r]. *)
Lemma selecting_enters evs r a slots : ∀ cur,
  run {| events := evs; isSelecting := true; selectRow := Some r;
         selectStart := Some a; selectCurrent := Some cur; drag := noDrag |}
      ((λ s, MouseEnter r s) <$> slots)
  = Some {| events := evs; isSelecting := true; selectRow := Some r;
            selectStart := Some a;
            selectCurrent := Some (default cur (last (cur :: slots)));
            drag := noDrag |}.
Proof.
  induction slots as [| s slots IH]; intros cur; [done |].
  rewrite fmap_cons. cbn [run step]. unfold onMouseEnterCell at 1.
  cbn [isSelecting selectRow]. rewrite bool_decide_eq_true_2 by done.
  cbn [andb mbind option_bind events selectStart drag].
  rewrite IH. do 2 f_equal. f_equal.
  rewrite (last_cons_cons cur s slots).
  destruct (last (s :: slots)) eqn:Hl; [done |]. by apply last_None in Hl.
Qed.

(** X11.  The create gesture: with no gesture in progress, a pointer-down
    on a free cell [a] of row [r], pointer-enters on cells of that row and
    a pointer-up append to the row the range between [a] and the last
    cell entered ([a] itself for a plain click), with the trimmed title,
    when the prompt returns a title that is not blank; the machine is
    idle again and nothing else has changed.  When the prompt is
    cancelled or the title is blank, nothing is created. *)
Theorem create_gesture evs r rw a slots :
  evs !! r = Some rw → (∀ o, o ∈ rw → ¬ covers o a) →
  (∀ t, trim t ≠ [] →
     run (idleState evs)
         (MouseDown r a :: ((λ s, MouseEnter r s) <$> slots)
          ++ [MouseUp (Some t)])
     = Some (idleState
               (<[r := rw ++ [mkEventBlock
                                (Z.min a (default a (last (a :: slots))))
                                (Z.max a (default a (last (a :: slots))))
                                (trim t)]]> evs)))
  ∧ (∀ answer, (∀ t, answer = Some t → trim t = []) →
       run (idleState evs)
           (MouseDown r a :: ((λ s, MouseEnter r s) <$> slots)
            ++ [MouseUp answer])
       = Some (idleState evs)).
Proof.
  intros Hr Hfree%findEventAt_None.
  assert (∀ answer,
    run (idleState evs)
        (MouseDown r a :: ((λ s, MouseEnter r s) <$> slots)
         ++ [MouseUp answer])
    = handleMouseUp
        {| events := evs; isSelecting := true; selectRow := Some r;
           selectStart := Some a;
           selectCurrent := Some (default a (last (a :: slots)));
           drag := noDrag |} answer) as Hrun.
  { intros answer. cbn [run step]. unfold onMouseDownCell.
    cbn [events idleState]. rewrite Hr. cbn [mbind option_bind].
    rewrite Hfree. cbn [mbind option_bind].
    assert (∀ st l1 l2, run st (l1 ++ l2) = (st' ← run st l1; run st' l2))
      as Happ.
    { intros st l1. revert st. induction l1 as [| ev l1 IH]; intros st l2;
        [done |].
      cbn [app run]. destruct (step st ev); [apply IH | done]. }
    rewrite Happ. cbn [idleState isSelecting selectRow selectStart
                         selectCurrent drag].
    rewrite selecting_enters. cbn [mbind option_bind run step].
    by destruct (handleMouseUp _ answer). }
  split.
  - intros t Ht. rewrite Hrun. unfold handleMouseUp, commitCreate.
    cbn [isSelecting selectRow selectStart selectCurrent events].
    assert (truthy t && truthy (trim t) = true) as ->.
    { destruct t; [done |]. by destruct (trim _). }
    by rewrite Hr.
  - intros answer Hblank. rewrite Hrun. unfold handleMouseUp, commitCreate.
    cbn [isSelecting selectRow selectStart selectCurrent events].
    destruct answer as [t|]; [| done].
    rewrite (Hblank t eq_refl). by rewrite andb_false_r.
Qed.

Lemma create_gesture_witness :
  run (idleState [[]; []; []])
      (MouseDown 0 4 :: ((λ s, MouseEnter 0 s) <$> [5; 6; 7; 8; 9])
       ++ [MouseUp (Some (str "Standup"))])
  = Some (idleState [[mkEventBlock 4 9 (str "Standup")]; []; []]).
Proof.
  apply (proj1 (create_gesture [[]; []; []] 0%nat [] 4 [5; 6; 7; 8; 9]
                  eq_refl (λ o Ho, False_ind _ (proj1 (elem_of_nil o) Ho)))
           (str "Standup")).
  vm_compute. discriminate.
Defined.

(** X12.  A pointer-down on an occupied cell that is released without
    any pointer-enter changes nothing: the state is the idle state with
    the same rows, whatever the prompt would have returned. *)
Theorem click_on_interval_is_noop evs r rw i evt slot answer :
  evs !! r = Some rw → rw !! i = Some evt → covers evt slot →
  run (idleState evs) [MouseDown r slot; MouseUp answer]
  = Some (idleState evs).
Proof.
  intros Hr Hi [Hlo Hhi].
  destruct (findIndex_first
              (λ ev, (slot >=? start ev) && (slot <=? end_ ev)) rw i evt Hi)
    as (j & Hj & _).
  { apply andb_true_iff. split; [apply Z.geb_le; lia | by apply Z.leb_le]. }
  pose proof Hj as (o & Ho & _)%findIndex_Some.
  cbn [run step].
  rewrite (onMouseDownCell_hit _ r slot rw j o) by done.
  done.
Qed.

Lemma click_on_interval_is_noop_witness :
  run (idleState [[mkEventBlock 2 6 (str "A")]; []; []])
      [MouseDown 0 4; MouseUp (Some (str "B"))]
  = Some (idleState [[mkEventBlock 2 6 (str "A")]; []; []]).
Proof.
  apply (click_on_interval_is_noop _ 0%nat [mkEventBlock 2 6 (str "A")]
           0%nat (mkEventBlock 2 6 (str "A")) 4);
    [reflexivity | reflexivity | unfold covers; simpl; lia].
Defined.

(** ** Moving *)

Lemma moveCandidate_spec iStart iEnd anchor slot a b :
  moveCandidate iStart iEnd anchor slot = (a, b) →
  b - a = iEnd - iStart
  ∧ (0 ≤ iStart + (slot - anchor) →
     iEnd + (slot - anchor) ≤ TOTAL_SLOTS - 1 →
     a = iStart + (slot - anchor) ∧ b = iEnd + (slot - anchor))
  ∧ (0 ≤ iEnd - iStart → iEnd - iStart < TOTAL_SLOTS →
     0 ≤ a ∧ b < TOTAL_SLOTS).
Proof.
  unfold moveCandidate. rewrite TOTAL_SLOTS_eq.
  repeat destr_cmp; intros [= <- <-]; lia.
Qed.

(** X13.  For operands up to 2^50 in absolute value, the slots of the
    grid among them, the candidate range of a move has the length of the
    dragged interval; it is the plain translation by the pointer offset
    when that lies within the grid, and it lies within the grid whenever
    the interval is not longer than the grid. *)
Theorem moveCandidate_keeps_length iStart iEnd anchor slot a b :
  smallOperand iStart → smallOperand iEnd →
  smallOperand anchor → smallOperand slot →
  moveCandidate iStart iEnd anchor slot = (a, b) →
  b - a = iEnd - iStart
  ∧ (0 ≤ iStart + (slot - anchor) →
     iEnd + (slot - anchor) ≤ TOTAL_SLOTS - 1 →
     a = iStart + (slot - anchor) ∧ b = iEnd + (slot - anchor))
  ∧ (0 ≤ iEnd - iStart → iEnd - iStart < TOTAL_SLOTS →
     0 ≤ a ∧ b < TOTAL_SLOTS).
Proof. intros _ _ _ _. apply moveCandidate_spec. Qed.

Lemma moveCandidate_keeps_length_witness :
  smallOperand 2 ∧ smallOperand 6 ∧ smallOperand 4 ∧ smallOperand 42
  ∧ moveCandidate 2 6 4 42 = (39, 43)
  ∧ 43 - 39 = 6 - 2
  ∧ (0 ≤ 2 + (42 - 4) → 6 + (42 - 4) ≤ TOTAL_SLOTS - 1 →
     39 = 2 + (42 - 4) ∧ 43 = 6 + (42 - 4))
  ∧ (0 ≤ 6 - 2 → 6 - 2 < TOTAL_SLOTS → 0 ≤ 39 ∧ 43 < TOTAL_SLOTS).
Proof.
  assert (smallOperand 2 ∧ smallOperand 6 ∧ smallOperand 4 ∧ smallOperand 42)
    as (H1 & H2 & H3 & H4) by (unfold smallOperand; lia).
  split_and!; [done | done | done | done | reflexivity |
    apply (moveCandidate_keeps_length 2 6 4 42 39 43 H1 H2 H3 H4 eq_refl)..].
Defined.



(** * Deleting, clearing and loading *)

Lemma StronglySorted_sublist {A} (R : relation A) l1 l2 :
  l1 `sublist_of` l2 → StronglySorted R l2 → StronglySorted R l1.
Proof.
  induction 1 as [| x l1 l2 Hs IH | x l1 l2 Hs IH]; intros Hl2; [done | |].
  - inversion_clear Hl2 as [| ? ? Hl Hx]. constructor; [by apply IH |].
    apply Forall_forall. intros y Hy.
    eapply Forall_forall in Hx; [exact Hx |]. by eapply elem_of_sublist.
  - inversion_clear Hl2. by apply IH.
Qed.

Lemma invariants_sub evs evs' :
  length evs' = length evs →
  (∀ r rw', evs' !! r = Some rw' →
     ∃ rw, evs !! r = Some rw ∧ rw' `sublist_of` rw) →
  validateRows evs = true → validateRows evs' = true.
Proof.
  intros Hlen Hsub (Hl & Hb & Hno)%validateRows_spec.
  apply validateRows_spec. split_and!; [congruence | |].
  - intros rw' ev [r Hr]%list_elem_of_lookup Hev.
    destruct (Hsub r rw' Hr) as (rw & Hrw & Hs).
    apply (Hb rw ev); [by eapply list_elem_of_lookup_2 |].
    by eapply elem_of_sublist.
  - intros rw' [r Hr]%list_elem_of_lookup.
    destruct (Hsub r rw' Hr) as (rw & Hrw & Hs).
    apply rowNoOverlap_StronglySorted.
    eapply (StronglySorted_sublist _ rw' rw); [done |].
    apply rowNoOverlap_StronglySorted, Hno. by eapply list_elem_of_lookup_2.
Qed.

(** X15.  Deleting an interval, clearing a row and clearing everything
    keep a valid schedule valid: if the rows pass [validateRows] before,
    they pass it afterwards, whatever the indices given and whether or
    not the confirmation is granted; after a confirmed clear of
    everything the rows pass it in any case. *)
Theorem delete_and_clear_keep_validity st :
  (validateRows (events st) = true →
     (∀ r i, validateRows (events (removeEvent st r i)) = true)
     ∧ (∀ r c, validateRows (events (clearRow st r c)) = true)
     ∧ (∀ c, validateRows (events (handleClearAll st c)) = true))
  ∧ validateRows (events (handleClearAll st true)) = true.
Proof.
  split; [| reflexivity].
  intros Hv. split_and!.
  - intros r i. eapply invariants_sub; [| | exact Hv]; simpl.
    + apply length_imap.
    + intros r' rw'. rewrite list_lookup_imap.
      destruct (events st !! r') as [rw|]; simpl; [| done].
      intros [= <-]. exists rw. split; [done |].
      case_bool_decide; [done | apply sublist_delete].
  - intros r [|]; [| done]. eapply invariants_sub; [| | exact Hv]; simpl.
    + apply length_imap.
    + intros r' rw'. rewrite list_lookup_imap.
      destruct (events st !! r') as [rw|]; simpl; [| done].
      intros [= <-]. exists rw. split; [done |].
      case_bool_decide; [apply sublist_nil_l | done].
  - intros [|]; [reflexivity | done].
Qed.

Lemma delete_and_clear_keep_validity_witness :
  validateRows
    (events (removeEvent
               (idleState [[mkEventBlock 10 15 (str "A");
                            mkEventBlock 20 25 (str "B")]; []; []])
               0 0)) = true.
Proof.
  exact (proj1 (proj1 (delete_and_clear_keep_validity
    (idleState [[mkEventBlock 10 15 (str "A");
                 mkEventBlock 20 25 (str "B")]; []; []])) eq_refl)
    0%nat 0%nat).
Defined.

(** X16.  In a row without overlaps a cell belongs to at most one
    interval, and the cell lookup finds it: for the interval at index [i]
    and every slot it covers, [findEventAt] returns [i]; once that interval
    is deleted, the lookup finds nothing at any of its slots. *)
Theorem findEventAt_valid_row rw i evt slot :
  rowNoOverlap rw → rw !! i = Some evt → covers evt slot →
  findEventAt rw slot = Some i
  ∧ findEventAt (delete i rw) slot = None.
Proof.
  intros Hno Hi Hc. split; [by eapply findEventAt_covering |].
  apply findEventAt_None. intros o [j Hj]%list_elem_of_lookup Hco.
  rewrite list_lookup_delete in Hj.
  destruct Hc, Hco.
  case_decide.
  - apply (Hno j i o evt); [lia | done | done |]. unfold overlap. lia.
  - apply (Hno (S j) i o evt); [lia | done | done |]. unfold overlap. lia.
Qed.

Lemma findEventAt_valid_row_witness :
  findEventAt [mkEventBlock 10 15 (str "A"); mkEventBlock 20 25 (str "B")] 22
  = Some 1%nat
  ∧ findEventAt
      (delete 1%nat
         [mkEventBlock 10 15 (str "A"); mkEventBlock 20 25 (str "B")]) 22
    = None.
Proof.
  apply (findEventAt_valid_row _ 1%nat (mkEventBlock 20 25 (str "B")) 22);
    [| reflexivity | unfold covers; simpl; lia].
  intros [| [| j]] [| [| k]] a b Hjk Hj Hk; simpl in *; simplify_eq;
    unfold overlap; simpl; lia.
Defined.

(** * Rendering *)

Lemma find_findIndex {A} (p : A → bool) (l : list A) :
  List.find p l = findIndex p l ≫= λ i, l !! i.
Proof.
  induction l as [| a l IH]; simpl; [done |].
  destruct (p a); [done |]. rewrite IH.
  by destruct (findIndex p l).
Qed.

(** X17.  The title shown in a cell is the title of an interval that
    starts in that cell; in a row without overlaps every well-formed
    interval has its title shown in its first cell. *)
Theorem cellTitle_shows_titles rw :
  (∀ slot t, cellTitle rw slot = Some t →
     ∃ i evt, rw !! i = Some evt ∧ slot = start evt ∧ covers evt slot
              ∧ t = title evt)
  ∧ (rowNoOverlap rw →
     ∀ i evt, rw !! i = Some evt → start evt ≤ end_ evt →
       cellTitle rw (start evt) = Some (title evt)).
Proof.
  split.
  - intros slot t. unfold cellTitle. rewrite find_findIndex.
    destruct (findIndex _ rw) as [i|] eqn:Hf; simpl; [| done].
    apply findIndex_Some in Hf as (evt & Hi & Hp & _). rewrite Hi.
    apply andb_true_iff in Hp as [Hp1%Z.geb_le Hp2%Z.leb_le].
    destruct (Z.eqb_spec slot (start evt)) as [-> |]; [| done].
    intros [= <-]. exists i, evt. unfold covers. split_and!; [done.. | lia | done].
  - intros Hno i evt Hi Hse. unfold cellTitle. rewrite find_findIndex.
    fold (findEventAt rw (start evt)).
    rewrite (findEventAt_covering rw i evt) by (unfold covers; done || lia).
    simpl. rewrite Hi. by rewrite Z.eqb_refl.
Qed.

Lemma cellTitle_shows_titles_witness :
  cellTitle [mkEventBlock 10 15 (str "A"); mkEventBlock 20 25 (str "B")] 20
  = Some (str "B").
Proof.
  apply (proj2 (cellTitle_shows_titles
                  [mkEventBlock 10 15 (str "A"); mkEventBlock 20 25 (str "B")])
           ltac:(intros [| [| j]] [| [| k]] a b Hjk Hj Hk; simpl in *;
                 simplify_eq; unfold overlap; simpl; lia)
           1%nat (mkEventBlock 20 25 (str "B")) eq_refl).
  simpl. lia.
Defined.

(** Membership of a class name in a concrete list of names. *)
Ltac class_mem :=
  match goal with
  | |- _ ∈ _ => apply (bool_decide_unpack _); vm_compute; exact I
  | H : _ ∈ _ |- _ =>
      apply (bool_decide_pack _) in H; vm_compute in H; destruct H
  | |- _ ∉ _ => let H := fresh in intros H; class_mem
  end.

(** X18.  The cursor hints of a cell agree with the gesture a
    pointer-down on it starts: the class handle-left is present exactly
    when the gesture is a resize-left, handle-right exactly when it is a
    resize-right, and draggable exactly when it is a move of an interval
    of more than one slot (a single-slot interval is moved as well, but
    carries no hint).  A free cell carries none of these classes and is
    not marked as an event. *)
Theorem cursor_hints_match_gesture st r slot rw cls :
  events st !! r = Some rw → getCellClass st r slot = Some cls →
  (∀ i evt, findEventAt rw slot = Some i → rw !! i = Some evt →
     "event" ∈ classes cls
     ∧ ("handle-left" ∈ classes cls ↔ classify evt slot = ModeResizeLeft)
     ∧ ("handle-right" ∈ classes cls ↔ classify evt slot = ModeResizeRight)
     ∧ ("draggable" ∈ classes cls
        ↔ classify evt slot = ModeMove ∧ start evt ≠ end_ evt))
  ∧ (findEventAt rw slot = None →
     ("event" ∉ classes cls) ∧ ("handle-left" ∉ classes cls)
     ∧ ("handle-right" ∉ classes cls) ∧ ("draggable" ∉ classes cls)).
Proof.
  intros Hr. unfold getCellClass. rewrite Hr. cbn [mbind option_bind].
  rewrite find_findIndex. fold (findEventAt rw slot).
  set (c0 := if Z.rem slot SLOTS_PER_HOUR =? 0
             then ("slot" +:+ " hour-boundary")%string else "slot").
  assert (∃ c1,
    match selectStart st, selectCurrent st with
    | Some selStart, Some selCurrent =>
        if isSelecting st && bool_decide (selectRow st = Some r) then
          if (slot >=? Z.min selStart selCurrent)
             && (slot <=? Z.max selStart selCurrent)
          then c0 +:+ " selecting" else c0
        else c0
    | _, _ => c0
    end = c1
    ∧ ((c1 = "slot") ∨ (c1 = "slot hour-boundary")
       ∨ (c1 = "slot selecting")
       ∨ (c1 = "slot hour-boundary selecting"))) as (c1 & -> & Hc1).
  { eexists. split; [reflexivity |]. subst c0.
    destruct (Z.rem slot SLOTS_PER_HOUR =? 0);
      destruct (selectStart st) as [ss|]; try (simpl; tauto);
      destruct (selectCurrent st) as [sc|]; try (simpl; tauto);
      destruct (isSelecting st && bool_decide (selectRow st = Some r));
      try (simpl; tauto);
      destruct ((slot >=? Z.min ss sc) && (slot <=? Z.max ss sc));
      simpl; tauto. }
  clear c0.
  destruct (findEventAt rw slot) as [i|] eqn:Hf; cbn [mbind option_bind].
  - pose proof Hf as (evt & Hi & Hp & _)%findIndex_Some. rewrite Hi.
    apply andb_true_iff in Hp as [Hp1%Z.geb_le Hp2%Z.leb_le].
    intros [= <-]. split; [| done].
    intros i' evt' [= <-]. rewrite Hi. intros [= <-].
    unfold classify.
    destruct Hc1 as [-> | [-> | [-> | ->]]];
      repeat destr_cmp; try lia;
      (split_and!; [class_mem | split; intros Hcls | split; intros Hcls
                   | split; [intros Hcls | intros [Hcls ?]]]);
      first [done | lia | class_mem].
  - intros [= <-]. split; [done |]. intros _.
    destruct Hc1 as [-> | [-> | [-> | ->]]]; split_and!; class_mem.
Qed.

Lemma cursor_hints_match_gesture_witness :
  "handle-right"
    ∈ classes "slot hour-boundary event end handle-right"
  ↔ classify (mkEventBlock 4 8 (str "A")) 8 = ModeResizeRight.
Proof.
  exact (proj1 (proj2 (proj2 (proj1 (cursor_hints_match_gesture
    (idleState [[mkEventBlock 4 8 (str "A")]; []; []]) 0%nat 8
    [mkEventBlock 4 8 (str "A")]
    "slot hour-boundary event end handle-right" eq_refl eq_refl)
    0%nat (mkEventBlock 4 8 (str "A")) eq_refl eq_refl)))).
Defined.

(** * Loading *)

Lemma withEvents_same st : withEvents st (events st) = st.
Proof. by destruct st. Qed.


(** X20.  Whatever [loadFromStorage] returns can be saved and loaded
    again: saving the rows of a loaded schedule and loading the result
    gives a schedule with these rows. *)
Theorem loaded_rows_reload stored p now :
  loadFromStorage stored = Some p →
  version p = 1 ∧ stored = Some p
  ∧ loadFromStorage (saveToStorage now (rows p))
    = Some (makeSchedule now (rows p)).
Proof.
  unfold loadFromStorage, saveToStorage. destruct stored as [q|]; [| done].
  destruct (Z.eqb_spec (version q) 1); simpl; [| done].
  destruct (validateRows (rows q)) eqn:Hv; simpl; [| done].
  intros [= <-]. by rewrite Hv.
Qed.

Lemma loaded_rows_reload_witness :
  loadFromStorage
    (saveToStorage (str "later")
       [[mkEventBlock 16 19 (str "A"); mkEventBlock 20 25 (str "B")]; []; []])
  = Some (makeSchedule (str "later")
            [[mkEventBlock 16 19 (str "A"); mkEventBlock 20 25 (str "B")];
             []; []]).
Proof.
  exact (proj2 (proj2 (loaded_rows_reload
    (Some (mkSchedule 1 (str "before")
             [[mkEventBlock 16 19 (str "A"); mkEventBlock 20 25 (str "B")];
              []; []]))
    _ (str "later") eq_refl))).
Defined.

(** * Time labels *)

Lemma slotOk_grid s :
  slotOk s → s ∈ Z.of_nat <$> seq 0 (Z.to_nat TOTAL_SLOTS).
Proof.
  intros [Hlo Hhi]. apply list_elem_of_fmap. exists (Z.to_nat s).
  split; [lia |]. apply elem_of_seq. lia.
Qed.

(** X21.  On the grid the labels tell the cells apart: two slots with the
    same tooltip ([timeForSlot]) are the same slot, and so are two slots
    with the same header label ([shortTimeLabel]). *)
Theorem time_labels_injective s1 s2 :
  slotOk s1 → slotOk s2 →
  (timeForSlot s1 = timeForSlot s2 → s1 = s2)
  ∧ (shortTimeLabel s1 = shortTimeLabel s2 → s1 = s2).
Proof.
  intros H1%slotOk_grid H2%slotOk_grid.
  assert (∀ f : Z → string,
    forallb (λ a, forallb (λ b, implb (String.eqb (f a) (f b)) (a =? b))
                    (Z.of_nat <$> seq 0 (Z.to_nat TOTAL_SLOTS)))
      (Z.of_nat <$> seq 0 (Z.to_nat TOTAL_SLOTS)) = true →
    f s1 = f s2 → s1 = s2) as Hinj.
  { intros f Hall Heq.
    rewrite forallb_elem_of in Hall. specialize (Hall s1 H1).
    rewrite forallb_elem_of in Hall. specialize (Hall s2 H2).
    rewrite Heq, String.eqb_refl in Hall. by apply Z.eqb_eq. }
  split; apply Hinj; by vm_compute.
Qed.

Lemma time_labels_injective_witness :
  (timeForSlot 12 = timeForSlot 13 → 12 = 13)
  ∧ (shortTimeLabel 12 = shortTimeLabel 13 → 12 = 13).
Proof.
  apply time_labels_injective; unfold slotOk; rewrite TOTAL_SLOTS_eq; lia.
Defined.

(** X22.  The tooltip of a grid cell denotes the time of day of its slot:
    it reads [h:mm AM] or [h:mm PM] with [1 ≤ h ≤ 12] and
    [0 ≤ mm < 60] printed with two digits, and counting [h] modulo 12,
    plus 12 hours for PM, these are the [START_HOUR * 60 + 15 * slot]
    minutes since midnight. *)
Theorem timeForSlot_denotes_time slot :
  slotOk slot →
  ∃ h m (pm : bool),
    timeForSlot slot
    = (toString h +:+ ":" +:+ padStart 2 "0"%char (toString m) +:+ " "
       +:+ (if pm then "PM" else "AM"))%string
    ∧ 1 ≤ h ∧ h ≤ 12 ∧ 0 ≤ m ∧ m < 60
    ∧ String.length (padStart 2 "0"%char (toString m)) = 2%nat
    ∧ (h `mod` 12 + (if pm then 12 else 0)) * 60 + m
      = START_HOUR * 60 + 15 * slot.
Proof.
  intros Hs%slotOk_grid.
  set (total := START_HOUR * 60 + slot * (60 / SLOTS_PER_HOUR)).
  exists (Z.rem (total / 60 + 11) 12 + 1), (Z.rem total 60),
         (negb (total / 60 <? 12)).
  split.
  { unfold timeForSlot. fold total. by destruct (total / 60 <? 12). }
  subst total. revert slot Hs. apply Forall_forall.
  apply (Forall_impl (λ slot,
    let total := START_HOUR * 60 + slot * (60 / SLOTS_PER_HOUR) in
    ((1 <=? Z.rem (total / 60 + 11) 12 + 1)
     && (Z.rem (total / 60 + 11) 12 + 1 <=? 12)
     && (0 <=? Z.rem total 60) && (Z.rem total 60 <? 60)
     && (String.length (padStart 2 "0"%char (toString (Z.rem total 60)))
         =? 2)%nat
     && (((Z.rem (total / 60 + 11) 12 + 1) `mod` 12
          + (if negb (total / 60 <? 12) then 12 else 0)) * 60
         + Z.rem total 60 =? START_HOUR * 60 + 15 * slot)) = true)).
  - apply Forall_forall. intros slot Hslot.
    assert (forallb (λ slot,
      let total := START_HOUR * 60 + slot * (60 / SLOTS_PER_HOUR) in
      (1 <=? Z.rem (total / 60 + 11) 12 + 1)
      && (Z.rem (total / 60 + 11) 12 + 1 <=? 12)
      && (0 <=? Z.rem total 60) && (Z.rem total 60 <? 60)
      && (String.length (padStart 2 "0"%char (toString (Z.rem total 60)))
          =? 2)%nat
      && (((Z.rem (total / 60 + 11) 12 + 1) `mod` 12
           + (if negb (total / 60 <? 12) then 12 else 0)) * 60
          + Z.rem total 60 =? START_HOUR * 60 + 15 * slot))
      (Z.of_nat <$> seq 0 (Z.to_nat TOTAL_SLOTS)) = true) as Hall
      by by vm_compute.
    rewrite forallb_elem_of in Hall. by apply Hall.
  - intros slot Hall. cbv zeta in Hall.
    repeat (apply andb_true_iff in Hall as [Hall ?]).
    split_and!; try (by apply Z.leb_le); try (by apply Z.ltb_lt);
      try (by apply Nat.eqb_eq); by apply Z.eqb_eq.
Qed.

Lemma timeForSlot_denotes_time_witness :
  ∃ h m (pm : bool),
    timeForSlot 13
    = (toString h +:+ ":" +:+ padStart 2 "0"%char (toString m) +:+ " "
       +:+ (if pm then "PM" else "AM"))%string
    ∧ 1 ≤ h ∧ h ≤ 12 ∧ 0 ≤ m ∧ m < 60
    ∧ String.length (padStart 2 "0"%char (toString m)) = 2%nat
    ∧ (h `mod` 12 + (if pm then 12 else 0)) * 60 + m
      = START_HOUR * 60 + 15 * 13.
Proof.
  apply timeForSlot_denotes_time. unfold slotOk. rewrite TOTAL_SLOTS_eq. lia.
Defined.

(** X23.  [formatTimeLabel] turns an hour of the day into its 12-hour
    form: for [0 ≤ hour < 24] the label is [h AM] or [h PM] with
    [1 ≤ h ≤ 12], and counting [h] modulo 12, plus 12 for PM, gives the
    hour back. *)
Theorem formatTimeLabel_twelve_hour hour :
  0 ≤ hour → hour < 24 →
  ∃ h (pm : bool),
    formatTimeLabel hour
    = (toString h +:+ " " +:+ (if pm then "PM" else "AM"))%string
    ∧ 1 ≤ h ∧ h ≤ 12
    ∧ h `mod` 12 + (if pm then 12 else 0) = hour.
Proof.
  intros Hlo Hhi.
  exists (Z.rem (hour + 11) 12 + 1), (negb (hour <? 12)).
  split; [unfold formatTimeLabel; by destruct (hour <? 12) |].
  rewrite Z.rem_mod_nonneg by lia.
  destruct (Z.ltb_spec hour 12); simpl;
    pose proof (Z.mod_pos_bound (hour + 11) 12 ltac:(lia));
    split_and!; try lia.
  - destruct (decide (hour = 0)) as [-> | ?]; [done |].
    replace (hour + 11) with (hour - 1 + 1 * 12) by lia.
    rewrite Z.mod_add, (Z.mod_small (hour - 1)) by lia.
    rewrite Z.mod_small; lia.
  - destruct (decide (hour = 12)) as [-> | ?]; [done |].
    replace (hour + 11) with (hour - 13 + 2 * 12) by lia.
    rewrite Z.mod_add, (Z.mod_small (hour - 13)) by lia.
    rewrite Z.mod_small; lia.
Qed.

Lemma formatTimeLabel_twelve_hour_witness :
  ∃ h (pm : bool),
    formatTimeLabel 13
    = (toString h +:+ " " +:+ (if pm then "PM" else "AM"))%string
    ∧ 1 ≤ h ∧ h ≤ 12
    ∧ h `mod` 12 + (if pm then 12 else 0) = 13.
Proof. apply formatTimeLabel_twelve_hour; lia. Defined.

Lemma delete_past {A} (l : list A) i : (length l ≤ i)%nat → delete i l = l.
Proof.
  revert i. induction l as [| a l IH]; intros [| i] Hi; simpl in *;
    [done | done | lia |].
  f_equal. apply IH. lia.
Qed.

(** X24.  Deleting an interval removes the interval at the given index of
    the given row and shifts the later ones down; the other rows and the
    gesture state are untouched, and an index past the end of the row, or
    a row that does not exist, leaves the state as it is. *)
Theorem removeEvent_effect st r i :
  (∃ evs, removeEvent st r i = withEvents st evs
          ∧ evs !! r = delete i <$> events st !! r
          ∧ ∀ r', r' ≠ r → evs !! r' = events st !! r')
  ∧ (∀ rw, events st !! r = Some rw → (length rw ≤ i)%nat →
       removeEvent st r i = st)
  ∧ (events st !! r = None → removeEvent st r i = st).
Proof.
  assert (∀ r', imap (λ j rw, if bool_decide (j ≠ r) then rw
                              else delete i rw) (events st) !! r'
                = (if decide (r' = r) then delete i <$> events st !! r'
                   else events st !! r')) as Hl.
  { intros r'. rewrite list_lookup_imap.
    destruct (events st !! r') as [rw|]; simpl; [| by case_decide].
    case_bool_decide; case_decide; done. }
  assert (∀ evs, (∀ r', evs !! r' = events st !! r') →
            withEvents st evs = st) as Hsame.
  { intros evs Hevs. rewrite (list_eq evs (events st) Hevs).
    apply withEvents_same. }
  split_and!.
  - eexists. split; [reflexivity |]. split.
    + rewrite Hl. by case_decide.
    + intros r' Hne. rewrite Hl. by case_decide.
  - intros rw Hr Hi. apply Hsame. intros r'. rewrite Hl.
    case_decide as Heq; [| done]. subst r'. rewrite Hr. simpl.
    by rewrite delete_past.
  - intros Hr. apply Hsame. intros r'. rewrite Hl.
    case_decide as Heq; [| done]. subst r'. by rewrite Hr.
Qed.

Lemma removeEvent_effect_witness :
  removeEvent (idleState [[mkEventBlock 10 15 (str "A")]; []; []]) 0 5
  = idleState [[mkEventBlock 10 15 (str "A")]; []; []].
Proof.
  apply (proj1 (proj2 (removeEvent_effect
                         (idleState [[mkEventBlock 10 15 (str "A")]; []; []])
                         0%nat 5%nat))
           [mkEventBlock 10 15 (str "A")] eq_refl).
  simpl. lia.
Defined.
